(** * The reactive core of DomUtilsLibrary (dist/reactive.js)

    A shallow embedding of the signal / effect / computed / $state engine:
    the module-level registries (EFFECT_STACK, EFFECT_DEPS,
    STATE_PROP_SIGNALS) and every closure-captured variable of the source
    become fields of an explicit store; each library function becomes a
    store-passing function that may return normally, throw, or run out of
    fuel (user callbacks may loop for ever, e.g. an effect that keeps
    writing to the signal it reads).

    User code (effect bodies, updaters, listeners) is given by a table of
    programs over the library's public interface. *)

From stdpp Require Import base numbers list strings gmap.

Open Scope Z_scope.
Open Scope string_scope.
Open Scope list_scope.
Open Scope nat_scope.

(** ** Values *)

(** Identities of the functions a user program can hold. [FUser n] is the
    n-th user closure; the others are the closures the library hands out.
    Each carries the identity of the object it closes over, so that [===]
    on functions is equality here. *)
Inductive pfunc :=
| FUser (n : nat)
| FGet (s : nat)            (* get of createSignal, also the signal key *)
| FSet (s : nat)
| FSubscribe (s : nat)
| FDisposer (e : nat)       (* the arrow returned by createEffect *)
| FGetter (c : nat)         (* the arrow returned by createComputed *)
| FClosure (u : nat).       (* a closure allocated per call, see [closure] *)

(** The computations: the two closures the library never hands out. *)
Inductive comp :=
| Runner (e : nat)          (* runner of createEffect *)
| Recompute (c : nat).      (* recompute of createComputed *)

(** What a subscriber set holds and what can be called. *)
Inductive func :=
| Pub (f : pfunc)
| Comp (c : comp).

(** JavaScript values, as far as the reactive core looks at them: it only
    ever tests [typeof v === "function"] and [a === b]. [VNum z] is the
    number [z] and [VNaN] the number NaN, the one value that is not [===]
    to itself. *)
Inductive value :=
| VUndef
| VNull
| VBool (b : bool)
| VNum (z : Z)
| VStr (s : string)
| VFun (f : pfunc)
| VObj (o : nat)
| VNaN.

#[global] Instance pfunc_eq_dec : EqDecision pfunc.
Proof. solve_decision. Defined.
#[global] Instance comp_eq_dec : EqDecision comp.
Proof. solve_decision. Defined.
#[global] Instance func_eq_dec : EqDecision func.
Proof. solve_decision. Defined.
#[global] Instance comp_countable : Countable comp.
Proof.
  refine (inj_countable' (λ c, match c with Runner e => inl e | Recompute c => inr c end)
                         (λ x, match x with inl e => Runner e | inr c => Recompute c end) _).
  by intros [].
Defined.
#[global] Instance value_eq_dec : EqDecision value.
Proof. solve_decision. Defined.

(** a === b: identity, except that NaN is not equal to NaN. *)
Definition strict_eq (a b : value) : bool :=
  match a with
  | VNaN => false
  | _ => bool_decide (a = b)
  end.

(** Closures created afresh by each call of [subscribe], [state.subscribe],
    [state.inspect]. *)
Inductive closure :=
| CNoop                                   (* () => {} *)
| CSigUnsub (s : nat) (fn : pfunc)        (* () => subs.delete(fn) *)
| CStateSubscribe (t : nat)               (* (fn) => { globalSubs.add(fn); ... } *)
| CStateUnsub (t : nat) (fn : value)      (* () => globalSubs.delete(fn) *)
| CInspect (t : nat).                     (* () => Object.assign({}, target) *)

(** What the instrumented run records. *)
Inductive event :=
| EvEnter (f : func) (args : list value)  (* a function is entered *)
| EvUnsub (c : comp)                      (* c drops the subscriptions of its last run *)
| EvBody (c : comp)                       (* runner / recompute reaches fn() *)
| EvTrack (c : comp) (k : nat)            (* _trackDependency(c, k) *)
| EvNotify (k : nat) (l : list func)      (* Array.from(subs) of a write *)
| EvDirect (c : comp)                     (* runner() / recompute() called by name *)
| EvConsoleError (args : list value).     (* console.error(...) *)

#[global] Instance event_eq_dec : EqDecision event.
Proof. solve_decision. Defined.

(** ** The store *)

(** A signal key: the object carrying [__subs]. For a signal it is the
    getter and [k_val] is the captured [value]; for a PropertySignal
    [{ __subs }] there is no value. *)
Record key := Key { k_val : option value; k_subs : list func }.

(** The variables captured by one createEffect call. *)
Record effect := Effect {
  e_fn : pfunc;
  e_cleanup : option pfunc }.

(** The variables captured by one createComputed call. *)
Record computed := Computed {
  m_fn : pfunc;
  m_cached : value;
  m_dirty : bool;
  m_cleanup : option pfunc }.

(** One $state call: the target, its entry of STATE_PROP_SIGNALS and
    globalSubs. A JavaScript Set iterated by forEach while it changes
    visits later additions and skips removed entries: removed entries are
    kept as [None]. *)
Record stateobj := StateObj {
  t_target : gmap string value;
  t_props : gmap string nat;
  t_globals : list (option value) }.

Record store := Store {
  keys : list key;
  effects : list effect;
  computeds : list computed;
  deps : gmap comp (list nat);
  states : list stateobj;
  closures : list closure;
  objs : list (gmap string value);
  stack : list comp;
  vars : gmap nat value;
  out : list value;
  timers : list value;
  trace : list event }.

(** [deps] is EFFECT_DEPS; [stack] is EFFECT_STACK, top first; [vars] are
    the variables of the user program and [out] what it emitted, newest
    first; [timers] are the pending setTimeout(() => { throw err }), newest
    first; [trace] is newest first. *)

Definition empty_store : store :=
  Store [] [] [] ∅ [] [] [] [] ∅ [] [] [].

Definition upd_keys (f : list key → list key) (st : store) : store :=
  Store (f (keys st)) (effects st) (computeds st) (deps st) (states st) (closures st) (objs st) (stack st) (vars st) (out st) (timers st) (trace st).
Definition upd_effects (f : list effect → list effect) (st : store) : store :=
  Store (keys st) (f (effects st)) (computeds st) (deps st) (states st) (closures st) (objs st) (stack st) (vars st) (out st) (timers st) (trace st).
Definition upd_computeds (f : list computed → list computed) (st : store) : store :=
  Store (keys st) (effects st) (f (computeds st)) (deps st) (states st) (closures st) (objs st) (stack st) (vars st) (out st) (timers st) (trace st).
Definition upd_deps (f : gmap comp (list nat) → gmap comp (list nat)) (st : store) : store :=
  Store (keys st) (effects st) (computeds st) (f (deps st)) (states st) (closures st) (objs st) (stack st) (vars st) (out st) (timers st) (trace st).
Definition upd_states (f : list stateobj → list stateobj) (st : store) : store :=
  Store (keys st) (effects st) (computeds st) (deps st) (f (states st)) (closures st) (objs st) (stack st) (vars st) (out st) (timers st) (trace st).
Definition upd_closures (f : list closure → list closure) (st : store) : store :=
  Store (keys st) (effects st) (computeds st) (deps st) (states st) (f (closures st)) (objs st) (stack st) (vars st) (out st) (timers st) (trace st).
Definition upd_objs (f : list (gmap string value) → list (gmap string value)) (st : store) : store :=
  Store (keys st) (effects st) (computeds st) (deps st) (states st) (closures st) (f (objs st)) (stack st) (vars st) (out st) (timers st) (trace st).
Definition upd_stack (f : list comp → list comp) (st : store) : store :=
  Store (keys st) (effects st) (computeds st) (deps st) (states st) (closures st) (objs st) (f (stack st)) (vars st) (out st) (timers st) (trace st).
Definition upd_vars (f : gmap nat value → gmap nat value) (st : store) : store :=
  Store (keys st) (effects st) (computeds st) (deps st) (states st) (closures st) (objs st) (stack st) (f (vars st)) (out st) (timers st) (trace st).
Definition upd_out (f : list value → list value) (st : store) : store :=
  Store (keys st) (effects st) (computeds st) (deps st) (states st) (closures st) (objs st) (stack st) (vars st) (f (out st)) (timers st) (trace st).
Definition upd_timers (f : list value → list value) (st : store) : store :=
  Store (keys st) (effects st) (computeds st) (deps st) (states st) (closures st) (objs st) (stack st) (vars st) (out st) (f (timers st)) (trace st).
Definition log (e : event) (st : store) : store :=
  Store (keys st) (effects st) (computeds st) (deps st) (states st) (closures st) (objs st) (stack st) (vars st) (out st) (timers st) (e :: trace st).

(** ** Sets in insertion order *)

Definition set_add {A} `{EqDecision A} (x : A) (l : list A) : list A :=
  if decide (x ∈ l) then l else l ++ [x].
Definition set_delete {A} `{EqDecision A} (x : A) (l : list A) : list A :=
  filter (λ y, y ≠ x) l.

(** ** Results and the monad *)

Inductive res (A : Type) :=
| Ok (a : A)
| Exn (e : value).
Arguments Ok {A} a.
Arguments Exn {A} e.

(** [None] is "out of fuel". *)
Definition M (A : Type) : Type := store → option (res A * store).

Definition ret {A} (a : A) : M A := λ st, Some (Ok a, st).
Definition throw {A} (e : value) : M A := λ st, Some (Exn e, st).
Definition bind {A B} (m : M A) (k : A → M B) : M B :=
  λ st, match m st with
        | Some (Ok a, st1) => k a st1
        | Some (Exn e, st1) => Some (Exn e, st1)
        | None => None
        end.
Definition modify (f : store → store) : M unit := λ st, Some (Ok tt, f st).
Definition gets {A} (f : store → A) : M A := λ st, Some (Ok (f st), st).
(** try { m } catch (err) { h err } *)
Definition try_catch {A} (m : M A) (h : value → M A) : M A :=
  λ st, match m st with
        | Some (Ok a, st1) => Some (Ok a, st1)
        | Some (Exn e, st1) => h e st1
        | None => None
        end.
(** try { m } finally { fin } where fin cannot throw *)
Definition try_finally {A} (m : M A) (fin : store → store) : M A :=
  λ st, match m st with
        | Some (r, st1) => Some (r, fin st1)
        | None => None
        end.

Notation "'let!' x ':=' m 'in' k" := (bind m (λ x, k))
  (at level 10, x name, m at level 100, k at level 200).
Notation "m ;;; k" := (bind m (λ _, k))
  (at level 100, k at level 200, right associativity).

(** ** The user program

    A user closure is a program over the public interface; [code n args]
    is the body of user closure [n] applied to [args]. *)
Inductive prog :=
| Ret (v : value)
| Throw (v : value)
| Call (f : value) (args : list value) (k : value → prog)
| TryCatch (p : prog) (h : value → prog) (k : value → prog)
| CreateSignal (init : value) (k : nat → prog)     (* k s: get/set/subscribe are FGet s, FSet s, FSubscribe s *)
| CreateEffect (fn : value) (k : value → prog)
| CreateComputed (fn : value) (k : value → prog)
| NewState (init : option (gmap string value)) (k : nat → prog)
| PropGet (t : nat) (p : string) (k : value → prog)       (* state.p *)
| PropSet (t : nat) (p : string) (v : value) (k : prog)   (* state.p = v *)
| PropDelete (t : nat) (p : string) (k : prog)            (* delete state.p *)
| VarGet (x : nat) (k : value → prog)
| VarSet (x : nat) (v : value) (k : prog)
| Emit (v : value) (k : prog).

(** ** Registry primitives *)

Definition key_subs (k : nat) (st : store) : list func :=
  from_option k_subs [] (keys st !! k).
Definition key_value (k : nat) (st : store) : value :=
  default VUndef (keys st !! k ≫= k_val).
Definition upd_subs (k : nat) (f : list func → list func) : store → store :=
  upd_keys (alter (λ x, Key (k_val x) (f (k_subs x))) k).
Definition set_value (k : nat) (v : value) : store → store :=
  upd_keys (alter (λ x, Key (Some v) (k_subs x)) k).

(** function _trackDependency(runner, signalKey): the guard
    [if (!runner || !signalKey) return] covers a key that does not exist. *)
Definition _trackDependency (r : comp) (k : nat) (st : store) : store :=
  if decide (k < length (keys st)) then
    let st1 := upd_subs k (set_add (Comp r)) (log (EvTrack r k) st) in
    upd_deps (insert r (set_add k (default [] (deps st1 !! r)))) st1
  else st.

(** The block shared by runner, recompute and the disposer:
    prevDeps.forEach(sigKey => sigKey.__subs.delete(r)); EFFECT_DEPS.delete(r) *)
Definition unsubscribe_all (r : comp) (st : store) : store :=
  let st := log (EvUnsub r) st in
  match deps st !! r with
  | Some l => upd_deps (delete r) (foldl (λ acc k, upd_subs k (set_delete (Comp r)) acc) st l)
  | None => st
  end.

Definition console_error (args : list value) : store → store :=
  log (EvConsoleError args).
Definition defer_throw (err : value) : store → store := upd_timers (cons err).

Definition set_effect_cleanup (e : nat) (c : option pfunc) : store → store :=
  upd_effects (alter (λ x, Effect (e_fn x) c) e).
Definition set_computed_cleanup (c : nat) (cl : option pfunc) : store → store :=
  upd_computeds (alter (λ x, Computed (m_fn x) (m_cached x) (m_dirty x) cl) c).
Definition set_cached (c : nat) (v : value) : store → store :=
  upd_computeds (alter (λ x, Computed (m_fn x) v (m_dirty x) (m_cleanup x)) c).
Definition clear_dirty (c : nat) : store → store :=
  upd_computeds (alter (λ x, Computed (m_fn x) (m_cached x) false (m_cleanup x)) c).

Definition alloc_key (k : key) : M nat :=
  λ st, Some (Ok (length (keys st)), upd_keys (λ l, l ++ [k]) st).
Definition alloc_effect (e : effect) : M nat :=
  λ st, Some (Ok (length (effects st)), upd_effects (λ l, l ++ [e]) st).
Definition alloc_computed (c : computed) : M nat :=
  λ st, Some (Ok (length (computeds st)), upd_computeds (λ l, l ++ [c]) st).
Definition alloc_state (t : stateobj) : M nat :=
  λ st, Some (Ok (length (states st)), upd_states (λ l, l ++ [t]) st).
Definition alloc_closure (c : closure) : M value :=
  λ st, Some (Ok (VFun (FClosure (length (closures st)))), upd_closures (λ l, l ++ [c]) st).
Definition alloc_obj (o : gmap string value) : M value :=
  λ st, Some (Ok (VObj (length (objs st))), upd_objs (λ l, l ++ [o]) st).

(** globalSubs.add(fn) / globalSubs.delete(fn) *)
Definition globals_add (fn : value) (l : list (option value)) : list (option value) :=
  if decide (Some fn ∈ l) then l else l ++ [Some fn].
Definition globals_delete (fn : value) (l : list (option value)) : list (option value) :=
  (λ x, if decide (x = Some fn) then None else x) <$> l.

Definition upd_target (t : nat) (f : gmap string value → gmap string value) : store → store :=
  upd_states (alter (λ x, StateObj (f (t_target x)) (t_props x) (t_globals x)) t).
Definition upd_props (t : nat) (f : gmap string nat → gmap string nat) : store → store :=
  upd_states (alter (λ x, StateObj (t_target x) (f (t_props x)) (t_globals x)) t).
Definition upd_globals (t : nat) (f : list (option value) → list (option value)) : store → store :=
  upd_states (alter (λ x, StateObj (t_target x) (t_props x) (f (t_globals x))) t).
Definition target_of (t : nat) (st : store) : gmap string value :=
  from_option t_target ∅ (states st !! t).
Definition props_of (t : nat) (st : store) : gmap string nat :=
  from_option t_props ∅ (states st !! t).
Definition globals_of (t : nat) (st : store) : list (option value) :=
  from_option t_globals [] (states st !! t).
(** target[prop] on the plain backing record, for a property name that is
    not inherited from Object.prototype (see [inherited_names]): the own
    property, or undefined *)
Definition read_prop (t : nat) (p : string) (st : store) : value :=
  default VUndef (target_of t st !! p).

Definition type_error : value := VStr "TypeError: not a function".
Definition arg (i : nat) (args : list value) : value := default VUndef (args !! i).

(** ** The library functions

    [code] is the table of user closures; [callf] calls a function value
    (with the fuel that is left); [fuel] bounds the live iteration of
    globalSubs. *)
Section Library.
Variable code : nat → list value → prog.
Variable callf : func → list value → M value.
Variable fuel : nat.

(** v(...args) for an arbitrary value v *)
Definition call_value (v : value) (args : list value) : M value :=
  match v with
  | VFun f => callf (Pub f) args
  | _ => throw type_error
  end.

(** createSignal(initial): the new signal key; get, set, subscribe are
    [FGet s], [FSet s], [FSubscribe s]. *)
Definition createSignal (initial : value) : M nat :=
  alloc_key (Key (Some initial) []).

Definition get (s : nat) : M value :=
  modify (λ st, match head (stack st) with
                | Some active => _trackDependency active s st
                | None => st
                end) ;;;
  gets (key_value s).

(** arr.forEach(fn => { try { fn() } catch (err) { setTimeout(() => { throw err }) } }) *)
Fixpoint notify (arr : list func) : M unit :=
  match arr with
  | [] => ret tt
  | fn :: rest =>
      try_catch (callf fn [] ;;; ret tt) (λ err, modify (defer_throw err)) ;;;
      notify rest
  end.

Definition set (s : nat) (newVal : value) : M value :=
  let! old := gets (key_value s) in
  (match newVal with
   | VFun f => let! v := callf (Pub f) [old] in modify (set_value s v)
   | _ => modify (set_value s newVal)
   end) ;;;
  let! value := gets (key_value s) in
  if strict_eq old value then ret value
  else
    let! arr := gets (key_subs s) in
    modify (log (EvNotify s arr)) ;;;
    notify arr ;;;
    gets (key_value s).

Definition subscribe (s : nat) (fn : value) : M value :=
  match fn with
  | VFun f => modify (upd_subs s (set_add (Pub f))) ;;; alloc_closure (CSigUnsub s f)
  | _ => alloc_closure CNoop
  end.

(** try { if (typeof cleanup === "function") cleanup() } catch (err) { report err } *)
Definition run_cleanup (cleanup : option pfunc) (report : value → store → store) : M unit :=
  match cleanup with
  | Some f => try_catch (callf (Pub f) [] ;;; ret tt) (λ err, modify (report err))
  | None => ret tt
  end.

(** runner, after the prevDeps block: from the cleanup to the pop *)
Definition runner_cycle (e : nat) : M value :=
  let! cleanup := gets (λ st, effects st !! e ≫= e_cleanup) in
  run_cleanup cleanup (λ err, console_error [err]) ;;;
  modify (set_effect_cleanup e None) ;;;
  modify (upd_stack (cons (Runner e))) ;;;
  try_finally
    (try_catch
       (let! fn := gets (λ st, from_option e_fn (FUser 0) (effects st !! e)) in
        modify (log (EvBody (Runner e))) ;;;
        let! maybeCleanup := callf (Pub fn) [] in
        match maybeCleanup with
        | VFun c => modify (set_effect_cleanup e (Some c))
        | _ => ret tt
        end)
       (λ err, modify (console_error [VStr "createEffect error"; err])))
    (upd_stack tail) ;;;
  ret VUndef.

(** const runner = () => { ... }; an [e] that was never created has no
    runner. *)
Definition runner (e : nat) : M value :=
  let! eff := gets (λ st, effects st !! e) in
  match eff with
  | None => ret VUndef
  | Some _ => modify (unsubscribe_all (Runner e)) ;;; runner_cycle e
  end.

Definition createEffect (fn : value) : M value :=
  match fn with
  | VFun f =>
      let! e := alloc_effect (Effect f None) in
      modify (log (EvDirect (Runner e))) ;;;
      callf (Comp (Runner e)) [] ;;;
      ret (VFun (FDisposer e))
  | _ => throw (VStr "createEffect: fn must be a function")
  end.

(** the arrow returned by createEffect *)
Definition disposer (e : nat) : M value :=
  modify (unsubscribe_all (Runner e)) ;;;
  let! cleanup := gets (λ st, effects st !! e ≫= e_cleanup) in
  run_cleanup cleanup (λ err, console_error [err]) ;;;
  modify (set_effect_cleanup e None) ;;;
  ret VUndef.

(** recompute, after the prevDeps block *)
Definition recompute_cycle (c : nat) : M value :=
  let! cleanup := gets (λ st, computeds st !! c ≫= m_cleanup) in
  run_cleanup cleanup (λ _, id) ;;;
  modify (set_computed_cleanup c None) ;;;
  modify (upd_stack (cons (Recompute c))) ;;;
  try_finally
    (try_catch
       (let! fn := gets (λ st, from_option m_fn (FUser 0) (computeds st !! c)) in
        modify (log (EvBody (Recompute c))) ;;;
        let! result := callf (Pub fn) [] in
        (match result with
         | VFun cl => modify (set_computed_cleanup c (Some cl))
         | _ => modify (set_cached c result)
         end) ;;;
        modify (clear_dirty c))
       (λ err, modify (console_error [VStr "createComputed error"; err])))
    (upd_stack tail) ;;;
  ret VUndef.

Definition recompute (c : nat) : M value :=
  let! cmp := gets (λ st, computeds st !! c) in
  match cmp with
  | None => ret VUndef
  | Some _ => modify (unsubscribe_all (Recompute c)) ;;; recompute_cycle c
  end.

Definition createComputed (fn : value) : M value :=
  match fn with
  | VFun f =>
      let! c := alloc_computed (Computed f VUndef true None) in
      modify (log (EvDirect (Recompute c))) ;;;
      callf (Comp (Recompute c)) [] ;;;
      ret (VFun (FGetter c))
  | _ => throw (VStr "createComputed: fn must be a function")
  end.

(** the arrow returned by createComputed *)
Definition getter (c : nat) : M value :=
  let! dirty := gets (λ st, from_option m_dirty false (computeds st !! c)) in
  (if dirty then
     modify (log (EvDirect (Recompute c))) ;;; callf (Comp (Recompute c)) []
   else ret VUndef) ;;;
  gets (λ st, from_option m_cached VUndef (computeds st !! c)).

Definition _ensurePropSignalFor (t : nat) (p : string) : M nat :=
  let! found := gets (λ st, props_of t st !! p) in
  match found with
  | Some sig => ret sig
  | None =>
      let! sig := alloc_key (Key None []) in
      modify (upd_props t (insert p sig)) ;;;
      ret sig
  end.

(** $state(initial = {}) *)
Definition state (initial : option (gmap string value)) : M nat :=
  alloc_state (StateObj (default ∅ initial) ∅ []).

(** globalSubs.forEach(fn => { try { fn(key, oldVal, newVal) } catch (err) { console.error(err) } }),
    from entry [i] on. *)
Fixpoint notifyGlobal_from (n : nat) (t : nat) (i : nat) (args : list value) : M unit :=
  match n with
  | 0 => λ _, None
  | S n =>
      let! entry := gets (λ st, globals_of t st !! i) in
      match entry with
      | None => ret tt
      | Some None => notifyGlobal_from n t (S i) args
      | Some (Some fn) =>
          try_catch (call_value fn args ;;; ret tt)
                    (λ err, modify (console_error [err])) ;;;
          notifyGlobal_from n t (S i) args
      end
  end.

Definition notifyGlobal (t : nat) (key : string) (oldVal newVal : value) : M unit :=
  notifyGlobal_from fuel t 0 [VStr key; oldVal; newVal].

(** The block shared by handler.set and handler.deleteProperty: deliver
    to the subscribers of the property's signal, if there is one. *)
Definition notify_prop (t : nat) (p : string) : M unit :=
  let! sig := gets (λ st, props_of t st !! p) in
  match sig with
  | Some k =>
      let! arr := gets (key_subs k) in
      modify (log (EvNotify k arr)) ;;;
      notify arr
  | None => ret tt
  end.

Definition handler_get (t : nat) (p : string) : M value :=
  if decide (p = "__isState") then ret (VBool true)
  else if decide (p = "subscribe") then alloc_closure (CStateSubscribe t)
  else if decide (p = "inspect") then alloc_closure (CInspect t)
  else
    let! active := gets (λ st, head (stack st)) in
    (match active with
     | Some a =>
         let! sig := _ensurePropSignalFor t p in
         modify (_trackDependency a sig)
     | None => ret tt
     end) ;;;
    gets (read_prop t p).

(** handler.set. The target is a plain extensible object whose properties
    are writable and configurable, and a program of [prog] has no
    operation that freezes it or redefines a property: Reflect.set and
    Reflect.deleteProperty succeed, and their result is true. *)
Definition handler_set (t : nat) (p : string) (v : value) : M value :=
  let! old := gets (read_prop t p) in
  if strict_eq old v then
    modify (upd_target t (insert p v)) ;;; ret (VBool true)
  else
    modify (upd_target t (insert p v)) ;;;
    notify_prop t p ;;;
    notifyGlobal t p old v ;;;
    ret (VBool true).

Definition handler_deleteProperty (t : nat) (p : string) : M value :=
  let! old := gets (read_prop t p) in
  let! existed := gets (λ st, bool_decide (is_Some (target_of t st !! p))) in
  modify (upd_target t (delete p)) ;;;
  (if existed : bool then
     notify_prop t p ;;;
     modify (upd_props t (delete p)) ;;;
     notifyGlobal t p old VUndef
   else ret tt) ;;;
  ret (VBool true).

(** Calling one of the closures allocated per call. *)
Definition call_closure (c : closure) (args : list value) : M value :=
  match c with
  | CNoop => ret VUndef
  | CSigUnsub s fn =>
      let! had := gets (λ st, bool_decide (Pub fn ∈ key_subs s st)) in
      modify (upd_subs s (set_delete (Pub fn))) ;;;
      ret (VBool had)
  | CStateSubscribe t =>
      modify (upd_globals t (globals_add (arg 0 args))) ;;;
      alloc_closure (CStateUnsub t (arg 0 args))
  | CStateUnsub t fn =>
      let! had := gets (λ st, bool_decide (Some fn ∈ globals_of t st)) in
      modify (upd_globals t (globals_delete fn)) ;;;
      ret (VBool had)
  | CInspect t =>
      let! target := gets (target_of t) in
      alloc_obj target
  end.

(** Running a user program. *)
Fixpoint exec (p : prog) : M value :=
  match p with
  | Ret v => ret v
  | Throw v => throw v
  | Call f args k => let! r := call_value f args in exec (k r)
  | TryCatch p h k =>
      let! r := try_catch (exec p) (λ err, exec (h err)) in exec (k r)
  | CreateSignal init k => let! s := createSignal init in exec (k s)
  | CreateEffect fn k => let! d := createEffect fn in exec (k d)
  | CreateComputed fn k => let! g := createComputed fn in exec (k g)
  | NewState init k => let! t := state init in exec (k t)
  | PropGet t p k => let! v := handler_get t p in exec (k v)
  | PropSet t p v k => handler_set t p v ;;; exec k
  | PropDelete t p k => handler_deleteProperty t p ;;; exec k
  | VarGet x k => let! v := gets (λ st, default VUndef (vars st !! x)) in exec (k v)
  | VarSet x v k => modify (upd_vars (insert x v)) ;;; exec k
  | Emit v k => modify (upd_out (cons v)) ;;; exec k
  end.

(** f(...args) for each kind of function. *)
Definition dispatch (f : func) (args : list value) : M value :=
  match f with
  | Pub (FUser n) => exec (code n args)
  | Pub (FGet s) => get s
  | Pub (FSet s) => set s (arg 0 args)
  | Pub (FSubscribe s) => subscribe s (arg 0 args)
  | Pub (FDisposer e) => disposer e
  | Pub (FGetter c) => getter c
  | Pub (FClosure u) =>
      let! c := gets (λ st, default CNoop (closures st !! u)) in
      call_closure c args
  | Comp (Runner e) => runner e
  | Comp (Recompute c) => recompute c
  end.

Definition apply (f : func) (args : list value) : M value :=
  modify (log (EvEnter f args)) ;;; dispatch f args.
End Library.

(** [call code n f args]: call [f] with fuel [n]. *)
Fixpoint call (code : nat → list value → prog) (n : nat) (f : func) (args : list value)
    : M value :=
  match n with
  | 0 => λ _, None
  | S n => apply code (call code n) n f args
  end.

(** Running a top-level script with fuel [n]. *)
Definition run (code : nat → list value → prog) (n : nat) (p : prog) : M value :=
  exec (call code n) n p.

(** * Reasoning about runs

    Every run of the library is a sequence of primitive store updates. The
    updates any caller can cause are [prim]; [cprim c] are those a
    computation [c] makes only when it is itself called. Two more are
    kept apart: recording the delivery list of a write, and recording
    that a computation reaches its body. *)
Inductive prim : store → store → Prop :=
| prim_enter f args st : prim st (log (EvEnter (Pub f) args) st)
| prim_track a k st : head (stack st) = Some a → prim st (_trackDependency a k st)
| prim_set_value s v st : prim st (set_value s v st)
| prim_defer err st : prim st (defer_throw err st)
| prim_subscribe s f st : prim st (upd_subs s (set_add (Pub f)) st)
| prim_unsubscribe s f st : prim st (upd_subs s (set_delete (Pub f)) st)
| prim_console args st : prim st (console_error args st)
| prim_unsub_all c st : prim st (unsubscribe_all c st)
| prim_effect_cleanup e cl st : prim st (set_effect_cleanup e cl st)
| prim_computed_cleanup c cl st : prim st (set_computed_cleanup c cl st)
| prim_cached c v st : prim st (set_cached c v st)
| prim_clear_dirty c st : prim st (clear_dirty c st)
| prim_pop st : prim st (upd_stack tail st)
| prim_alloc_signal v st : prim st (upd_keys (λ l, l ++ [Key (Some v) []]) st)
| prim_alloc_prop t p st :
    prim st (upd_props t (insert p (length (keys st)))
               (upd_keys (λ l, l ++ [Key None []]) st))
| prim_alloc_effect f st : prim st (upd_effects (λ l, l ++ [Effect f None]) st)
| prim_alloc_computed f st :
    prim st (upd_computeds (λ l, l ++ [Computed f VUndef true None]) st)
| prim_alloc_state o st : prim st (upd_states (λ l, l ++ [StateObj o ∅ []]) st)
| prim_alloc_closure c st : prim st (upd_closures (λ l, l ++ [c]) st)
| prim_alloc_obj o st : prim st (upd_objs (λ l, l ++ [o]) st)
| prim_target t f st : prim st (upd_target t f st)
| prim_props_delete t p st : prim st (upd_props t (delete p) st)
| prim_globals_add t v st : prim st (upd_globals t (globals_add v) st)
| prim_globals_delete t v st : prim st (upd_globals t (globals_delete v) st)
| prim_vars f st : prim st (upd_vars f st)
| prim_out v st : prim st (upd_out (cons v) st).

Inductive cprim (c : comp) : store → store → Prop :=
| cprim_enter args st : cprim c st (log (EvEnter (Comp c) args) st)
| cprim_push st : cprim c st (upd_stack (cons c) st).

Definition comp_exists (c : comp) (st : store) : Prop :=
  match c with
  | Runner e => e < length (effects st)
  | Recompute m => m < length (computeds st)
  end.

(** The weight of a list of functions, for a weight [wc] of computations. *)
Definition wfunc (wc : comp → Z) (f : func) : Z :=
  match f with Pub _ => 0%Z | Comp c => wc c end.
Definition wsum (wc : comp → Z) (arr : list func) : Z :=
  foldr (λ f acc, (wfunc wc f + acc)%Z) 0%Z arr.

(** [m] never throws. *)
Definition noexn {A} (m : M A) : Prop := ∀ st e st', m st ≠ Some (Exn e, st').

Lemma noexn_modify g : noexn (modify g).
Proof. by intros st e st'. Qed.

Lemma noexn_gets {A} (f : store → A) : noexn (gets f).
Proof. by intros st e st'. Qed.

Lemma noexn_try_catch {A} (m : M A) h : (∀ e, noexn (h e)) → noexn (try_catch m h).
Proof.
  intros Hh st e st'. unfold try_catch.
  destruct (m st) as [[[a|e1] st1]|]; [done|apply Hh|done].
Qed.

(** A store invariant [I] and a graded relation [R w] between the stores
    before and after: when every primitive update keeps [I] and is in
    [R 0], recording the delivery list of a write is in [R] of minus its
    weight, recording a call of [c] by name is in [R (- wc c)] and reaching
    the body of [c] is in [R (wc c)], then every call of a function [f]
    keeps [I] and is in [R] of the weight of [f]. The computations that can
    be called are those of [okc]. *)
Create HintDb sat.

Section Generic.
Variable code : nat → list value → prog.
Variable I : store → Prop.
Variable R : Z → store → store → Prop.
Variable okc : comp → Prop.
Variable wc : comp → Z.

Hypothesis R_refl : ∀ st, R 0 st st.
Hypothesis R_trans : ∀ i j a b c, R i a b → R j b c → R (i + j) a c.
Hypothesis H_prim : ∀ st st', prim st st' → I st → I st' ∧ R 0 st st'.
Hypothesis H_cprim : ∀ c st st', okc c → cprim c st st' → I st → I st' ∧ R 0 st st'.
Hypothesis H_log_notify : ∀ st k, I st →
  I (log (EvNotify k (key_subs k st)) st) ∧
  R (- wsum wc (key_subs k st)) st (log (EvNotify k (key_subs k st)) st).
Hypothesis H_log_body : ∀ c st, okc c → I st →
  I (log (EvBody c) st) ∧ R (wc c) st (log (EvBody c) st).
Hypothesis H_create_effect : ∀ f st, I st →
  let c := Runner (length (effects st)) in
  let st' := log (EvDirect c) (upd_effects (λ l, l ++ [Effect f None]) st) in
  okc c ∧ I st' ∧ R (- wc c) st st'.
Hypothesis H_create_computed : ∀ f st, I st →
  let c := Recompute (length (computeds st)) in
  let st' := log (EvDirect c)
               (upd_computeds (λ l, l ++ [Computed f VUndef true None]) st) in
  okc c ∧ I st' ∧ R (- wc c) st st'.
Hypothesis H_getter : ∀ st c, I st → c < length (computeds st) →
  okc (Recompute c) ∧ I (log (EvDirect (Recompute c)) st) ∧
  R (- wc (Recompute c)) st (log (EvDirect (Recompute c)) st).
Hypothesis H_notify : ∀ st k c, I st → Comp c ∈ key_subs k st → okc c.
Hypothesis H_exists : ∀ st c, I st → okc c → comp_exists c st ∨ wc c = 0%Z.

Definition okf (f : func) : Prop :=
  match f with Pub _ => True | Comp c => okc c end.

Definition sat {A} (w : Z) (m : M A) : Prop :=
  ∀ st r st', I st → m st = Some (r, st') → I st' ∧ R w st st'.

Lemma sat_weaken {A} w w' (m : M A) : w = w' → sat w m → sat w' m.
Proof. by intros ->. Qed.

Lemma sat_ret {A} (a : A) : sat 0 (ret a).
Proof. intros st r st' HI [= <- <-]. auto. Qed.

Lemma sat_throw {A} e : sat 0 (@throw A e).
Proof. intros st r st' HI [= <- <-]. auto. Qed.

Lemma sat_gets {A} (f : store → A) : sat 0 (gets f).
Proof. intros st r st' HI [= <- <-]. auto. Qed.

Lemma sat_modify g : (∀ st, prim st (g st)) → sat 0 (modify g).
Proof. intros Hg st r st' HI [= <- <-]. eauto. Qed.

Lemma sat_bind_l {A B} w (m : M A) (k : A → M B) :
  sat w m → (∀ a, sat 0 (k a)) → sat w (bind m k).
Proof.
  intros Hm Hk st r st' HI. unfold bind.
  destruct (m st) as [[[a|e] st1]|] eqn:E; try done.
  - intros Hk'. destruct (Hm _ _ _ HI E) as [HI1 HR1].
    destruct (Hk a _ _ _ HI1 Hk') as [HI2 HR2]. split; [done|].
    rewrite <-(Z.add_0_r w). eauto.
  - intros [= <- <-]. eauto.
Qed.

Lemma sat_bind {A B} (m : M A) (k : A → M B) :
  sat 0 m → (∀ a, sat 0 (k a)) → sat 0 (bind m k).
Proof. apply sat_bind_l. Qed.

Lemma sat_bind_w {A B} w1 w2 (m : M A) (k : A → M B) :
  noexn m → sat w1 m → (∀ a, sat w2 (k a)) → sat (w1 + w2) (bind m k).
Proof.
  intros Hno Hm Hk st r st' HI. unfold bind.
  destruct (m st) as [[[a|e] st1]|] eqn:E; try done.
  - intros Hk'. destruct (Hm _ _ _ HI E) as [HI1 HR1].
    destruct (Hk a _ _ _ HI1 Hk'). eauto.
  - by apply Hno in E.
Qed.

Lemma sat_try_catch {A} w (m : M A) h :
  sat w m → (∀ e, sat 0 (h e)) → sat w (try_catch m h).
Proof.
  intros Hm Hh st r st' HI. unfold try_catch.
  destruct (m st) as [[[a|e] st1]|] eqn:E; try done.
  - intros [= <- <-]. eauto.
  - intros Hk'. destruct (Hm _ _ _ HI E) as [HI1 HR1].
    destruct (Hh e _ _ _ HI1 Hk') as [HI2 HR2]. split; [done|].
    rewrite <-(Z.add_0_r w). eauto.
Qed.

Lemma sat_try_finally {A} w (m : M A) fin :
  sat w m → (∀ st, prim st (fin st)) → sat w (try_finally m fin).
Proof.
  intros Hm Hf st r st' HI. unfold try_finally.
  destruct (m st) as [[r1 st1]|] eqn:E; try done.
  intros [= <- <-]. destruct (Hm _ _ _ HI E) as [HI1 HR1].
  destruct (H_prim _ _ (Hf st1) HI1) as [HI2 HR2]. split; [done|].
  rewrite <-(Z.add_0_r w). eauto.
Qed.

Lemma sat_alloc_key k :
  (∀ st, prim st (upd_keys (λ l, l ++ [k]) st)) → sat 0 (alloc_key k).
Proof. intros Hg st r st' HI [= <- <-]. eauto. Qed.

Lemma sat_alloc_closure c : sat 0 (alloc_closure c).
Proof. intros st r st' HI [= <- <-]. apply H_prim; auto. constructor. Qed.

Lemma sat_alloc_obj o : sat 0 (alloc_obj o).
Proof. intros st r st' HI [= <- <-]. apply H_prim; auto. constructor. Qed.

Lemma sat_modify_c c g : okc c → (∀ st, cprim c st (g st)) → sat 0 (modify g).
Proof. intros Hc Hg st r st' HI [= <- <-]. eauto. Qed.

Lemma sat_log_body c : okc c → sat (wc c) (modify (log (EvBody c))).
Proof. intros Hc st r st' HI [= <- <-]. eauto. Qed.

Lemma sat_gets_bind {A B} w (f : store → A) (k : A → M B) :
  (∀ st r st', I st → k (f st) st = Some (r, st') → I st' ∧ R w st st') →
  sat w (bind (gets f) k).
Proof. intros Hk st r st' HI. unfold bind, gets. eauto. Qed.

(** Recording the delivery list and then delivering to it. *)
Lemma sat_log_notify_at {B} k (m : M B) st r st' :
  sat (wsum wc (key_subs k st)) m →
  I st → bind (modify (log (EvNotify k (key_subs k st)))) (λ _, m) st = Some (r, st') →
  I st' ∧ R 0 st st'.
Proof.
  intros Hm HI. unfold bind, modify. intros Hk'.
  destruct (H_log_notify _ k HI) as [HI1 HR1].
  destruct (Hm _ _ _ HI1 Hk') as [HI2 HR2]. split; [done|].
  rewrite <-(Z.add_opp_diag_l (wsum wc (key_subs k st))). eauto.
Qed.

Section WithCallf.
Variable callf : func → list value → M value.
Variable fuel : nat.
Hypothesis H_callf : ∀ f args, okf f → sat (wfunc wc f) (callf f args).

Local Hint Resolve sat_ret sat_throw sat_gets sat_alloc_closure sat_alloc_obj : sat.
Local Hint Constructors prim cprim : sat.

Lemma sat_callf_pub f args : sat 0 (callf (Pub f) args).
Proof. by apply (H_callf (Pub f)). Qed.

Ltac sat_step :=
  first
    [ apply sat_bind; [|intros ?]
    | apply sat_try_catch; [|intros ?]
    | apply sat_try_finally
    | apply sat_ret | apply sat_throw | apply sat_gets
    | apply sat_alloc_closure | apply sat_alloc_obj
    | apply sat_modify; intros ?; solve [eauto with sat]
    | apply sat_callf_pub ].
Ltac sat_auto := repeat sat_step.

Lemma sat_call_value v args : sat 0 (call_value callf v args).
Proof. destruct v; simpl; sat_auto. Qed.

Lemma sat_get s : sat 0 (get s).
Proof.
  unfold get. apply sat_bind; [|intros; sat_auto].
  intros st r st' HI [= <- <-].
  destruct (head (stack st)) eqn:E; [|auto].
  apply H_prim; auto with sat.
Qed.

Lemma sat_notify arr : (∀ f, f ∈ arr → okf f) → sat (wsum wc arr) (notify callf arr).
Proof.
  induction arr as [|fn rest IH]; intros Hok; simpl; [sat_auto|].
  apply sat_bind_w; [|apply sat_try_catch; [|intros; sat_auto]|].
  - apply noexn_try_catch. intros. apply noexn_modify.
  - apply sat_bind_l; [|intros; sat_auto]. apply H_callf, Hok. by left.
  - intros _. apply IH. intros. apply Hok. by right.
Qed.

Lemma okf_subs st k f : I st → f ∈ key_subs k st → okf f.
Proof. destruct f as [f|c]; simpl; eauto. Qed.

Lemma sat_set s newVal : sat 0 (set callf s newVal).
Proof.
  unfold set. apply sat_bind; [sat_auto|intros old].
  apply sat_bind; [destruct newVal; sat_auto|intros _].
  apply sat_bind; [sat_auto|intros value].
  destruct (strict_eq old value); [sat_auto|].
  apply sat_gets_bind. intros st r st' HI.
  apply sat_log_notify_at; [|done].
  apply sat_bind_l; [|intros; sat_auto].
  apply sat_notify. eauto using okf_subs.
Qed.

Lemma sat_subscribe s fn : sat 0 (subscribe s fn).
Proof. destruct fn; simpl; sat_auto. Qed.

Lemma sat_run_cleanup cl report :
  (∀ err st, prim st (report err st)) → sat 0 (run_cleanup callf cl report).
Proof.
  intros Hrep. destruct cl; simpl; [|sat_auto].
  apply sat_try_catch; [sat_auto|intros err].
  apply sat_modify. auto.
Qed.

Lemma prim_id st : prim st (id st).
Proof.
  replace (id st) with (upd_vars id st) by (by destruct st). constructor.
Qed.

Lemma sat_runner_cycle e : okc (Runner e) → sat (wc (Runner e)) (runner_cycle callf e).
Proof.
  intros Hok. unfold runner_cycle.
  apply (sat_bind_w 0); [apply noexn_gets|sat_auto|intros cl].
  apply (sat_bind_w 0).
  { destruct cl; simpl; [|apply noexn_modify || by intros ???].
    apply noexn_try_catch. intros. apply noexn_modify. }
  { apply sat_run_cleanup; auto with sat. }
  intros _.
  apply (sat_bind_w 0); [apply noexn_modify|sat_auto|intros _].
  apply (sat_bind_w 0);
    [apply noexn_modify|eapply sat_modify_c; eauto with sat|intros _].
  apply sat_bind_l; [|intros; sat_auto].
  apply sat_try_finally; [|auto with sat].
  apply sat_try_catch; [|intros; sat_auto].
  apply (sat_bind_w 0); [apply noexn_gets|sat_auto|intros fn].
  apply sat_bind_l; [by apply sat_log_body|intros _].
  apply sat_bind; [sat_auto|intros [| | | | |c| |]]; sat_auto.
Qed.

Lemma sat_runner e : okc (Runner e) → sat (wc (Runner e)) (runner callf e).
Proof.
  intros Hok. unfold runner. apply sat_gets_bind. intros st r st' HI.
  destruct (effects st !! e) as [eff|] eqn:E.
  - clear E. revert st r st' HI.
    apply (sat_bind_w 0); [apply noexn_modify|sat_auto|intros _].
    by apply sat_runner_cycle.
  - intros [= <- <-]. split; [done|].
    destruct (H_exists st (Runner e) HI Hok) as [Hex| ->]; [|done].
    simpl in Hex. apply lookup_lt_is_Some_2 in Hex as [? Hx]. congruence.
Qed.

Lemma sat_disposer e : sat 0 (disposer callf e).
Proof.
  unfold disposer. apply sat_bind; [sat_auto|intros _].
  apply sat_bind; [sat_auto|intros cl].
  apply sat_bind; [apply sat_run_cleanup; auto with sat|intros _].
  sat_auto.
Qed.

Lemma sat_recompute_cycle c :
  okc (Recompute c) → sat (wc (Recompute c)) (recompute_cycle callf c).
Proof.
  intros Hok. unfold recompute_cycle.
  apply (sat_bind_w 0); [apply noexn_gets|sat_auto|intros cl].
  apply (sat_bind_w 0).
  { destruct cl; simpl; [|by intros ???].
    apply noexn_try_catch. intros. apply noexn_modify. }
  { apply sat_run_cleanup; intros; apply prim_id. }
  intros _.
  apply (sat_bind_w 0); [apply noexn_modify|sat_auto|intros _].
  apply (sat_bind_w 0);
    [apply noexn_modify|eapply sat_modify_c; eauto with sat|intros _].
  apply sat_bind_l; [|intros; sat_auto].
  apply sat_try_finally; [|auto with sat].
  apply sat_try_catch; [|intros; sat_auto].
  apply (sat_bind_w 0); [apply noexn_gets|sat_auto|intros fn].
  apply sat_bind_l; [by apply sat_log_body|intros _].
  apply sat_bind; [sat_auto|intros res].
  apply sat_bind; [destruct res; sat_auto|intros; sat_auto].
Qed.

Lemma sat_recompute c : okc (Recompute c) → sat (wc (Recompute c)) (recompute callf c).
Proof.
  intros Hok. unfold recompute. apply sat_gets_bind. intros st r st' HI.
  destruct (computeds st !! c) as [cmp|] eqn:E.
  - clear E. revert st r st' HI.
    apply (sat_bind_w 0); [apply noexn_modify|sat_auto|intros _].
    by apply sat_recompute_cycle.
  - intros [= <- <-]. split; [done|].
    destruct (H_exists st (Recompute c) HI Hok) as [Hex| ->]; [|done].
    simpl in Hex. apply lookup_lt_is_Some_2 in Hex as [? Hx]. congruence.
Qed.

(** A call of [c] by name, once it is recorded. *)
Lemma sat_direct_at {B} c (k : M B) st1 st2 r st' :
  okc c → I st2 → R (- wc c) st1 st2 → sat 0 k →
  (callf (Comp c) [] ;;; k) st2 = Some (r, st') →
  I st' ∧ R 0 st1 st'.
Proof.
  intros Hok HI HR Hk Hc.
  assert (sat (wc c) (callf (Comp c) [] ;;; k)) as Hs.
  { apply sat_bind_l; [|by intros]. by apply (H_callf (Comp c)). }
  destruct (Hs _ _ _ HI Hc) as [HI' HR']. split; [done|].
  rewrite <-(Z.add_opp_diag_l (wc c)). eauto.
Qed.

Lemma sat_createEffect fn : sat 0 (createEffect callf fn).
Proof.
  destruct fn; simpl; try apply sat_throw.
  intros st r st' HI. unfold bind at 1, alloc_effect. unfold bind at 1, modify at 1.
  destruct (H_create_effect f st HI) as (Hok & HI1 & HR1).
  apply sat_direct_at; auto. sat_auto.
Qed.

Lemma sat_createComputed fn : sat 0 (createComputed callf fn).
Proof.
  destruct fn; simpl; try apply sat_throw.
  intros st r st' HI. unfold bind at 1, alloc_computed. unfold bind at 1, modify at 1.
  destruct (H_create_computed f st HI) as (Hok & HI1 & HR1).
  apply sat_direct_at; auto. sat_auto.
Qed.

Lemma sat_getter c : sat 0 (getter callf c).
Proof.
  unfold getter. apply sat_gets_bind. intros st r st' HI.
  destruct (computeds st !! c) as [cmp|] eqn:E; simpl.
  - destruct (m_dirty cmp); [|clear E; revert st r st' HI; sat_auto].
    destruct (H_getter st c HI) as (Hok & HI1 & HR1).
    { eapply lookup_lt_Some; eauto. }
    unfold bind at 1. unfold bind at 1, modify at 1.
    destruct (callf (Comp (Recompute c)) [] _) as [[[v|e] st1]|] eqn:Ec; [| |done].
    + intros [= <- <-].
      destruct (H_callf (Comp (Recompute c)) [] Hok _ _ _ HI1 Ec) as [HI2 HR2].
      split; [done|]. rewrite <-(Z.add_opp_diag_l (wc (Recompute c))). eauto.
    + intros [= <- <-].
      destruct (H_callf (Comp (Recompute c)) [] Hok _ _ _ HI1 Ec) as [HI2 HR2].
      split; [done|]. rewrite <-(Z.add_opp_diag_l (wc (Recompute c))). eauto.
  - clear E. revert st r st' HI. sat_auto.
Qed.

Lemma _ensurePropSignalFor_cases t p st r st' :
  _ensurePropSignalFor t p st = Some (r, st') →
  (∃ sig, r = Ok sig ∧ props_of t st !! p = Some sig ∧ st' = st) ∨
  (r = Ok (length (keys st)) ∧ props_of t st !! p = None ∧
   st' = upd_props t (insert p (length (keys st)))
           (upd_keys (λ l, l ++ [Key None []]) st)).
Proof.
  unfold _ensurePropSignalFor, bind, gets.
  destruct (props_of t st !! p) as [sig|] eqn:E.
  - intros [= <- <-]. left. eauto.
  - simpl. intros [= <- <-]. right. auto.
Qed.

Lemma sat_handler_get t p : sat 0 (handler_get t p).
Proof.
  unfold handler_get. repeat (case_decide; [sat_auto|]).
  apply sat_gets_bind. intros st r st' HI.
  destruct (head (stack st)) as [a|] eqn:E; [|clear E; revert st r st' HI; sat_auto].
  unfold bind at 1 2.
  destruct (_ensurePropSignalFor t p st) as [[r1 st1]|] eqn:E1; [|done].
  apply _ensurePropSignalFor_cases in E1
    as [(sig & -> & _ & ->)|(-> & _ & ->)]; unfold modify.
  - intros [= <- <-]. apply H_prim; auto with sat.
  - intros [= <- <-].
    destruct (H_prim _ _ (prim_alloc_prop t p st) HI) as [HI1 HR1].
    set (st2 := upd_props _ _ _) in *.
    assert (head (stack st2) = Some a) as E2 by exact E.
    destruct (H_prim _ _ (prim_track a (length (keys st)) st2 E2) HI1).
    split; [done|]. change 0%Z with (0 + 0)%Z. eauto.
Qed.

Lemma sat_notifyGlobal_from n t i args : sat 0 (notifyGlobal_from callf n t i args).
Proof.
  revert i. induction n as [|n IH]; intros i; simpl; [by intros ????|].
  apply sat_bind; [sat_auto|intros [[fn|]|]]; [|auto|sat_auto].
  apply sat_bind; [|auto].
  apply sat_try_catch; [|intros; sat_auto].
  apply sat_bind; [apply sat_call_value|intros; sat_auto].
Qed.

Lemma sat_notify_prop t p : sat 0 (notify_prop callf t p).
Proof.
  unfold notify_prop. apply sat_bind; [sat_auto|intros [k|]]; [|sat_auto].
  apply sat_gets_bind. intros st r st' HI.
  apply sat_log_notify_at; [|done].
  apply sat_notify. eauto using okf_subs.
Qed.

Lemma sat_handler_set t p v : sat 0 (handler_set callf fuel t p v).
Proof.
  unfold handler_set, notifyGlobal. apply sat_bind; [sat_auto|intros old].
  destruct (strict_eq old v); [sat_auto|].
  apply sat_bind; [sat_auto|intros _].
  apply sat_bind; [apply sat_notify_prop|intros _].
  apply sat_bind; [apply sat_notifyGlobal_from|intros; sat_auto].
Qed.

Lemma sat_handler_deleteProperty t p : sat 0 (handler_deleteProperty callf fuel t p).
Proof.
  unfold handler_deleteProperty, notifyGlobal. apply sat_bind; [sat_auto|intros old].
  apply sat_bind; [sat_auto|intros existed].
  apply sat_bind; [sat_auto|intros _].
  apply sat_bind; [|intros; sat_auto].
  destruct existed; [|sat_auto].
  apply sat_bind; [apply sat_notify_prop|intros _].
  apply sat_bind; [sat_auto|intros _].
  apply sat_notifyGlobal_from.
Qed.

Lemma sat_call_closure c args : sat 0 (call_closure c args).
Proof. destruct c; simpl; sat_auto. Qed.

Lemma sat_exec p : sat 0 (exec callf fuel p).
Proof.
  induction p; simpl.
  - sat_auto.
  - sat_auto.
  - apply sat_bind; [apply sat_call_value|auto].
  - apply sat_bind; [|auto]. apply sat_try_catch; auto.
  - apply sat_bind; [|auto]. apply sat_alloc_key. auto with sat.
  - apply sat_bind; [apply sat_createEffect|auto].
  - apply sat_bind; [apply sat_createComputed|auto].
  - apply sat_bind; [|auto]. intros st r st' HI [= <- <-].
    apply H_prim; auto with sat.
  - apply sat_bind; [apply sat_handler_get|auto].
  - apply sat_bind; [apply sat_handler_set|auto].
  - apply sat_bind; [apply sat_handler_deleteProperty|auto].
  - apply sat_bind; [sat_auto|auto].
  - apply sat_bind; [sat_auto|auto].
  - apply sat_bind; [sat_auto|auto].
Qed.

Lemma sat_dispatch f args : okf f → sat (wfunc wc f) (dispatch code callf fuel f args).
Proof.
  intros Hok. destruct f as [f|c]; simpl.
  - destruct f; auto using sat_exec, sat_get, sat_set, sat_subscribe,
      sat_disposer, sat_getter.
    apply sat_bind; [sat_auto|intros; apply sat_call_closure].
  - destruct c; auto using sat_runner, sat_recompute.
Qed.

Lemma sat_apply f args : okf f → sat (wfunc wc f) (apply code callf fuel f args).
Proof.
  intros Hok. unfold apply.
  apply (sat_bind_w 0); [apply noexn_modify| |intros; by apply sat_dispatch].
  destruct f as [f|c]; [sat_auto|]. eapply sat_modify_c; eauto with sat.
Qed.
End WithCallf.

Theorem sat_call n f args : okf f → sat (wfunc wc f) (call code n f args).
Proof.
  revert f args. induction n as [|n IH]; intros f args Hok; simpl.
  - by intros ????.
  - apply sat_apply; auto.
Qed.

Theorem sat_run n p : sat 0 (run code n p).
Proof. apply sat_exec. intros. by apply sat_call. Qed.

(** The same for the parts of a call. *)
Lemma sat_dispatch_call n f args :
  okf f → sat (wfunc wc f) (dispatch code (call code n) n f args).
Proof. apply sat_dispatch. intros. by apply sat_call. Qed.

Lemma sat_runner_cycle_call n e :
  okc (Runner e) → sat (wc (Runner e)) (runner_cycle (call code n) e).
Proof. apply sat_runner_cycle. intros. by apply sat_call. Qed.

Lemma sat_recompute_cycle_call n c :
  okc (Recompute c) → sat (wc (Recompute c)) (recompute_cycle (call code n) c).
Proof. apply sat_recompute_cycle. intros. by apply sat_call. Qed.

Lemma sat_notify_call n arr :
  (∀ f, f ∈ arr → okf f) → sat (wsum wc arr) (notify (call code n) arr).
Proof. apply sat_notify. intros. by apply sat_call. Qed.

Lemma sat_notifyGlobal_call n m t i args :
  sat 0 (notifyGlobal_from (call code n) m t i args).
Proof. apply sat_notifyGlobal_from. intros. by apply sat_call. Qed.

Lemma sat_run_cleanup_call n cl report :
  (∀ err st, prim st (report err st)) → sat 0 (run_cleanup (call code n) cl report).
Proof. apply sat_run_cleanup. intros. by apply sat_call. Qed.
End Generic.

(** The ungraded case: a relation [R] that every primitive update keeps. *)
Section Plain.
Variable code : nat → list value → prog.
Variable I : store → Prop.
Variable R : store → store → Prop.
Variable okc : comp → Prop.

Hypothesis R_refl : ∀ st, R st st.
Hypothesis R_trans : ∀ a b c, R a b → R b c → R a c.
Hypothesis H_prim : ∀ st st', prim st st' → I st → I st' ∧ R st st'.
Hypothesis H_cprim : ∀ c st st', okc c → cprim c st st' → I st → I st' ∧ R st st'.
Hypothesis H_log : ∀ e st,
  match e with
  | EvNotify _ _ => True
  | EvBody c | EvDirect c => okc c
  | _ => False
  end → I st → I (log e st) ∧ R st (log e st).
Hypothesis H_new_effect : ∀ st, I st → okc (Runner (length (effects st))).
Hypothesis H_new_computed : ∀ st, I st → okc (Recompute (length (computeds st))).
Hypothesis H_getter : ∀ st c, I st → c < length (computeds st) → okc (Recompute c).
Hypothesis H_notify : ∀ st k c, I st → Comp c ∈ key_subs k st → okc c.

Definition holds {A} (m : M A) : Prop :=
  ∀ st r st', I st → m st = Some (r, st') → I st' ∧ R st st'.

Lemma plain_direct c st1 st2 :
  okc c → prim st1 st2 → I st1 →
  okc c ∧ I (log (EvDirect c) st2) ∧ R st1 (log (EvDirect c) st2).
Proof.
  intros Hok Hp HI. destruct (H_prim _ _ Hp HI) as [HI2 HR2].
  destruct (H_log (EvDirect c) st2 Hok HI2). eauto.
Qed.

Local Ltac plain_side :=
  first
    [ eassumption
    | intros; by apply (H_log (EvNotify _ _))
    | intros; by apply (H_log (EvBody _))
    | intros; apply plain_direct; [eauto|constructor|done]
    | intros ? ? HI ?; (split; [by eapply H_getter|]); apply (H_log (EvDirect _)); eauto
    | intros; by right
    | eauto ].
Local Ltac plain lem :=
  intros; eapply (lem code I (λ _, R) okc (λ _, 0%Z)); plain_side.

Theorem holds_call n f args : okf okc f → holds (call code n f args).
Proof. intros Hok st r st' HI Hc. revert Hok st r st' HI Hc. plain sat_call. Qed.

Theorem holds_run n p : holds (run code n p).
Proof. intros st r st' HI Hc. revert st r st' HI Hc. plain sat_run. Qed.

Theorem holds_dispatch n f args :
  okf okc f → holds (dispatch code (call code n) n f args).
Proof. intros Hok st r st' HI Hc. revert Hok st r st' HI Hc. plain sat_dispatch_call. Qed.

Theorem holds_runner_cycle n e : okc (Runner e) → holds (runner_cycle (call code n) e).
Proof. intros Hok st r st' HI Hc. revert Hok st r st' HI Hc. plain sat_runner_cycle_call. Qed.

Theorem holds_recompute_cycle n c :
  okc (Recompute c) → holds (recompute_cycle (call code n) c).
Proof.
  intros Hok st r st' HI Hc. revert Hok st r st' HI Hc. plain sat_recompute_cycle_call.
Qed.

Theorem holds_notify n arr :
  (∀ f, f ∈ arr → okf okc f) → holds (notify (call code n) arr).
Proof. intros Hok st r st' HI Hc. revert Hok st r st' HI Hc. plain sat_notify_call. Qed.

Theorem holds_notifyGlobal n m t i args :
  holds (notifyGlobal_from (call code n) m t i args).
Proof. intros st r st' HI Hc. revert st r st' HI Hc. plain sat_notifyGlobal_call. Qed.

Theorem holds_run_cleanup n cl report :
  (∀ err st, prim st (report err st)) → holds (run_cleanup (call code n) cl report).
Proof. intros Hok st r st' HI Hc. revert Hok st r st' HI Hc. plain sat_run_cleanup_call. Qed.
End Plain.


(** * Facts about the registry primitives *)

Lemma elem_of_set_add {A} `{EqDecision A} (x y : A) l :
  y ∈ set_add x l ↔ y = x ∨ y ∈ l.
Proof.
  unfold set_add. case_decide.
  - split; [auto|]. intros [->|]; auto.
  - rewrite elem_of_app, list_elem_of_singleton. tauto.
Qed.

Lemma elem_of_set_delete {A} `{EqDecision A} (x y : A) l :
  y ∈ set_delete x l ↔ y ≠ x ∧ y ∈ l.
Proof. unfold set_delete. by rewrite list_elem_of_filter. Qed.

Lemma NoDup_set_add {A} `{EqDecision A} (x : A) l : NoDup l → NoDup (set_add x l).
Proof.
  unfold set_add. case_decide; [done|]. intros Hl.
  apply NoDup_app. split_and!; [done| |apply NoDup_singleton].
  intros y Hy ->%list_elem_of_singleton. done.
Qed.

Lemma NoDup_set_delete {A} `{EqDecision A} (x : A) l : NoDup l → NoDup (set_delete x l).
Proof. apply NoDup_filter. Qed.

Lemma key_subs_upd_subs k k' f st :
  key_subs k (upd_subs k' f st) =
  if decide (k = k') then
    match keys st !! k with Some _ => f (key_subs k st) | None => [] end
  else key_subs k st.
Proof.
  unfold key_subs, upd_subs. simpl. case_decide as E.
  - subst k'. rewrite list_lookup_alter_eq. by destruct (keys st !! k).
  - by rewrite list_lookup_alter_ne.
Qed.

Lemma key_subs_set_value k s v st : key_subs k (set_value s v st) = key_subs k st.
Proof.
  unfold key_subs, set_value. simpl. destruct (decide (k = s)) as [->|].
  - rewrite list_lookup_alter_eq. by destruct (keys st !! s).
  - by rewrite list_lookup_alter_ne.
Qed.

Lemma key_subs_alloc k x st :
  key_subs k (upd_keys (λ l, l ++ [x]) st) =
  if decide (k = length (keys st)) then k_subs x else key_subs k st.
Proof.
  unfold key_subs. simpl. case_decide as E.
  - subst. by rewrite lookup_app_r, Nat.sub_diag by lia.
  - destruct (decide (k < length (keys st))).
    + by rewrite lookup_app_l.
    + rewrite !lookup_ge_None_2; [done|lia|]. rewrite length_app. simpl. lia.
Qed.

Lemma key_subs_nil k st : length (keys st) ≤ k → key_subs k st = [].
Proof. intros. unfold key_subs. by rewrite lookup_ge_None_2. Qed.

Lemma key_subs_Some k st f : f ∈ key_subs k st → k < length (keys st).
Proof.
  unfold key_subs. destruct (keys st !! k) eqn:E; simpl.
  - intros _. by eapply lookup_lt_Some.
  - by intros ?%elem_of_nil.
Qed.

(** What the loop of [unsubscribe_all] leaves. *)
Definition unsub_loop (r : comp) (l : list nat) (st : store) : store :=
  foldl (λ acc k, upd_subs k (set_delete (Comp r)) acc) st l.

Lemma unsub_loop_keys r l st :
  unsub_loop r l st =
  upd_keys (λ ks, foldl (λ acc k,
     alter (λ x, Key (k_val x) (set_delete (Comp r) (k_subs x))) k acc) ks l) st.
Proof.
  revert st. induction l as [|k l IH]; intros st; [by destruct st|].
  simpl. fold (unsub_loop r l (upd_subs k (set_delete (Comp r)) st)).
  by rewrite IH.
Qed.

Lemma unsub_loop_length r l st :
  length (keys (unsub_loop r l st)) = length (keys st).
Proof.
  revert st. induction l as [|k l IH]; intros st; [done|].
  simpl. fold (unsub_loop r l (upd_subs k (set_delete (Comp r)) st)).
  rewrite IH. simpl. by rewrite length_alter.
Qed.

Lemma key_subs_unsub_loop r l k st :
  key_subs k (unsub_loop r l st) =
  if decide (k ∈ l) then set_delete (Comp r) (key_subs k st) else key_subs k st.
Proof.
  revert st. induction l as [|k' l IH]; intros st.
  - by rewrite decide_False by apply not_elem_of_nil.
  - change (unsub_loop r (k' :: l) st)
      with (unsub_loop r l (upd_subs k' (set_delete (Comp r)) st)).
    rewrite IH, key_subs_upd_subs.
    assert (set_delete (Comp r) (set_delete (Comp r) (key_subs k st))
            = set_delete (Comp r) (key_subs k st)) as Hidem.
    { unfold set_delete. apply list_filter_filter_l. auto. }
    destruct (decide (k = k')) as [->|Hne].
    + rewrite (decide_True (P := k' ∈ k' :: l)) by (by left).
      destruct (keys st !! k') eqn:E.
      * rewrite Hidem. by destruct (decide (k' ∈ l)).
      * unfold key_subs. rewrite E. simpl. by destruct (decide (k' ∈ l)).
    + destruct (decide (k ∈ l)).
      * by rewrite decide_True by (by right).
      * rewrite decide_False; [done|]. by intros [?|?]%elem_of_cons.
Qed.

Lemma key_subs_track k a k' st :
  key_subs k (_trackDependency a k' st) =
  if decide (k = k' ∧ k' < length (keys st)) then set_add (Comp a) (key_subs k st)
  else key_subs k st.
Proof.
  unfold _trackDependency. destruct (decide (k' < length (keys st))) as [Hlt|Hge].
  - change (key_subs k (upd_deps _ ?s)) with (key_subs k s).
    rewrite key_subs_upd_subs. destruct (decide (k = k')) as [->|].
    + rewrite decide_True by done. simpl.
      destruct (lookup_lt_is_Some_2 _ _ Hlt) as [x Hx]. by rewrite Hx.
    + rewrite decide_False; [done|]. by intros [].
  - rewrite decide_False; [done|]. by intros [].
Qed.

Lemma deps_track a k st :
  deps (_trackDependency a k st) =
  if decide (k < length (keys st))
  then <[a := set_add k (default [] (deps st !! a))]> (deps st) else deps st.
Proof. unfold _trackDependency. by case_decide. Qed.

Lemma trace_track a k st :
  trace (_trackDependency a k st) =
  if decide (k < length (keys st)) then EvTrack a k :: trace st else trace st.
Proof. unfold _trackDependency. by case_decide. Qed.

Lemma length_keys_track a k st :
  length (keys (_trackDependency a k st)) = length (keys st).
Proof.
  unfold _trackDependency. case_decide; [|done]. simpl. by rewrite length_alter.
Qed.

Lemma stack_track a k st : stack (_trackDependency a k st) = stack st.
Proof. unfold _trackDependency. by case_decide. Qed.

Lemma effects_track a k st : effects (_trackDependency a k st) = effects st.
Proof. unfold _trackDependency. by case_decide. Qed.

Lemma key_subs_unsubscribe_all k c st :
  key_subs k (unsubscribe_all c st) =
  if decide (k ∈ default [] (deps st !! c))
  then set_delete (Comp c) (key_subs k st) else key_subs k st.
Proof.
  unfold unsubscribe_all. simpl. destruct (deps st !! c) as [l|]; simpl; [|done].
  change (key_subs k (upd_deps _ ?s)) with (key_subs k s).
  fold (unsub_loop c l (log (EvUnsub c) st)). by rewrite key_subs_unsub_loop.
Qed.

Lemma deps_unsubscribe_all c st : deps (unsubscribe_all c st) = delete c (deps st).
Proof.
  unfold unsubscribe_all. simpl. destruct (deps st !! c) as [l|] eqn:E; simpl.
  - fold (unsub_loop c l (log (EvUnsub c) st)). by rewrite unsub_loop_keys.
  - by rewrite delete_id.
Qed.

Lemma trace_unsubscribe_all c st : trace (unsubscribe_all c st) = EvUnsub c :: trace st.
Proof.
  unfold unsubscribe_all. simpl. destruct (deps st !! c) as [l|]; simpl; [|done].
  fold (unsub_loop c l (log (EvUnsub c) st)). by rewrite unsub_loop_keys.
Qed.

Lemma length_keys_unsubscribe_all c st :
  length (keys (unsubscribe_all c st)) = length (keys st).
Proof.
  unfold unsubscribe_all. simpl. destruct (deps st !! c) as [l|]; simpl; [|done].
  fold (unsub_loop c l (log (EvUnsub c) st)). by rewrite unsub_loop_length.
Qed.

Lemma stack_unsubscribe_all c st : stack (unsubscribe_all c st) = stack st.
Proof.
  unfold unsubscribe_all. simpl. destruct (deps st !! c) as [l|]; simpl; [|done].
  fold (unsub_loop c l (log (EvUnsub c) st)). by rewrite unsub_loop_keys.
Qed.

Lemma effects_unsubscribe_all c st : effects (unsubscribe_all c st) = effects st.
Proof.
  unfold unsubscribe_all. simpl. destruct (deps st !! c) as [l|]; simpl; [|done].
  fold (unsub_loop c l (log (EvUnsub c) st)). by rewrite unsub_loop_keys.
Qed.

(** * The registry invariant

    A computation is among the subscribers of a key only if the key is in
    its entry of EFFECT_DEPS, and no subscriber set lists anything twice. *)
Definition sync (st : store) : Prop :=
  ∀ c k, Comp c ∈ key_subs k st → k ∈ default [] (deps st !! c).
Definition nodup_subs (st : store) : Prop := ∀ k, NoDup (key_subs k st).
Definition wf (st : store) : Prop := sync st ∧ nodup_subs st.

Lemma wf_empty : wf empty_store.
Proof.
  split; intros ?; unfold key_subs; simpl.
  - by intros ? ?%elem_of_nil.
  - constructor.
Qed.

Lemma wf_same st st' :
  (∀ k, key_subs k st' = key_subs k st) → deps st' = deps st → wf st → wf st'.
Proof.
  intros Hk Hd [Hs Hn]. split.
  - intros c k. rewrite Hk, Hd. apply Hs.
  - intros k. rewrite Hk. apply Hn.
Qed.

Lemma wf_alloc x st : k_subs x = [] → wf st → wf (upd_keys (λ l, l ++ [x]) st).
Proof.
  intros Hx [Hs Hn]. split.
  - intros c k. rewrite key_subs_alloc. case_decide; [|apply Hs].
    rewrite Hx. by intros ?%elem_of_nil.
  - intros k. rewrite key_subs_alloc. case_decide; [|apply Hn].
    rewrite Hx. constructor.
Qed.

Lemma wf_prim st st' : prim st st' → wf st → wf st'.
Proof.
  destruct 1; try (apply wf_same; [done|done]).
  - (* track *)
    intros [Hs Hn]. split.
    + intros c k'. rewrite key_subs_track, deps_track.
      case_decide as E.
      * destruct E as [-> Hlt]. rewrite decide_True by done.
        rewrite elem_of_set_add. intros [[= ->]|Hin].
        -- rewrite lookup_insert_eq. simpl. apply elem_of_set_add. auto.
        -- destruct (decide (a = c)) as [->|].
           ++ rewrite lookup_insert_eq. simpl. apply elem_of_set_add. auto.
           ++ rewrite lookup_insert_ne by done. auto.
      * intros Hin. case_decide; [|auto].
        destruct (decide (a = c)) as [->|].
        -- rewrite lookup_insert_eq. simpl. apply elem_of_set_add. auto.
        -- rewrite lookup_insert_ne by done. auto.
    + intros k'. rewrite key_subs_track. case_decide; [|apply Hn].
      apply NoDup_set_add, Hn.
  - (* set_value *)
    apply wf_same; [intros; apply key_subs_set_value|done].
  - (* subscribe *)
    intros [Hs Hn]. split.
    + intros c k. rewrite key_subs_upd_subs. case_decide; [|apply Hs].
      destruct (keys st !! k) eqn:E; [|by intros ?%elem_of_nil].
      rewrite elem_of_set_add. intros [[=]|]; auto.
    + intros k. rewrite key_subs_upd_subs. case_decide; [|apply Hn].
      destruct (keys st !! k); [|constructor]. apply NoDup_set_add, Hn.
  - (* unsubscribe *)
    intros [Hs Hn]. split.
    + intros c k. rewrite key_subs_upd_subs. case_decide; [|apply Hs].
      destruct (keys st !! k) eqn:E; [|by intros ?%elem_of_nil].
      rewrite elem_of_set_delete. intros []; auto.
    + intros k. rewrite key_subs_upd_subs. case_decide; [|apply Hn].
      destruct (keys st !! k); [|constructor]. apply NoDup_set_delete, Hn.
  - (* unsubscribe_all *)
    intros [Hs Hn]. split.
    + intros c' k. rewrite key_subs_unsubscribe_all, deps_unsubscribe_all.
      destruct (decide (c' = c)) as [->|Hne].
      * case_decide as E.
        -- rewrite elem_of_set_delete. by intros [].
        -- intros Hin. by apply Hs in Hin.
      * rewrite lookup_delete_ne by done. case_decide; [|apply Hs].
        rewrite elem_of_set_delete. intros []; auto.
    + intros k. rewrite key_subs_unsubscribe_all. case_decide; [|apply Hn].
      apply NoDup_set_delete, Hn.
  - (* alloc signal *) by apply wf_alloc.
  - (* alloc prop *)
    intros Hwf. eapply wf_same; [| |apply (wf_alloc (Key None [])); [done|exact Hwf]]; done.
Qed.

Lemma wf_cprim c st st' : cprim c st st' → wf st → wf st'.
Proof. destruct 1; by apply wf_same. Qed.

Lemma wf_log e st : wf st → wf (log e st).
Proof. by apply wf_same. Qed.

(** Every call keeps the registry invariant. *)
Theorem wf_call code n f args st r st' :
  wf st → call code n f args st = Some (r, st') → wf st'.
Proof.
  intros Hwf Hc.
  eapply (holds_call code wf (λ _ _, True) (λ _, True)); eauto;
    try (by destruct f);
    intros; (split; [|done]); eauto using wf_prim, wf_cprim, wf_log.
Qed.

Theorem wf_run code n p st r st' :
  wf st → run code n p st = Some (r, st') → wf st'.
Proof.
  intros Hwf Hc.
  eapply (holds_run code wf (λ _ _, True) (λ _, True)); eauto;
    intros; (split; [|done]); eauto using wf_prim, wf_cprim, wf_log.
Qed.

(** * How subscriptions change over a run

    Between two stores of a run, with [evs] the events recorded in between:
    as long as [c] did not drop its subscriptions ([EvUnsub c]), [c] is a
    subscriber of a key exactly if it was one before or tracked the key in
    between. *)
Definition frame (st st' : store) : Prop :=
  ∃ evs, trace st' = evs ++ trace st ∧
    length (keys st) ≤ length (keys st') ∧
    (∀ c k, EvTrack c k ∈ evs → k < length (keys st')) ∧
    ∀ c, EvUnsub c ∉ evs →
      ∀ k, Comp c ∈ key_subs k st' ↔ Comp c ∈ key_subs k st ∨ EvTrack c k ∈ evs.

Lemma frame_refl st : frame st st.
Proof.
  exists []. split_and!; [done|done| |].
  - by intros ?? ?%elem_of_nil.
  - intros c _ k. split; [auto|]. by intros [?|?%elem_of_nil].
Qed.

Lemma frame_trans a b c : frame a b → frame b c → frame a c.
Proof.
  intros (e1 & Ht1 & Hl1 & Hk1 & H1) (e2 & Ht2 & Hl2 & Hk2 & H2).
  exists (e2 ++ e1). split_and!.
  - by rewrite Ht2, Ht1, (assoc_L (++)).
  - lia.
  - intros x k [Hin|Hin]%elem_of_app; [eauto|]. apply Hk1 in Hin. lia.
  - intros x Hx k. rewrite elem_of_app in Hx.
    rewrite H2, H1, elem_of_app by tauto. tauto.
Qed.

(** A step that leaves every subscriber set as it is and records no
    tracking and no unsubscription. *)
Lemma frame_same st st' evs :
  trace st' = evs ++ trace st →
  (∀ e, e ∈ evs → match e with EvTrack _ _ | EvUnsub _ => False | _ => True end) →
  length (keys st) ≤ length (keys st') →
  (∀ k, key_subs k st' = key_subs k st) →
  frame st st'.
Proof.
  intros Ht He Hl Hk. exists evs. split_and!; [done|done| |].
  - intros c k Hin. by apply He in Hin.
  - intros c _ k. rewrite Hk. split; [auto|]. intros [?|Hin]; [done|].
    by apply He in Hin.
Qed.

Lemma frame_pub st st' :
  trace st' = trace st →
  length (keys st) ≤ length (keys st') →
  (∀ k c, Comp c ∈ key_subs k st' ↔ Comp c ∈ key_subs k st) →
  frame st st'.
Proof.
  intros Ht Hl Hk. exists []. split_and!; [done|done| |].
  - by intros ?? ?%elem_of_nil.
  - intros c _ k. rewrite Hk. split; [auto|]. by intros [?|?%elem_of_nil].
Qed.

Lemma frame_prim st st' : prim st st' → frame st st'.
Proof.
  destruct 1;
    try (apply (frame_same _ _ []); [done|by intros ? ?%elem_of_nil|done|done]);
    try (eapply (frame_same _ _ [_]); [done| |done|done];
         by intros ? ->%list_elem_of_singleton).
  - (* track *)
    destruct (decide (k < length (keys st))) as [Hlt|Hge].
    + exists [EvTrack a k]. split_and!.
      * by rewrite trace_track, decide_True.
      * by rewrite length_keys_track.
      * intros c k' Hx%list_elem_of_singleton. simplify_eq. by rewrite length_keys_track.
      * intros c _ k'. rewrite key_subs_track, list_elem_of_singleton.
        case_decide as E.
        -- destruct E as [-> _]. rewrite elem_of_set_add.
           split; [intros [?|?]; simplify_eq; auto|]. intros [?|?]; simplify_eq; auto.
        -- split; [auto|]. intros [?|?]; [done|]. simplify_eq. by destruct E.
    + unfold _trackDependency. rewrite decide_False by done. apply frame_refl.
  - (* set_value *)
    apply (frame_same _ _ []); [done|by intros ? ?%elem_of_nil| |].
    + unfold set_value. simpl. by rewrite length_alter.
    + intros. apply key_subs_set_value.
  - (* subscribe *)
    apply frame_pub; [done| |].
    + unfold upd_subs. simpl. by rewrite length_alter.
    + intros k c. rewrite key_subs_upd_subs. case_decide; [|done].
      destruct (keys st !! k) eqn:E.
      * rewrite elem_of_set_add. split; [intros [[=]|]; auto|auto].
      * unfold key_subs. by rewrite E.
  - (* unsubscribe *)
    apply frame_pub; [done| |].
    + unfold upd_subs. simpl. by rewrite length_alter.
    + intros k c. rewrite key_subs_upd_subs. case_decide; [|done].
      destruct (keys st !! k) eqn:E.
      * rewrite elem_of_set_delete. split; [by intros []|auto].
      * unfold key_subs. by rewrite E.
  - (* unsubscribe_all *)
    exists [EvUnsub c]. split_and!.
    + by rewrite trace_unsubscribe_all.
    + by rewrite length_keys_unsubscribe_all.
    + intros ?? Hx%list_elem_of_singleton. simplify_eq.
    + intros c' Hc' k. rewrite list_elem_of_singleton in Hc'.
      rewrite key_subs_unsubscribe_all, list_elem_of_singleton.
      assert (c' ≠ c) by congruence.
      case_decide.
      * rewrite elem_of_set_delete. split; [intros []; auto|].
        intros [?|?]; [|simplify_eq]. split; [congruence|done].
      * split; [auto|]. intros [?|?]; [done|simplify_eq].
  - (* alloc signal *)
    apply frame_pub; [done| |].
    + simpl. rewrite length_app. lia.
    + intros k c. rewrite key_subs_alloc. case_decide; [|done].
      rewrite key_subs_nil by lia. done.
  - (* alloc prop *)
    apply frame_pub; [done| |].
    + simpl. rewrite length_app. lia.
    + intros k c.
      change (key_subs k (upd_props _ _ ?s)) with (key_subs k s).
      rewrite key_subs_alloc. case_decide; [|done].
      rewrite key_subs_nil by lia. done.
Qed.

Lemma frame_cprim c st st' : cprim c st st' → frame st st'.
Proof.
  destruct 1.
  - eapply (frame_same _ _ [_]); [done| |done|done].
    by intros ? ->%list_elem_of_singleton.
  - apply (frame_same _ _ []); [done|by intros ? ?%elem_of_nil|done|done].
Qed.

Lemma frame_log e st :
  match e with EvNotify _ _ | EvBody _ | EvDirect _ => True | _ => False end →
  frame st (log e st).
Proof.
  intros He. eapply (frame_same _ _ [_]); [done| |done|done].
  intros ? ->%list_elem_of_singleton. by destruct e.
Qed.

(** The side conditions of [Plain] for [frame]. *)
Ltac frame_side :=
  first
    [ intros ev ? ? _; split; [done|]; apply frame_log; by destruct ev
    | intros; split; [done|]; eauto using frame_prim, frame_cprim ].

Theorem frame_call code n f args st r st' :
  call code n f args st = Some (r, st') → frame st st'.
Proof.
  intros Hc.
  eapply (holds_call code (λ _, True) frame (λ _, True));
    eauto using frame_refl, frame_trans; try solve [frame_side].
  by destruct f.
Qed.

Theorem frame_run code n p st r st' :
  run code n p st = Some (r, st') → frame st st'.
Proof.
  intros Hc.
  eapply (holds_run code (λ _, True) frame (λ _, True));
    eauto using frame_refl, frame_trans; try solve [frame_side].
Qed.

(** * Calls, unfolded one step *)

Lemma call_S code n f args st :
  call code (S n) f args st
  = dispatch code (call code n) n f args (log (EvEnter f args) st).
Proof. reflexivity. Qed.

Lemma call_Some code n f args st r st' :
  call code n f args st = Some (r, st') →
  ∃ m, n = S m ∧
    dispatch code (call code m) m f args (log (EvEnter f args) st) = Some (r, st').
Proof. destruct n as [|m]; [done|]. rewrite call_S. eauto. Qed.

(** The run cycle of a computation, after the prevDeps block. *)
Definition cycle (code : nat → list value → prog) (n : nat) (c : comp) : M value :=
  match c with
  | Runner e => runner_cycle (call code n) e
  | Recompute m => recompute_cycle (call code n) m
  end.

Lemma call_comp code n c args st r st' :
  comp_exists c st →
  call code n (Comp c) args st = Some (r, st') →
  ∃ m, n = S m ∧
    cycle code m c (unsubscribe_all c (log (EvEnter (Comp c) args) st)) = Some (r, st').
Proof.
  intros Hex (m & -> & Hd)%call_Some. exists m. split; [done|].
  destruct c as [e|c]; simpl in *.
  - unfold runner, bind, gets in Hd. simpl in Hd.
    destruct (lookup_lt_is_Some_2 _ _ Hex) as [x Hx]. by rewrite Hx in Hd.
  - unfold recompute, bind, gets in Hd. simpl in Hd.
    destruct (lookup_lt_is_Some_2 _ _ Hex) as [x Hx]. by rewrite Hx in Hd.
Qed.

Lemma frame_cycle code n c st r st' :
  cycle code n c st = Some (r, st') → frame st st'.
Proof.
  intros Hc. destruct c as [e|c]; simpl in Hc.
  - eapply (holds_runner_cycle code (λ _, True) frame (λ _, True));
      eauto using frame_refl, frame_trans; try solve [frame_side].
  - eapply (holds_recompute_cycle code (λ _, True) frame (λ _, True));
      eauto using frame_refl, frame_trans; try solve [frame_side].
Qed.

(** [c] is among the subscribers of key [k]. *)
Definition subscribed (c : comp) (k : nat) (st : store) : Prop :=
  Comp c ∈ key_subs k st.

Lemma unsubscribe_all_clears c st :
  wf st → ∀ k, ¬ subscribed c k (unsubscribe_all c st).
Proof.
  intros [Hs _] k. unfold subscribed. rewrite key_subs_unsubscribe_all.
  case_decide as E.
  - rewrite elem_of_set_delete. by intros [].
  - intros Hin. by apply Hs in Hin.
Qed.

(** typeof v === "function" *)
Definition is_function (v : value) : bool :=
  match v with VFun _ => true | _ => false end.

Lemma frame_trace st st' : frame st st' → ∃ evs, trace st' = evs ++ trace st.
Proof. intros (evs & ? & _). eauto. Qed.

Lemma frame_dispatch code n f args st r st' :
  dispatch code (call code n) n f args st = Some (r, st') → frame st st'.
Proof.
  intros Hc.
  eapply (holds_dispatch code (λ _, True) frame (λ _, True));
    eauto using frame_refl, frame_trans; try solve [frame_side].
  by destruct f.
Qed.

Lemma frame_notify code n arr st r st' :
  notify (call code n) arr st = Some (r, st') → frame st st'.
Proof.
  intros Hc.
  eapply (holds_notify code (λ _, True) frame (λ _, True));
    eauto using frame_refl, frame_trans; try solve [frame_side].
  intros f _. by destruct f.
Qed.

(** A call that returns has recorded its entry first. *)
Lemma trace_call code n f args st r st' :
  call code n f args st = Some (r, st') →
  ∃ evs, trace st' = evs ++ EvEnter f args :: trace st.
Proof.
  intros (m & -> & Hd)%call_Some.
  by apply frame_dispatch, frame_trace in Hd.
Qed.

(** The delivery loop never throws, and every function of the list has
    been entered when it returns. *)
Lemma notify_enters code n arr st r st' :
  notify (call code n) arr st = Some (r, st') →
  r = Ok tt ∧ ∃ evs, trace st' = evs ++ trace st ∧ ∀ f, f ∈ arr → EvEnter f [] ∈ evs.
Proof.
  revert st. induction arr as [|fn rest IH]; intros st; simpl.
  - intros [= <- <-]. split; [done|]. exists []. split; [done|].
    by intros ? ?%elem_of_nil.
  - unfold bind at 1, try_catch, bind at 1.
    destruct (call code n fn [] st) as [[r1 st1]|] eqn:E1; [|done].
    apply trace_call in E1 as [e1 He1].
    assert (∀ st2, trace st2 = trace st1 →
              notify (call code n) rest st2 = Some (r, st') →
              r = Ok tt ∧ ∃ evs, trace st' = evs ++ trace st ∧
                ∀ f, f ∈ fn :: rest → EvEnter f [] ∈ evs) as Hrest.
    { intros st2 Ht2 Hn. destruct (IH _ Hn) as (-> & e2 & He2 & Hin).
      split; [done|]. exists (e2 ++ e1 ++ [EvEnter fn []]). split.
      - rewrite He2, Ht2, He1. by rewrite <-!(assoc_L (++)).
      - intros f [->|Hf]%elem_of_cons.
        + rewrite !elem_of_app, list_elem_of_singleton. auto.
        + rewrite elem_of_app. auto. }
    destruct r1 as [v|err]; simpl.
    + by apply Hrest.
    + by apply Hrest.
Qed.

Lemma strict_eq_true a b : strict_eq a b = true ↔ a = b ∧ a ≠ VNaN.
Proof.
  destruct a; simpl; rewrite ?bool_decide_eq_true; split;
    try (by intros [? ?]); try (by intros ->); done.
Qed.

Lemma strict_eq_false a b : strict_eq a b = false ↔ a ≠ b ∨ a = VNaN.
Proof.
  destruct (strict_eq a b) eqn:E.
  - apply strict_eq_true in E as [-> Hn]. split; [done|]. by intros [?|?].
  - split; [|done]. intros _. destruct (decide (a = VNaN)); [by right|left].
    intros ->. assert (strict_eq b b = true) as Ht by (by apply strict_eq_true).
    congruence.
Qed.

Lemma strict_eq_ne a b : a ≠ b → strict_eq a b = false.
Proof. intros Hne. apply strict_eq_false. by left. Qed.

Lemma strict_eq_refl a : a ≠ VNaN → strict_eq a a = true.
Proof. intros Hn. by apply strict_eq_true. Qed.

Lemma key_value_set_value s v st :
  s < length (keys st) → key_value s (set_value s v st) = v.
Proof.
  intros Hlt. unfold key_value, set_value. simpl. rewrite list_lookup_alter_eq.
  destruct (lookup_lt_is_Some_2 _ _ Hlt) as [x Hx]. by rewrite Hx.
Qed.

Lemma set_value_same s st :
  s < length (keys st) → is_Some (keys st !! s ≫= k_val) →
  set_value s (key_value s st) st = st.
Proof.
  intros Hlt [v Hv]. unfold set_value, key_value. destruct st as [ks ? ? ? ? ? ? ? ? ? ? ?].
  simpl in *. unfold upd_keys. simpl. f_equal.
  apply list_eq. intros i. destruct (decide (i = s)) as [->|].
  - rewrite list_lookup_alter_eq. destruct (ks !! s) as [[kv ksub]|] eqn:E; [|done].
    simpl in *. by subst.
  - by rewrite list_lookup_alter_ne.
Qed.

(** set(v) for a v that is not a function. *)
Lemma set_literal callf s v st :
  is_function v = false →
  set callf s v st =
  let st1 := set_value s v st in
  if strict_eq (key_value s st) (key_value s st1) then Some (Ok (key_value s st1), st1)
  else (notify callf (key_subs s st) ;;; gets (key_value s))
         (log (EvNotify s (key_subs s st)) st1).
Proof.
  intros Hv. unfold set. unfold bind at 1, gets at 1.
  assert ((match v with
           | VFun f => let! v0 := callf (Pub f) [key_value s st] in modify (set_value s v0)
           | _ => modify (set_value s v)
           end) = modify (set_value s v)) as -> by (by destruct v).
  unfold bind at 1, modify at 1. unfold bind at 1, gets at 1.
  simpl. destruct (strict_eq _ _); [done|].
  unfold bind at 1, gets at 1. unfold bind at 1, modify at 1.
  by rewrite key_subs_set_value.
Qed.

(** A write set(v) of a literal v that changes the value of signal [s]:
    the delivery list is the subscriber set at the time of the write, and
    every function of it has been entered when the write returns. *)
Lemma set_delivers code n s v st r st' :
  s < length (keys st) → is_function v = false → v ≠ key_value s st →
  call code n (Pub (FSet s)) [v] st = Some (r, st') →
  ∃ evs, trace st' = evs ++ EvNotify s (key_subs s st) :: EvEnter (Pub (FSet s)) [v] :: trace st ∧
    r = Ok (key_value s st') ∧
    ∀ f, f ∈ key_subs s st → EvEnter f [] ∈ evs.
Proof.
  intros Hs Hv Hne (m & -> & Hd)%call_Some. simpl in Hd.
  change (arg 0 [v]) with v in Hd. rewrite set_literal in Hd by done.
  cbv zeta in Hd. rewrite key_value_set_value in Hd by done.
  change (key_value s (log ?e st)) with (key_value s st) in Hd.
  rewrite strict_eq_ne in Hd by done.
  unfold bind at 1 in Hd.
  destruct (notify _ _ _) as [[r1 st1]|] eqn:E; [|done].
  apply notify_enters in E as (-> & evs & Ht & Hin).
  unfold gets in Hd. injection Hd as <- <-.
  exists evs. split_and!; [|done|].
  - rewrite Ht. done.
  - intros f Hf. apply Hin. exact Hf.
Qed.

(** What C1 says of a run of [c] from [st] to [st'], as amended: the run
    starts from [st0], where [c] is in no subscriber set; if [c] was not
    re-run or disposed of in the middle of the run (no further [EvUnsub c]),
    then at the end [c] is subscribed to exactly the keys it tracked in the
    run, a write that changes a signal delivers to [c] exactly if [c]
    tracked it, and a delivered [c] is called before that write returns. *)
Definition resubscribed (code : nat → list value → prog) (c : comp) (st st' : store) : Prop :=
  let st0 := unsubscribe_all c (log (EvEnter (Comp c) []) st) in
  (∀ k, ¬ subscribed c k st0) ∧
  ∃ evs, trace st' = evs ++ trace st0 ∧
    (EvUnsub c ∉ evs →
       (∀ k, subscribed c k st' ↔ EvTrack c k ∈ evs) ∧
       ∀ s v m r2 st2,
         s < length (keys st') → is_function v = false → v ≠ key_value s st' →
         call code m (Pub (FSet s)) [v] st' = Some (r2, st2) →
         ∃ evs2,
           trace st2 = evs2 ++ EvNotify s (key_subs s st')
                               :: EvEnter (Pub (FSet s)) [v] :: trace st' ∧
           (Comp c ∈ key_subs s st' ↔ EvTrack c s ∈ evs) ∧
           (EvTrack c s ∈ evs → EvEnter (Comp c) [] ∈ evs2)).

(** C1 (as amended): a call of the runner of an existing computation [c]
    first removes [c] from every subscriber set. When the call returns,
    and [c] was not re-run or disposed of in the middle of this run, [c] is
    subscribed to exactly the keys it tracked during the run; a write that
    changes a signal then delivers to [c] exactly if [c] tracked the signal
    in that run, and a delivered [c] is called before the write returns. *)
Theorem rerun_resubscribes code n c st r st' :
  wf st → comp_exists c st →
  call code n (Comp c) [] st = Some (r, st') →
  resubscribed code c st st'.
Proof.
  intros Hwf Hex Hcall. unfold resubscribed.
  set (st0 := unsubscribe_all c (log (EvEnter (Comp c) []) st)).
  apply call_comp in Hcall as (m & -> & Hcyc); [|done].
  assert (∀ k, ¬ subscribed c k st0) as Hclear.
  { apply unsubscribe_all_clears. revert Hwf. by apply wf_same. }
  split; [done|].
  apply frame_cycle in Hcyc as (evs & Ht & _ & _ & H).
  exists evs. split; [done|]. intros Hno.
  assert (∀ k, subscribed c k st' ↔ EvTrack c k ∈ evs) as Hsub.
  { intros k. unfold subscribed. rewrite (H c Hno k). split; [|auto].
    intros [Hin|]; [|done]. by apply Hclear in Hin. }
  split; [done|]. intros s v m2 r2 st2 Hs Hv Hne Hw.
  destruct (set_delivers _ _ _ _ _ _ _ Hs Hv Hne Hw) as (evs2 & Ht2 & _ & Hin).
  exists evs2. split_and!; [done|apply Hsub|].
  intros Htr. apply Hin, Hsub, Htr.
Qed.

(** * Scenarios *)

(** The store a script leaves when run from the empty store. *)
Definition after (code : nat → list value → prog) (n : nat) (p : prog) : store :=
  match run code n p empty_store with
  | Some (_, st) => st
  | None => empty_store
  end.

Lemma wf_after code n p : wf (after code n p).
Proof.
  unfold after. destruct (run code n p empty_store) as [[r st]|] eqn:E.
  - eapply wf_run; [apply wf_empty|exact E].
  - apply wf_empty.
Qed.

(** The store in the middle of the write set(v) to signal [s], when the
    delivery starts. *)
Definition delivering (s : nat) (v : value) (st : store) : store :=
  let st1 := set_value s v (log (EvEnter (Pub (FSet s)) [v]) st) in
  log (EvNotify s (key_subs s st1)) st1.

Lemma wf_delivering s v st : wf st → wf (delivering s v st).
Proof.
  intros Hwf. unfold delivering.
  apply wf_log.
  eapply wf_prim; [apply prim_set_value|].
  eapply wf_prim; [apply prim_enter|done].
Qed.

Definition js_get (s : nat) (k : value → prog) : prog := Call (VFun (FGet s)) [] k.
Definition js_set (s : nat) (v : value) (k : prog) : prog :=
  Call (VFun (FSet s)) [v] (λ _, k).

(** const [get, set] = createSignal(0); let seen = [];
    createEffect(() => seen.push(get())) *)
Definition seen_code (n : nat) (args : list value) : prog :=
  match n with
  | 0 => js_get 0 (λ v, Emit v (Ret VUndef))
  | _ => Ret VUndef
  end.
Definition seen_setup : prog :=
  CreateSignal (VNum 0) (λ _, CreateEffect (VFun (FUser 0)) (λ _, Ret VUndef)).

(** An effect that writes to a signal it has read:
    const [mode, setMode] = createSignal(2), s1, s3, s4 three more signals;
    createEffect(() => {
      const m = mode();
      if (m === 0) { s1(); setMode(1); s4(); } else if (m === 1) { s3(); }
    }) *)
Definition reentrant_code (n : nat) (args : list value) : prog :=
  match n with
  | 0 => js_get 0 (λ m,
           if decide (m = VNum 0) then
             js_get 1 (λ _, js_set 0 (VNum 1) (js_get 3 (λ _, Ret VUndef)))
           else if decide (m = VNum 1) then js_get 2 (λ _, Ret VUndef)
           else Ret VUndef)
  | _ => Ret VUndef
  end.
Definition reentrant_setup : prog :=
  CreateSignal (VNum 2) (λ _, CreateSignal (VStr "a") (λ _,
  CreateSignal (VStr "b") (λ _, CreateSignal (VStr "c") (λ _,
  CreateEffect (VFun (FUser 0)) (λ _, Ret VUndef))))).

(** The events recorded between [st] and a later [st']. *)
Definition new_events (st st' : store) : list event :=
  take (length (trace st') - length (trace st)) (trace st').

(** The store [st] of a call [call code n f args st] that returns. *)
Definition result_store (o : option (res value * store)) : store :=
  match o with Some (_, st) => st | None => empty_store end.

Lemma rerun_resubscribes_witness :
  let st := delivering 0 (VNum 1) (after seen_code 5 seen_setup) in
  resubscribed seen_code (Runner 0) st
    (result_store (call seen_code 5 (Comp (Runner 0)) [] st)).
Proof.
  intros st.
  apply (rerun_resubscribes seen_code 5 (Runner 0) st (Ok VUndef)).
  - apply wf_delivering, wf_after.
  - vm_compute. lia.
  - vm_compute. reflexivity.
Defined.

(** C1, as stated, fails for an effect that is re-run in the middle of its
    own run: the run of the effect delivered by setMode(0) tracks s1 (key 1),
    writes mode, is re-run by that write, and returns subscribed to mode,
    s3 and s4 (keys 0, 2, 3) but not to s1. *)
Lemma rerun_reentrant_counterexample :
  let c := Runner 0 in
  let st := delivering 0 (VNum 0) (after reentrant_code 5 reentrant_setup) in
  let st' := result_store (call reentrant_code 9 (Comp c) [] st) in
  wf st ∧ comp_exists c st ∧
  call reentrant_code 9 (Comp c) [] st = Some (Ok VUndef, st') ∧
  ∃ evs, trace st' = evs ++ trace (unsubscribe_all c (log (EvEnter (Comp c) []) st)) ∧
    EvTrack c 1 ∈ evs ∧ ¬ subscribed c 1 st' ∧
    key_subs 1 st' = [] ∧ subscribed c 3 st'.
Proof.
  intros c st st'. split_and!.
  - apply wf_delivering, wf_after.
  - vm_compute. lia.
  - vm_compute. reflexivity.
  - exists (new_events (unsubscribe_all c (log (EvEnter (Comp c) []) st)) st').
    split; [vm_compute; reflexivity|]. split_and!.
    + apply list_elem_of_In. vm_compute. tauto.
    + unfold subscribed. intros Hin%list_elem_of_In. vm_compute in Hin. tauto.
    + vm_compute. reflexivity.
    + apply list_elem_of_In. vm_compute. tauto.
Qed.

(** C8: createEffect and createComputed throw at once when given a value
    that is not a function: the call returns the exception in an unchanged
    store, so that no run cycle has started, no registry has changed and
    nothing was deferred. The same holds when a user program makes the
    call. *)
Theorem create_rejects_non_function code n v k st :
  is_function v = false →
  createEffect (call code n) v st
    = Some (Exn (VStr "createEffect: fn must be a function"), st) ∧
  createComputed (call code n) v st
    = Some (Exn (VStr "createComputed: fn must be a function"), st) ∧
  run code n (CreateEffect v k) st
    = Some (Exn (VStr "createEffect: fn must be a function"), st) ∧
  run code n (CreateComputed v k) st
    = Some (Exn (VStr "createComputed: fn must be a function"), st).
Proof. intros Hv. by destruct v. Qed.

Lemma create_rejects_non_function_witness :
  is_function (VNum 5) = false ∧
  createEffect (call seen_code 3) (VNum 5) (after seen_code 5 seen_setup)
    = Some (Exn (VStr "createEffect: fn must be a function"),
            after seen_code 5 seen_setup).
Proof.
  split; [reflexivity|].
  apply (create_rejects_non_function seen_code 3 (VNum 5) (λ _, Ret VUndef)).
  reflexivity.
Defined.


(** * What a run never undoes

    Nothing is deallocated; the function of an effect or computed never
    changes; a computed that is clean stays clean; the deferred throws and
    the output only grow; a signal stays a signal. *)
Record grows (st st' : store) : Prop := Grows {
  grows_keys : ∀ k x, keys st !! k = Some x →
    ∃ x', keys st' !! k = Some x' ∧ (is_Some (k_val x) → is_Some (k_val x'));
  grows_effects : ∀ e x, effects st !! e = Some x →
    ∃ x', effects st' !! e = Some x' ∧ e_fn x' = e_fn x;
  grows_computeds : ∀ c x, computeds st !! c = Some x →
    ∃ x', computeds st' !! c = Some x' ∧ m_fn x' = m_fn x ∧
          (m_dirty x = false → m_dirty x' = false);
  grows_states : ∀ t x, states st !! t = Some x → is_Some (states st' !! t);
  grows_timers : ∃ l, timers st' = l ++ timers st;
  grows_out : ∃ l, out st' = l ++ out st }.

Lemma grows_refl st : grows st st.
Proof. split; eauto; by exists []. Qed.

Lemma grows_trans a b c : grows a b → grows b c → grows a c.
Proof.
  intros [K1 E1 C1 S1 [t1 T1] [o1 O1]] [K2 E2 C2 S2 [t2 T2] [o2 O2]]. split.
  - intros k x Hx. destruct (K1 _ _ Hx) as (x1 & Hx1 & H1).
    destruct (K2 _ _ Hx1) as (x2 & Hx2 & H2). eauto.
  - intros e x Hx. destruct (E1 _ _ Hx) as (x1 & Hx1 & H1).
    destruct (E2 _ _ Hx1) as (x2 & Hx2 & H2). exists x2. split; [done|congruence].
  - intros k x Hx. destruct (C1 _ _ Hx) as (x1 & Hx1 & H1 & D1).
    destruct (C2 _ _ Hx1) as (x2 & Hx2 & H2 & D2). exists x2.
    split_and!; [done|congruence|auto].
  - intros t x Hx. destruct (S1 _ _ Hx) as [x1 Hx1]. eauto.
  - exists (t2 ++ t1). by rewrite T2, T1, (assoc_L (++)).
  - exists (o2 ++ o1). by rewrite O2, O1, (assoc_L (++)).
Qed.

(** An update of the keys that keeps every key and its kind. *)
Lemma grows_keys_only f st :
  (∀ k x, keys st !! k = Some x →
     ∃ x', f (keys st) !! k = Some x' ∧ (is_Some (k_val x) → is_Some (k_val x'))) →
  grows st (upd_keys f st).
Proof. intros Hf. split; simpl; eauto; by exists []. Qed.

Lemma lookup_alter_Some {A} (g : A → A) (l : list A) i j x :
  l !! j = Some x → ∃ x', alter g i l !! j = Some x' ∧ (x' = x ∨ (i = j ∧ x' = g x)).
Proof.
  intros Hx. destruct (decide (i = j)) as [->|].
  - rewrite list_lookup_alter_eq, Hx. simpl. eauto.
  - rewrite list_lookup_alter_ne by done. eauto.
Qed.

Lemma grows_alter_key g k st :
  (∀ x, is_Some (k_val x) → is_Some (k_val (g x))) →
  grows st (upd_keys (alter g k) st).
Proof.
  intros Hg. apply grows_keys_only. intros j x Hx.
  destruct (lookup_alter_Some g (keys st) k j x Hx) as (x' & Hx' & [->|[_ ->]]); eauto.
Qed.

Lemma grows_append_key x st : grows st (upd_keys (λ l, l ++ [x]) st).
Proof.
  apply grows_keys_only. intros k y Hy. exists y. split; [|done].
  by apply lookup_app_l_Some.
Qed.

Lemma grows_unsub_loop r l st : grows st (unsub_loop r l st).
Proof.
  revert st. induction l as [|k l IH]; intros st; [apply grows_refl|].
  change (unsub_loop r (k :: l) st)
    with (unsub_loop r l (upd_subs k (set_delete (Comp r)) st)).
  eapply grows_trans; [|apply IH]. by apply grows_alter_key.
Qed.

Lemma grows_same st st' :
  keys st' = keys st → effects st' = effects st → computeds st' = computeds st →
  states st' = states st → timers st' = timers st → out st' = out st →
  grows st st'.
Proof.
  intros HK HE HC HS HT HO. split; rewrite ?HK, ?HE, ?HC, ?HS, ?HT, ?HO; eauto;
    by exists [].
Qed.

Lemma grows_alter_effect g e st :
  (∀ x, e_fn (g x) = e_fn x) → grows st (upd_effects (alter g e) st).
Proof.
  intros Hg. split; simpl; eauto; try by exists [].
  intros j x Hx.
  destruct (lookup_alter_Some g (effects st) e j x Hx) as (x' & Hx' & [->|[_ ->]]); eauto.
Qed.

Lemma grows_alter_computed g c st :
  (∀ x, m_fn (g x) = m_fn x ∧ (m_dirty x = false → m_dirty (g x) = false)) →
  grows st (upd_computeds (alter g c) st).
Proof.
  intros Hg. split; simpl; eauto; try by exists [].
  intros j x Hx.
  destruct (lookup_alter_Some g (computeds st) c j x Hx) as (x' & Hx' & [->|[_ ->]]).
  - eauto.
  - exists (g x). destruct (Hg x). eauto.
Qed.

Lemma grows_alter_state g t st : grows st (upd_states (alter g t) st).
Proof.
  split; simpl; eauto; try by exists [].
  intros j x Hx.
  destruct (lookup_alter_Some g (states st) t j x Hx) as (x' & Hx' & _); eauto.
Qed.

Lemma grows_track a k st : grows st (_trackDependency a k st).
Proof.
  unfold _trackDependency. case_decide; [|apply grows_refl].
  apply (grows_trans _ (log (EvTrack a k) st)); [by apply grows_same|].
  apply (grows_trans _ (upd_subs k (set_add (Comp a)) (log (EvTrack a k) st)));
    [by apply grows_alter_key|by apply grows_same].
Qed.

Lemma grows_unsubscribe_all c st : grows st (unsubscribe_all c st).
Proof.
  unfold unsubscribe_all. simpl. destruct (deps st !! c) as [l|]; [|by apply grows_same].
  apply (grows_trans _ (log (EvUnsub c) st)); [by apply grows_same|].
  apply (grows_trans _ (unsub_loop c l (log (EvUnsub c) st)));
    [apply grows_unsub_loop|by apply grows_same].
Qed.

Lemma grows_prim st st' : prim st st' → grows st st'.
Proof.
  destruct 1; try (by apply grows_same);
    try (by apply grows_alter_key); try (by apply grows_alter_effect);
    try (by apply grows_alter_computed); try (by apply grows_alter_state);
    try apply grows_append_key.
  - apply grows_track.
  - split; simpl; eauto; [by exists [err]|by exists []].
  - apply grows_unsubscribe_all.
  - eapply grows_trans; [apply (grows_append_key (Key None []))|].
    apply grows_alter_state.
  - split; simpl; eauto; try by exists [].
    intros e x Hx. exists x. split; [|done]. by apply lookup_app_l_Some.
  - split; simpl; eauto; try by exists [].
    intros e x Hx. exists x. split; [|done]. by apply lookup_app_l_Some.
  - split; simpl; eauto; try by exists [].
    intros e x Hx. exists x. by apply lookup_app_l_Some.
  - split; simpl; eauto; [by exists []|by exists [v]].
Qed.

Lemma grows_cprim c st st' : cprim c st st' → grows st st'.
Proof. destruct 1; by apply grows_same. Qed.

Lemma grows_log e st : grows st (log e st).
Proof. by apply grows_same. Qed.

(** The side conditions of [Plain] for [grows]. *)
Ltac grows_side :=
  intros; split; [done|]; eauto using grows_prim, grows_cprim, grows_log.

Theorem grows_call code n f args st r st' :
  call code n f args st = Some (r, st') → grows st st'.
Proof.
  intros Hc.
  eapply (holds_call code (λ _, True) grows (λ _, True));
    eauto using grows_refl, grows_trans; try solve [grows_side].
  by destruct f.
Qed.

Theorem grows_run code n p st r st' :
  run code n p st = Some (r, st') → grows st st'.
Proof.
  intros Hc.
  eapply (holds_run code (λ _, True) grows (λ _, True));
    eauto using grows_refl, grows_trans; try solve [grows_side].
Qed.

Lemma grows_notify code n arr st r st' :
  notify (call code n) arr st = Some (r, st') → grows st st'.
Proof.
  intros Hc.
  eapply (holds_notify code (λ _, True) grows (λ _, True));
    eauto using grows_refl, grows_trans; try solve [grows_side].
  intros f _. by destruct f.
Qed.

Lemma grows_cycle code n c st r st' :
  cycle code n c st = Some (r, st') → grows st st'.
Proof.
  intros Hc. destruct c as [e|c]; simpl in Hc.
  - eapply (holds_runner_cycle code (λ _, True) grows (λ _, True));
      eauto using grows_refl, grows_trans; try solve [grows_side].
  - eapply (holds_recompute_cycle code (λ _, True) grows (λ _, True));
      eauto using grows_refl, grows_trans; try solve [grows_side].
Qed.

Lemma grows_length_keys st st' : grows st st' → length (keys st) ≤ length (keys st').
Proof.
  intros [K _ _ _ _ _]. destruct (keys st) as [|x l] eqn:E using rev_ind; [simpl; lia|].
  destruct (K (length l) x) as (x' & Hx' & _).
  - by rewrite lookup_app_r, Nat.sub_diag by lia.
  - apply lookup_lt_Some in Hx'. rewrite length_app. simpl. lia.
Qed.


(** * Delivery

    [delivery code n arr st outs st']: the functions of [arr] are called one
    after the other from [st], each with no argument; [outs] are their
    results, in order; what one throws is deferred before the next is
    called; [st'] is the store after the last. *)
Inductive delivery (code : nat → list value → prog) (n : nat) :
    list func → store → list (res value) → store → Prop :=
| delivery_nil st : delivery code n [] st [] st
| delivery_ok fn rest st v st1 outs st' :
    call code n fn [] st = Some (Ok v, st1) →
    delivery code n rest st1 outs st' →
    delivery code n (fn :: rest) st (Ok v :: outs) st'
| delivery_exn fn rest st e st1 outs st' :
    call code n fn [] st = Some (Exn e, st1) →
    delivery code n rest (defer_throw e st1) outs st' →
    delivery code n (fn :: rest) st (Exn e :: outs) st'.

Lemma notify_delivery code n arr st r st' :
  notify (call code n) arr st = Some (r, st') ↔
  r = Ok tt ∧ ∃ outs, delivery code n arr st outs st'.
Proof.
  revert st. induction arr as [|fn rest IH]; intros st; simpl.
  - split.
    + intros [= <- <-]. split; [done|]. exists []. constructor.
    + intros (-> & outs & Hd). by inversion Hd.
  - unfold bind at 1, try_catch, bind at 1.
    destruct (call code n fn [] st) as [[[v|e] st1]|] eqn:E; simpl.
    + rewrite IH. split.
      * intros (-> & outs & Hd). split; [done|]. exists (Ok v :: outs).
        by eapply delivery_ok.
      * intros (-> & outs & Hd). split; [done|]. inversion Hd; subst; simplify_eq.
        eauto.
    + rewrite IH. split.
      * intros (-> & outs & Hd). split; [done|]. exists (Exn e :: outs).
        by eapply delivery_exn.
      * intros (-> & outs & Hd). split; [done|]. inversion Hd; subst; simplify_eq.
        eauto.
    + split; [done|]. intros (_ & outs & Hd). inversion Hd; congruence.
Qed.





(** set(v), for a literal [v] that changes the value, is a delivery to the
    subscribers of the signal. *)
Lemma set_delivery code n s v st r st' :
  s < length (keys st) → is_function v = false → v ≠ key_value s st →
  call code n (Pub (FSet s)) [v] st = Some (r, st') →
  r = Ok (key_value s st') ∧
  ∃ m outs, n = S m ∧ delivery code m (key_subs s st) (delivering s v st) outs st'.
Proof.
  intros Hs Hv Hne (m & -> & Hd)%call_Some. simpl in Hd.
  change (arg 0 [v]) with v in Hd. rewrite set_literal in Hd by done.
  cbv zeta in Hd. rewrite key_value_set_value in Hd by done.
  change (key_value s (log ?e st)) with (key_value s st) in Hd.
  rewrite strict_eq_ne in Hd by done.
  unfold bind at 1 in Hd.
  destruct (notify _ _ _) as [[r1 st1]|] eqn:E; [|done].
  apply notify_delivery in E as (-> & outs & Hdel).
  unfold gets in Hd. injection Hd as <- <-.
  split; [done|]. exists m, outs. split; [done|].
  unfold delivering. cbv zeta. rewrite key_subs_set_value. exact Hdel.
Qed.


(** Two listeners on one signal, the first of which throws:
    const [get, set, subscribe] = createSignal(0);
    subscribe(() => { throw "boom" }); subscribe(() => out.push("second")) *)
Definition isolation_code (n : nat) (args : list value) : prog :=
  match n with
  | 1 => Throw (VStr "boom")
  | 2 => Emit (VStr "second") (Ret VUndef)
  | _ => Ret VUndef
  end.


(** * The cases of set

    [committed code m s newVal st st1]: [st1] is the store right after
    set(newVal) has assigned the next value of signal [s]: [newVal] itself if
    it is not a function, and otherwise what the call of [newVal] on the
    previous value returned. *)
Definition committed (code : nat → list value → prog) (m : nat) (s : nat)
    (newVal : value) (st st1 : store) : Prop :=
  match newVal with
  | VFun f => ∃ v st0,
      call code m (Pub f) [key_value s st] st = Some (Ok v, st0) ∧
      st1 = set_value s v st0
  | _ => st1 = set_value s newVal st
  end.

(** The updater threw [e], leaving [st']. *)
Definition updater_threw (code : nat → list value → prog) (m : nat) (s : nat)
    (newVal : value) (st : store) (e : value) (st' : store) : Prop :=
  ∃ f, newVal = VFun f ∧ call code m (Pub f) [key_value s st] st = Some (Exn e, st').

Lemma set_cases code m s newVal st r st' :
  set (call code m) s newVal st = Some (r, st') →
  (∃ e, r = Exn e ∧ updater_threw code m s newVal st e st') ∨
  ∃ st1, committed code m s newVal st st1 ∧
    ((strict_eq (key_value s st) (key_value s st1) = true ∧
      r = Ok (key_value s st1) ∧ st' = st1) ∨
     (strict_eq (key_value s st) (key_value s st1) = false ∧
      r = Ok (key_value s st') ∧
      ∃ outs, delivery code m (key_subs s st1)
                (log (EvNotify s (key_subs s st1)) st1) outs st')).
Proof.
  unfold set. unfold bind at 1, gets at 1. unfold bind at 1.
  set (upd := match newVal with
              | VFun f => let! v := call code m (Pub f) [key_value s st] in
                          modify (set_value s v)
              | _ => modify (set_value s newVal)
              end).
  destruct (upd st) as [[[[]|e] st1]|] eqn:E; [| |done].
  - intros Hrest. right. exists st1. split.
    { subst upd. unfold committed. destruct newVal; try (by injection E as <-).
      unfold bind in E.
      destruct (call code m (Pub f) [key_value s st] st) as [[[v|e] st0]|]; [|done..].
      injection E as <-. eauto. }
    unfold bind at 1, gets at 1 in Hrest.
    destruct (strict_eq (key_value s st) (key_value s st1)) eqn:Heq.
    + left. by injection Hrest as <- <-.
    + right. split; [done|]. unfold bind at 1, gets at 1 in Hrest.
      unfold bind at 1, modify at 1 in Hrest. unfold bind at 1 in Hrest.
      destruct (notify _ _ _) as [[r1 st2]|] eqn:En; [|done].
      apply notify_delivery in En as (-> & outs & Hd).
      unfold gets in Hrest. injection Hrest as <- <-. eauto.
  - intros [= <- <-]. left. exists e. split; [done|].
    subst upd. destruct newVal; try done. exists f. split; [done|].
    unfold bind in E.
    by destruct (call code m (Pub f) [key_value s st] st) as [[[v|e'] st0]|];
      simplify_eq.
Qed.

(** [s] is a signal whose value is [v]. *)
Definition signal_value (s : nat) (v : value) (st : store) : Prop :=
  ∃ subs, keys st !! s = Some (Key (Some v) subs).

Lemma signal_value_key_value s v st : signal_value s v st → key_value s st = v.
Proof. intros [subs H]. unfold key_value. by rewrite H. Qed.

Lemma signal_value_lt s v st : signal_value s v st → s < length (keys st).
Proof. intros [subs H]. by eapply lookup_lt_Some. Qed.

Lemma signal_value_log s v e st : signal_value s v st → signal_value s v (log e st).
Proof. done. Qed.

Lemma set_value_signal s v st : signal_value s v st → set_value s v st = st.
Proof.
  intros Hs. rewrite <-(signal_value_key_value s v st Hs) at 1.
  apply set_value_same; [by eapply signal_value_lt|].
  destruct Hs as [subs H]. rewrite H. simpl. eauto.
Qed.

Lemma grows_signal s st st' :
  grows st st' → (∃ v, signal_value s v st) → signal_value s (key_value s st') st'.
Proof.
  intros [K _ _ _ _ _] (v & subs & H). destruct (K _ _ H) as ([kv ks] & Hx & Hv).
  destruct Hv as [v' Hv']; [by eexists|]. simpl in Hv'. subst kv.
  exists ks. unfold key_value. by rewrite Hx.
Qed.

(** A write set(v) of a literal that is not [===] to the current value. *)
Lemma set_delivery_strict code n s v st r st' :
  s < length (keys st) → is_function v = false → strict_eq (key_value s st) v = false →
  call code n (Pub (FSet s)) [v] st = Some (r, st') →
  r = Ok (key_value s st') ∧
  ∃ m outs, n = S m ∧ delivery code m (key_subs s st) (delivering s v st) outs st'.
Proof.
  intros Hs Hv Hne (m & -> & Hd)%call_Some. simpl in Hd.
  change (arg 0 [v]) with v in Hd. rewrite set_literal in Hd by done.
  cbv zeta in Hd. rewrite key_value_set_value in Hd by done.
  change (key_value s (log ?e st)) with (key_value s st) in Hd.
  rewrite Hne in Hd.
  unfold bind at 1 in Hd.
  destruct (notify _ _ _) as [[r1 st1]|] eqn:E; [|done].
  apply notify_delivery in E as (-> & outs & Hdel).
  unfold gets in Hd. injection Hd as <- <-.
  split; [done|]. exists m, outs. split; [done|].
  unfold delivering. cbv zeta. rewrite key_subs_set_value. exact Hdel.
Qed.

(** set(v) on a signal whose value is the literal [v], other than NaN: the
    call returns [v] and records nothing but its own entry. *)
Lemma set_same_literal code n s v st :
  is_function v = false → v ≠ VNaN → signal_value s v st →
  call code (S n) (Pub (FSet s)) [v] st
  = Some (Ok v, log (EvEnter (Pub (FSet s)) [v]) st).
Proof.
  intros Hv Hnan Hs. rewrite call_S. simpl. change (arg 0 [v]) with v.
  rewrite set_literal by done. cbv zeta.
  rewrite (set_value_signal s v (log _ st)) by done.
  rewrite (signal_value_key_value s v (log _ st)) by done.
  by rewrite strict_eq_refl.
Qed.

(** C2 (as amended): for a value [v] that is neither a function nor NaN,
    set(v) on a signal whose value is [v] returns [v], notifies nobody and
    changes nothing (only the entry of set is recorded); an updater that
    returns the previous value, when that is not NaN, notifies nobody
    either; and set(v) for a [v] that is not [===] to the current value
    (another value, or NaN even when the signal holds NaN) is one delivery
    to the subscribers of the signal, after which, if the signal still
    holds [v] (no subscriber wrote to it in turn) and [v] is not NaN, a
    second set(v) notifies nobody. *)
Theorem equal_write_is_noop code n s v cur st :
  is_function v = false → signal_value s cur st →
  (v = cur → v ≠ VNaN →
     call code (S n) (Pub (FSet s)) [v] st
     = Some (Ok v, log (EvEnter (Pub (FSet s)) [v]) st)) ∧
  (cur ≠ VNaN → ∀ f st0,
     call code n (Pub f) [cur] (log (EvEnter (Pub (FSet s)) [VFun f]) st)
       = Some (Ok cur, st0) →
     call code (S n) (Pub (FSet s)) [VFun f] st = Some (Ok cur, set_value s cur st0)) ∧
  (v ≠ cur ∨ v = VNaN → ∀ r1 st1,
     call code (S n) (Pub (FSet s)) [v] st = Some (r1, st1) →
     (∃ outs, delivery code n (key_subs s st) (delivering s v st) outs st1) ∧
     (key_value s st1 = v → v ≠ VNaN → ∀ m,
        call code (S m) (Pub (FSet s)) [v] st1
        = Some (Ok v, log (EvEnter (Pub (FSet s)) [v]) st1))).
Proof.
  intros Hv Hs. split_and!.
  - intros -> Hnan. by apply set_same_literal.
  - intros Hnan f st0 Hf. rewrite call_S. simpl. change (arg 0 [VFun f]) with (VFun f).
    unfold set. unfold bind at 1, gets at 1.
    rewrite (signal_value_key_value s cur (log _ st)) by done.
    unfold bind at 1. unfold bind at 1. rewrite Hf.
    unfold modify at 1. unfold bind at 1, gets at 1.
    assert (key_value s (set_value s cur st0) = cur) as ->.
    { apply key_value_set_value. eapply Nat.lt_le_trans.
      - eapply (signal_value_lt s cur (log _ st)). done.
      - apply grows_length_keys. by eapply grows_call. }
    by rewrite strict_eq_refl.
  - intros Hne r1 st1 Hc.
    assert (s < length (keys st)) as Hlt by (by eapply signal_value_lt).
    assert (strict_eq (key_value s st) v = false) as Hne'.
    { rewrite (signal_value_key_value s cur) by done. apply strict_eq_false.
      destruct Hne as [Hne| ->]; [left; congruence|].
      destruct (decide (cur = VNaN)); [by right|by left]. }
    destruct (set_delivery_strict _ _ _ _ _ _ _ Hlt Hv Hne' Hc)
      as (_ & m & outs & [= <-] & Hd).
    split; [eauto|]. intros Hval Hnan m'. apply set_same_literal; [done|done|].
    rewrite <-Hval. eapply grows_signal; [by eapply grows_call|eauto].
Qed.

(** x => x + 1, and a listener that counts *)
Definition incr_code (n : nat) (args : list value) : prog :=
  match n with
  | 0 => match args with [VNum z] => Ret (VNum (z + 1)) | _ => Ret VUndef end
  | 1 => Emit (VStr "notified") (Ret VUndef)
  | _ => Ret VUndef
  end.
Definition incr_setup : prog :=
  CreateSignal (VNum 0) (λ s,
    Call (VFun (FSubscribe s)) [VFun (FUser 1)] (λ _, Ret VUndef)).

(** A listener that writes back:
    subscribe(() => { out.push("notified"); if (get() === 1) set(0) }) *)
Definition writeback_code (n : nat) (args : list value) : prog :=
  match n with
  | 1 => Emit (VStr "notified")
           (js_get 0 (λ v, if decide (v = VNum 1) then js_set 0 (VNum 0) (Ret VUndef)
                           else Ret VUndef))
  | _ => Ret VUndef
  end.

Lemma equal_write_is_noop_witness :
  let st := after incr_code 5 incr_setup in
  is_function (VNum 7) = false ∧ signal_value 0 (VNum 0) st ∧
  call incr_code 5 (Pub (FSet 0)) [VNum 0] st
  = Some (Ok (VNum 0), log (EvEnter (Pub (FSet 0)) [VNum 0]) st) ∧
  ∀ r1 st1,
    call incr_code 5 (Pub (FSet 0)) [VNum 7] st = Some (r1, st1) →
    (∃ outs, delivery incr_code 4 (key_subs 0 st) (delivering 0 (VNum 7) st) outs st1) ∧
    (key_value 0 st1 = VNum 7 → VNum 7 ≠ VNaN → ∀ m,
       call incr_code (S m) (Pub (FSet 0)) [VNum 7] st1
       = Some (Ok (VNum 7), log (EvEnter (Pub (FSet 0)) [VNum 7]) st1)).
Proof.
  intros st.
  assert (signal_value 0 (VNum 0) st) as Hs by (by eexists; vm_compute).
  split_and!; [done|done|..].
  - apply (equal_write_is_noop incr_code 4 0 (VNum 0) (VNum 0) st); done.
  - apply (equal_write_is_noop incr_code 4 0 (VNum 7) (VNum 0) st); [done|done|].
    by left.
Defined.

(** C2, as stated, fails in three ways. With the updater f = x => x + 1,
    set(f) followed by set(f), the same reference, notifies the listener
    twice. With a listener that writes 0 back when it sees 1, set(1)
    followed by set(1) delivers to the listener both times: the second
    write records a delivery list again. And set(NaN) followed by set(NaN)
    notifies the listener twice, the second time while the signal holds
    NaN, since NaN is not [===] to itself. *)
Lemma equal_write_counterexample :
  (let st := after incr_code 5 incr_setup in
   let st1 := result_store (call incr_code 5 (Pub (FSet 0)) [VFun (FUser 0)] st) in
   let st2 := result_store (call incr_code 5 (Pub (FSet 0)) [VFun (FUser 0)] st1) in
   call incr_code 5 (Pub (FSet 0)) [VFun (FUser 0)] st = Some (Ok (VNum 1), st1) ∧
   call incr_code 5 (Pub (FSet 0)) [VFun (FUser 0)] st1 = Some (Ok (VNum 2), st2) ∧
   out st2 = [VStr "notified"; VStr "notified"]) ∧
  (let st := after writeback_code 5 incr_setup in
   let st1 := result_store (call writeback_code 9 (Pub (FSet 0)) [VNum 1] st) in
   let st2 := result_store (call writeback_code 9 (Pub (FSet 0)) [VNum 1] st1) in
   key_value 0 st = VNum 0 ∧
   call writeback_code 9 (Pub (FSet 0)) [VNum 1] st = Some (Ok (VNum 0), st1) ∧
   call writeback_code 9 (Pub (FSet 0)) [VNum 1] st1 = Some (Ok (VNum 0), st2) ∧
   EvNotify 0 [Pub (FUser 1)] ∈ new_events st st1 ∧
   EvNotify 0 [Pub (FUser 1)] ∈ new_events st1 st2) ∧
  (let st := after incr_code 5 incr_setup in
   let st1 := result_store (call incr_code 5 (Pub (FSet 0)) [VNaN] st) in
   let st2 := result_store (call incr_code 5 (Pub (FSet 0)) [VNaN] st1) in
   call incr_code 5 (Pub (FSet 0)) [VNaN] st = Some (Ok VNaN, st1) ∧
   key_value 0 st1 = VNaN ∧
   call incr_code 5 (Pub (FSet 0)) [VNaN] st1 = Some (Ok VNaN, st2) ∧
   out st2 = [VStr "notified"; VStr "notified"]).
Proof.
  split_and!.
  - cbv zeta. split_and!; by vm_compute.
  - cbv zeta. split_and!; try (by vm_compute);
      apply list_elem_of_In; vm_compute; tauto.
  - cbv zeta. split_and!; by vm_compute.
Qed.

(** C9 (as amended): set(f) with a function [f] always calls [f] on the
    previous value. If [f] throws, set throws the same and assigns
    nothing. Otherwise the value of the signal becomes what [f] returned,
    whatever that is (it is [f] itself only if [f] returned [f]): when it
    is [===] to the previous value (the same value, and not NaN) set
    returns it, and when not, set delivers to the subscribers and returns
    the value the signal has then. *)
Theorem set_applies_updater code n s f st r st' :
  s < length (keys st) →
  call code n (Pub (FSet s)) [VFun f] st = Some (r, st') →
  ∃ m, n = S m ∧
    let st_in := log (EvEnter (Pub (FSet s)) [VFun f]) st in
    let old := key_value s st in
    (∃ e, r = Exn e ∧ call code m (Pub f) [old] st_in = Some (Exn e, st')) ∨
    ∃ v st0, call code m (Pub f) [old] st_in = Some (Ok v, st0) ∧
      let st1 := set_value s v st0 in
      key_value s st1 = v ∧
      (v = old → v ≠ VNaN → r = Ok v ∧ st' = st1) ∧
      (v ≠ old ∨ v = VNaN → r = Ok (key_value s st') ∧
         ∃ outs, delivery code m (key_subs s st1)
                   (log (EvNotify s (key_subs s st1)) st1) outs st').
Proof.
  intros Hs (m & -> & Hd)%call_Some. exists m. split; [done|]. cbv zeta.
  simpl in Hd. change (arg 0 [VFun f]) with (VFun f) in Hd.
  apply set_cases in Hd as [(e & -> & f' & [= <-] & Hf)|(st1 & Hcom & Hrest)].
  - left. eauto.
  - right. destruct Hcom as (v & st0 & Hf & ->). exists v, st0.
    change (key_value s (log ?e st)) with (key_value s st) in *.
    assert (key_value s (set_value s v st0) = v) as Hv.
    { apply key_value_set_value. eapply Nat.lt_le_trans; [exact Hs|].
      apply grows_call, grows_length_keys in Hf. exact Hf. }
    split; [done|]. rewrite Hv in Hrest. split_and!; [done| |].
    + intros -> Hnan. destruct Hrest as [(_ & -> & ->)|[Hf' _]]; [done|].
      rewrite strict_eq_refl in Hf' by done. discriminate Hf'.
    + intros Hne. destruct Hrest as [(Heq & _)|(_ & -> & Hdel)]; [|eauto].
      apply strict_eq_true in Heq as [Heq Hnan].
      destruct Hne as [Hne| ->]; congruence.
Qed.

(** function f() { return f } *)
Definition self_code (n : nat) (args : list value) : prog :=
  match n with
  | 0 => Ret (VFun (FUser 0))
  | _ => Ret VUndef
  end.
Definition one_signal : prog := CreateSignal (VNum 0) (λ _, Ret VUndef).

Lemma set_applies_updater_witness :
  let st := after self_code 3 one_signal in
  0 < length (keys st) ∧
  ∃ m, 3 = S m ∧
    ∃ v st0,
      call self_code m (Pub (FUser 0)) [key_value 0 st]
        (log (EvEnter (Pub (FSet 0)) [VFun (FUser 0)]) st) = Some (Ok v, st0) ∧
      key_value 0 (set_value 0 v st0) = v.
Proof.
  intros st. split; [vm_compute; lia|].
  destruct (set_applies_updater self_code 3 0 (FUser 0) st (Ok (VFun (FUser 0)))
              (result_store (call self_code 3 (Pub (FSet 0)) [VFun (FUser 0)] st)))
    as (m & Hm & [(e & [=] & _)|(v & st0 & Hf & Hv & _)]).
  - vm_compute. lia.
  - by vm_compute.
  - exists m. split; [done|]. exists v, st0. split; done.
Defined.

(** C9, as stated, fails for an updater that returns a function: with
    function f() { return f }, set(f) on a signal holding 0 leaves the
    signal holding [f] itself, a function. *)
Lemma set_stores_function_counterexample :
  let st := after self_code 3 one_signal in
  let f := FUser 0 in
  let st' := result_store (call self_code 3 (Pub (FSet 0)) [VFun f] st) in
  key_value 0 st = VNum 0 ∧
  call self_code 3 (Pub (FSet 0)) [VFun f] st = Some (Ok (VFun f), st') ∧
  key_value 0 st' = VFun f ∧ is_function (key_value 0 st') = true.
Proof. cbv zeta. split_and!; by vm_compute. Qed.

(** * An effect that is out of the registry

    [inert e st]: the effect [e] exists, is in no subscriber set and is not
    on the execution stack. [quiet e st st']: between [st] and [st'] the
    runner of [e] was not entered, and its body not reached. *)
Definition inert (e : nat) (st : store) : Prop :=
  e < length (effects st) ∧
  (∀ k, Comp (Runner e) ∉ key_subs k st) ∧
  Runner e ∉ stack st.

Definition quiet (e : nat) (st st' : store) : Prop :=
  ∃ evs, trace st' = evs ++ trace st ∧
    (EvBody (Runner e) ∉ evs) ∧ (∀ args, EvEnter (Comp (Runner e)) args ∉ evs).

Lemma quiet_refl e st : quiet e st st.
Proof. exists []. split_and!; [done|apply not_elem_of_nil|intros; apply not_elem_of_nil]. Qed.

Lemma quiet_trans e a b c : quiet e a b → quiet e b c → quiet e a c.
Proof.
  intros (e1 & T1 & B1 & N1) (e2 & T2 & B2 & N2). exists (e2 ++ e1). split_and!.
  - by rewrite T2, T1, (assoc_L (++)).
  - rewrite elem_of_app. tauto.
  - intros args. rewrite elem_of_app. specialize (N1 args). specialize (N2 args). tauto.
Qed.

Lemma quiet_same e st st' : trace st' = trace st → quiet e st st'.
Proof. intros H. exists []. split_and!; [done|apply not_elem_of_nil|intros; apply not_elem_of_nil]. Qed.

Lemma quiet_log e ev st :
  ev ≠ EvBody (Runner e) → (∀ args, ev ≠ EvEnter (Comp (Runner e)) args) →
  quiet e st (log ev st).
Proof.
  intros H1 H2. exists [ev]. split_and!; [done|..].
  - by intros ?%list_elem_of_singleton.
  - intros args ?%list_elem_of_singleton. by eapply H2.
Qed.

Lemma inert_same e st st' :
  length (effects st) ≤ length (effects st') →
  (∀ k, key_subs k st' = key_subs k st) → stack st' = stack st →
  inert e st → inert e st'.
Proof.
  intros HE HK HS (He & Hk & Hs). split_and!; [lia| |by rewrite HS].
  intros k. rewrite HK. apply Hk.
Qed.

Lemma inert_subs e st st' :
  length (effects st) ≤ length (effects st') →
  (∀ k, Comp (Runner e) ∈ key_subs k st' → Comp (Runner e) ∈ key_subs k st) →
  stack st' = stack st →
  inert e st → inert e st'.
Proof.
  intros HE HK HS (He & Hk & Hs). split_and!; [lia| |by rewrite HS].
  intros k Hin. by apply HK, Hk in Hin.
Qed.

Lemma inert_prim e st st' : prim st st' → inert e st → inert e st' ∧ quiet e st st'.
Proof.
  destruct 1; intros HI;
    try (split; [by apply (inert_same e st)|by apply quiet_same]).
  - (* enter *) split; [by apply (inert_same e st)|]. by apply quiet_log.
  - (* track *)
    assert (a ≠ Runner e) as Hne.
    { intros ->. destruct HI as (_ & _ & Hs). apply Hs.
      destruct (stack st); simplify_eq/=. by left. }
    split.
    + apply (inert_subs e st); [by rewrite effects_track| |by rewrite stack_track|done].
      intros k'. rewrite key_subs_track. case_decide; [|done].
      rewrite elem_of_set_add. intros [?|?]; [congruence|done].
    + unfold _trackDependency. case_decide; [|apply quiet_refl].
      eapply quiet_trans; [by apply (quiet_log e (EvTrack a k))|by apply quiet_same].
  - (* set_value *)
    split; [|by apply quiet_same].
    apply (inert_same e st); [done| |done|done]. intros. apply key_subs_set_value.
  - (* subscribe *)
    split; [|by apply quiet_same].
    apply (inert_subs e st); [done| |done|done].
    intros k. rewrite key_subs_upd_subs. case_decide; [|done].
    destruct (keys st !! k) eqn:E; [|by intros ?%elem_of_nil].
    rewrite elem_of_set_add. intros [?|?]; [congruence|done].
  - (* unsubscribe *)
    split; [|by apply quiet_same].
    apply (inert_subs e st); [done| |done|done].
    intros k. rewrite key_subs_upd_subs. case_decide; [|done].
    destruct (keys st !! k) eqn:E; [|by intros ?%elem_of_nil].
    rewrite elem_of_set_delete. by intros [].
  - (* console *) split; [by apply (inert_same e st)|]. by apply quiet_log.
  - (* unsubscribe_all *)
    split.
    + apply (inert_subs e st);
        [by rewrite effects_unsubscribe_all| |by rewrite stack_unsubscribe_all|done].
      intros k. rewrite key_subs_unsubscribe_all. case_decide; [|done].
      rewrite elem_of_set_delete. by intros [].
    + exists [EvUnsub c]. split_and!; [by rewrite trace_unsubscribe_all|..].
      * by intros ?%list_elem_of_singleton.
      * by intros args ?%list_elem_of_singleton.
  - (* effect cleanup *)
    split; [|by apply quiet_same].
    apply (inert_same e st); [|done..]. simpl. by rewrite length_alter.
  - (* pop *)
    split; [|by apply quiet_same].
    destruct HI as (He & Hk & Hs). split_and!; [done|done|].
    simpl. destruct (stack st); [done|]. simpl. intros ?. apply Hs. by right.
  - (* alloc signal *)
    split; [|by apply quiet_same].
    apply (inert_subs e st); [done| |done|done].
    intros k. rewrite key_subs_alloc. case_decide; [by intros ?%elem_of_nil|done].
  - (* alloc prop *)
    split; [|by apply quiet_same].
    apply (inert_subs e st); [done| |done|done].
    intros k. change (key_subs k (upd_props _ _ ?s)) with (key_subs k s).
    rewrite key_subs_alloc. case_decide; [by intros ?%elem_of_nil|done].
  - (* alloc effect *)
    split; [|by apply quiet_same].
    apply (inert_same e st); [|done..]. simpl. rewrite length_app. lia.
Qed.

Lemma inert_cprim e c st st' :
  c ≠ Runner e → cprim c st st' → inert e st → inert e st' ∧ quiet e st st'.
Proof.
  intros Hne [args st0|st0] HI.
  - split; [by apply (inert_same e st0)|]. apply quiet_log; [done|]. congruence.
  - split; [|by apply quiet_same].
    destruct HI as (He & Hk & Hs). split_and!; [done|done|].
    simpl. intros [?|?]%elem_of_cons; [congruence|done].
Qed.

Lemma inert_log e ev st :
  match ev with
  | EvNotify _ _ => True
  | EvBody c | EvDirect c => c ≠ Runner e
  | _ => False
  end → inert e st → inert e (log ev st) ∧ quiet e st (log ev st).
Proof.
  intros Hev HI. split; [by apply (inert_same e st)|].
  apply quiet_log; destruct ev; try done; congruence.
Qed.

(** The side conditions of [Plain] for an inert effect. *)
Ltac inert_side e :=
  first
    [ exact (quiet_refl e) | exact (quiet_trans e)
    | intros; by apply inert_prim
    | intros; by eapply inert_cprim
    | intros; by apply inert_log
    | intros ? (He & _ & _) [=]; lia
    | done
    | intros ? ? ? (_ & Hk & _) Hin ->; by apply Hk in Hin ].

(** From a store where [e] is inert, no call of a function a program can
    hold, and no run of a program, reaches the body of [e]; and [e] is
    inert at the end. *)
Theorem inert_call code n e f args st r st' :
  inert e st → call code n (Pub f) args st = Some (r, st') →
  inert e st' ∧ quiet e st st'.
Proof.
  intros HI Hc.
  eapply (holds_call code (inert e) (quiet e) (λ c, c ≠ Runner e));
    try eassumption; try solve [inert_side e].
Qed.

Theorem inert_run code n e p st r st' :
  inert e st → run code n p st = Some (r, st') →
  inert e st' ∧ quiet e st st'.
Proof.
  intros HI Hc.
  eapply (holds_run code (inert e) (quiet e) (λ c, c ≠ Runner e));
    try eassumption; try solve [inert_side e].
Qed.

(** What follows a store: any number of calls of functions a program can
    hold and of runs of programs, one after the other. *)
Inductive later (code : nat → list value → prog) : store → store → Prop :=
| later_refl st : later code st st
| later_call st n f args r st1 st2 :
    call code n (Pub f) args st = Some (r, st1) →
    later code st1 st2 → later code st st2
| later_run st n p r st1 st2 :
    run code n p st = Some (r, st1) →
    later code st1 st2 → later code st st2.

Lemma inert_later code e st st' :
  later code st st' → inert e st → inert e st' ∧ quiet e st st'.
Proof.
  induction 1 as [st|st n f args r st1 st2 Hc _ IH|st n p r st1 st2 Hc _ IH]; intros HI.
  - split; [done|apply quiet_refl].
  - destruct (inert_call _ _ _ _ _ _ _ _ HI Hc) as [HI1 HQ1].
    destruct (IH HI1). eauto using quiet_trans.
  - destruct (inert_run _ _ _ _ _ _ _ HI Hc) as [HI1 HQ1].
    destruct (IH HI1). eauto using quiet_trans.
Qed.

(** The cleanup of an effect, when there is one, is entered; the call of
    it does not throw. *)
Lemma run_cleanup_cases code m cl st r st' :
  run_cleanup (call code m) cl (λ err, console_error [err]) st = Some (r, st') →
  r = Ok tt ∧
  match cl with
  | Some f => ∃ evs, trace st' = evs ++ trace st ∧ EvEnter (Pub f) [] ∈ evs
  | None => st' = st
  end.
Proof.
  destruct cl as [f|]; simpl; [|by intros [= <- <-]].
  unfold try_catch, bind.
  destruct (call code m (Pub f) [] st) as [[[v|e] st1]|] eqn:E; [| |done].
  - intros [= <- <-]. split; [done|]. apply trace_call in E as [evs ->].
    exists (evs ++ [EvEnter (Pub f) []]). split; [by rewrite <-(assoc_L (++))|].
    rewrite elem_of_app, list_elem_of_singleton. auto.
  - unfold modify. intros [= <- <-]. split; [done|].
    apply trace_call in E as [evs E]. simpl. rewrite E.
    exists (EvConsoleError [e] :: evs ++ [EvEnter (Pub f) []]).
    split; [simpl; by rewrite <-(assoc_L (++))|].
    rewrite elem_of_cons, elem_of_app, list_elem_of_singleton. auto.
Qed.

Lemma disposer_cases code m e st r st' :
  disposer (call code m) e st = Some (r, st') →
  let st1 := unsubscribe_all (Runner e) st in
  ∃ st2,
    run_cleanup (call code m) (effects st !! e ≫= e_cleanup)
      (λ err, console_error [err]) st1 = Some (Ok tt, st2) ∧
    r = Ok VUndef ∧ st' = set_effect_cleanup e None st2.
Proof.
  unfold disposer. unfold bind at 1, modify at 1. unfold bind at 1, gets at 1.
  rewrite effects_unsubscribe_all. unfold bind at 1.
  destruct (run_cleanup _ _ _ _) as [[r1 st2]|] eqn:E; [|done].
  destruct (run_cleanup_cases _ _ _ _ _ _ E) as [-> _].
  intros [= <- <-]. eauto.
Qed.

Lemma inert_run_cleanup code m e cl st r st' :
  inert e st →
  run_cleanup (call code m) cl (λ err, console_error [err]) st = Some (r, st') →
  inert e st'.
Proof.
  intros HI Hc.
  eapply (holds_run_cleanup code (inert e) (quiet e) (λ c, c ≠ Runner e));
    try eassumption; try solve [inert_side e].
  intros. constructor.
Qed.

(** C5 (as amended): the disposer of an existing effect [e], called while
    [e] is not running (not on the execution stack), returns undefined,
    calls the pending cleanup if there is one and leaves none; when it
    returns [e] is subscribed to no key, and whatever follows, any number
    of calls and runs from the store it leaves, never enters the runner of
    [e] nor reaches its body. *)
Theorem dispose_halts code n e st r st1 :
  wf st → e < length (effects st) → Runner e ∉ stack st →
  call code n (Pub (FDisposer e)) [] st = Some (r, st1) →
  r = Ok VUndef ∧
  (∀ cl, effects st !! e ≫= e_cleanup = Some cl →
         ∃ evs, trace st1 = evs ++ trace st ∧ EvEnter (Pub cl) [] ∈ evs) ∧
  effects st1 !! e ≫= e_cleanup = None ∧
  (∀ k, ¬ subscribed (Runner e) k st1) ∧
  ∀ st2, later code st1 st2 → quiet e st1 st2.
Proof.
  intros Hwf He Hs (m & -> & Hd)%call_Some. simpl in Hd.
  apply disposer_cases in Hd as (st2 & Hcl & -> & ->).
  set (st0 := log (EvEnter (Pub (FDisposer e)) []) st) in *.
  set (stu := unsubscribe_all (Runner e) st0) in *.
  assert (inert e stu) as HIu.
  { split_and!.
    - subst stu. by rewrite effects_unsubscribe_all.
    - apply unsubscribe_all_clears. by apply wf_log.
    - subst stu. by rewrite stack_unsubscribe_all. }
  assert (inert e st2) as HI2 by (by eapply inert_run_cleanup).
  assert (inert e (set_effect_cleanup e None st2)) as HI3.
  { eapply inert_prim; [constructor|done]. }
  split_and!; [done| | |apply HI3|].
  - intros cl Hcl'. change (effects st0) with (effects st) in Hcl.
    rewrite Hcl' in Hcl. apply run_cleanup_cases in Hcl as (_ & evs & Ht & Hin).
    exists (evs ++ [EvUnsub (Runner e); EvEnter (Pub (FDisposer e)) []]). split.
    + simpl. rewrite Ht. subst stu. rewrite trace_unsubscribe_all.
      by rewrite <-(assoc_L (++)).
    + apply elem_of_app. auto.
  - simpl. destruct (decide (e < length (effects st2))) as [Hlt|Hge].
    + rewrite list_lookup_alter_eq.
      destruct (lookup_lt_is_Some_2 _ _ Hlt) as [x ->]. done.
    + rewrite list_lookup_alter_eq, lookup_ge_None_2 by lia. done.
  - intros st3 Hl. by eapply inert_later.
Qed.

Lemma dispose_halts_witness :
  let st := after seen_code 5 seen_setup in
  let st1 := result_store (call seen_code 5 (Pub (FDisposer 0)) [] st) in
  subscribed (Runner 0) 0 st ∧
  (∀ k, ¬ subscribed (Runner 0) k st1) ∧
  ∀ st2, later seen_code st1 st2 → quiet 0 st1 st2.
Proof.
  intros st st1. split.
  - apply list_elem_of_In. vm_compute. tauto.
  - apply (dispose_halts seen_code 5 0 st (Ok VUndef) st1).
    + apply wf_after.
    + vm_compute. lia.
    + vm_compute. apply not_elem_of_nil.
    + by vm_compute.
Defined.

(** An effect that disposes of another one while a write is delivering to
    both:
    const [get, set] = createSignal(0); let d;
    createEffect(() => { get(); if (d) d() });
    d = createEffect(() => out.push(get())) *)
Definition zombie_code (n : nat) (args : list value) : prog :=
  match n with
  | 0 => js_get 0 (λ _, VarGet 0 (λ d,
           if is_function d then Call d [] (λ _, Ret VUndef) else Ret VUndef))
  | 1 => js_get 0 (λ v, Emit v (Ret VUndef))
  | _ => Ret VUndef
  end.
Definition zombie_setup : prog :=
  CreateSignal (VNum 0) (λ _,
    CreateEffect (VFun (FUser 0)) (λ _,
    CreateEffect (VFun (FUser 1)) (λ d, VarSet 0 d (Ret VUndef)))).

(** C5, as stated, fails when the disposer is called while a delivery that
    lists the effect is under way: set(1) delivers to both effects, the
    first calls the disposer of the second, which returns, and the second
    is then run all the same and subscribes again; the later write set(2)
    reaches its body again. *)
Lemma dispose_during_delivery_counterexample :
  let st := after zombie_code 9 zombie_setup in
  let st1 := result_store (call zombie_code 9 (Pub (FSet 0)) [VNum 1] st) in
  let st2 := result_store (call zombie_code 9 (Pub (FSet 0)) [VNum 2] st1) in
  call zombie_code 9 (Pub (FSet 0)) [VNum 1] st = Some (Ok (VNum 1), st1) ∧
  EvEnter (Pub (FDisposer 1)) [] ∈ new_events st st1 ∧
  call zombie_code 9 (Pub (FSet 0)) [VNum 2] st1 = Some (Ok (VNum 2), st2) ∧
  EvBody (Runner 1) ∈ new_events st1 st2 ∧
  out st2 = [VNum 2; VNum 1; VNum 0].
Proof.
  cbv zeta. split_and!; try (by vm_compute);
    apply list_elem_of_In; vm_compute; tauto.
Qed.

(** * Every run of a body is accounted for

    Over any stretch of a run, the body of a computation [c] is reached as
    many times as [c] was listed in a delivery or called by name (at
    creation, or by the getter of a dirty computed). *)
Definition count_in (c : comp) (l : list func) : nat :=
  length (filter (λ f, f = Comp c) l).
Definition body_count (c : comp) (evs : list event) : nat :=
  length (filter (λ e, e = EvBody c) evs).
Definition direct_count (c : comp) (evs : list event) : nat :=
  length (filter (λ e, e = EvDirect c) evs).
Fixpoint delivered (c : comp) (evs : list event) : nat :=
  match evs with
  | [] => 0
  | EvNotify _ l :: evs => count_in c l + delivered c evs
  | _ :: evs => delivered c evs
  end.

Definition wone (c c' : comp) : Z := if decide (c' = c) then 1%Z else 0%Z.
Definition balance (c : comp) (evs : list event) : Z :=
  (Z.of_nat (body_count c evs) - Z.of_nat (delivered c evs)
   - Z.of_nat (direct_count c evs))%Z.

Lemma wsum_count c l : wsum (wone c) l = Z.of_nat (count_in c l).
Proof.
  unfold count_in. induction l as [|f l IH]; [done|]. simpl. rewrite IH.
  rewrite filter_cons. destruct (decide (f = Comp c)) as [->|Hne]; simpl.
  - unfold wone. rewrite decide_True by done. lia.
  - destruct f as [f|c']; simpl; [lia|].
    unfold wone. rewrite decide_False by congruence. lia.
Qed.

Lemma balance_nil c : balance c [] = 0%Z.
Proof. done. Qed.

Lemma body_count_app c l1 l2 : body_count c (l1 ++ l2) = body_count c l1 + body_count c l2.
Proof. unfold body_count. by rewrite filter_app, length_app. Qed.

Lemma direct_count_app c l1 l2 :
  direct_count c (l1 ++ l2) = direct_count c l1 + direct_count c l2.
Proof. unfold direct_count. by rewrite filter_app, length_app. Qed.

Lemma delivered_app c l1 l2 : delivered c (l1 ++ l2) = delivered c l1 + delivered c l2.
Proof.
  induction l1 as [|e l1 IH]; [done|]. destruct e; simpl; try done. lia.
Qed.

Lemma balance_app c l1 l2 : balance c (l1 ++ l2) = (balance c l1 + balance c l2)%Z.
Proof.
  unfold balance. rewrite body_count_app, direct_count_app, delivered_app. lia.
Qed.

Lemma balance_cons c e l :
  balance c (e :: l) = (balance c [e] + balance c l)%Z.
Proof. apply (balance_app c [e] l). Qed.

(** The events that do not count. *)
Definition plain_event (e : event) : Prop :=
  match e with
  | EvBody _ | EvNotify _ _ | EvDirect _ => False
  | _ => True
  end.

Lemma balance_plain c evs : Forall plain_event evs → balance c evs = 0%Z.
Proof.
  induction 1 as [|e evs He _ IH]; [done|].
  rewrite balance_cons, IH. by destruct e.
Qed.

Lemma prim_events st st' :
  prim st st' → ∃ evs, trace st' = evs ++ trace st ∧ Forall plain_event evs.
Proof.
  destruct 1; try (by exists []); try (by eexists [_]; split; [done|repeat constructor]).
  - exists (if decide (k < length (keys st)) then [EvTrack a k] else []).
    rewrite trace_track. case_decide; split; try done; repeat constructor.
  - exists [EvUnsub c]. rewrite trace_unsubscribe_all. split; [done|repeat constructor].
Qed.

Definition accounted (c : comp) (w : Z) (st st' : store) : Prop :=
  ∃ evs, trace st' = evs ++ trace st ∧ balance c evs = w.

Lemma accounted_refl c st : accounted c 0 st st.
Proof. by exists []. Qed.

Lemma accounted_trans c i j s1 s2 s3 :
  accounted c i s1 s2 → accounted c j s2 s3 → accounted c (i + j) s1 s3.
Proof.
  intros (e1 & T1 & B1) (e2 & T2 & B2). exists (e2 ++ e1). split.
  - by rewrite T2, T1, (assoc_L (++)).
  - rewrite balance_app. lia.
Qed.

Lemma accounted_log c e st : accounted c (balance c [e]) st (log e st).
Proof. by exists [e]. Qed.

Lemma comp_exists_grows c st st' : grows st st' → comp_exists c st → comp_exists c st'.
Proof.
  intros [_ E C _ _ _]. destruct c as [e|m]; simpl; intros Hlt.
  - destruct (lookup_lt_is_Some_2 _ _ Hlt) as [x Hx].
    destruct (E _ _ Hx) as (x' & Hx' & _). by eapply lookup_lt_Some.
  - destruct (lookup_lt_is_Some_2 _ _ Hlt) as [x Hx].
    destruct (C _ _ Hx) as (x' & Hx' & _). by eapply lookup_lt_Some.
Qed.

Lemma body_count_cons c e l :
  body_count c (e :: l) = (if decide (e = EvBody c) then 1 else 0) + body_count c l.
Proof. unfold body_count. rewrite filter_cons. by case_decide. Qed.

Lemma direct_count_cons c e l :
  direct_count c (e :: l) = (if decide (e = EvDirect c) then 1 else 0) + direct_count c l.
Proof. unfold direct_count. rewrite filter_cons. by case_decide. Qed.

Lemma balance_one c e :
  balance c [e] =
  match e with
  | EvBody c0 => wone c c0
  | EvDirect c0 => (- wone c c0)%Z
  | EvNotify _ l => (- Z.of_nat (count_in c l))%Z
  | _ => 0%Z
  end.
Proof.
  unfold balance. rewrite body_count_cons, direct_count_cons.
  change (body_count c []) with 0. change (direct_count c []) with 0.
  destruct e as [| |c0| | |c0|]; try done; simpl.
  - unfold wone. destruct (decide (c0 = c)) as [->|Hne].
    + by rewrite decide_True.
    + rewrite decide_False by congruence. done.
  - lia.
  - unfold wone. destruct (decide (c0 = c)) as [->|Hne].
    + by rewrite decide_True.
    + rewrite decide_False by congruence. done.
Qed.

Lemma accounted_prim c st st' :
  prim st st' → comp_exists c st → comp_exists c st' ∧ accounted c 0 st st'.
Proof.
  intros Hp HI. split; [by eapply comp_exists_grows; [apply grows_prim|]|].
  apply prim_events in Hp as (evs & Ht & Hb%(balance_plain c)). by exists evs.
Qed.

Lemma accounted_cprim c c0 st st' :
  cprim c0 st st' → comp_exists c st → comp_exists c st' ∧ accounted c 0 st st'.
Proof.
  intros [args st0|st0] HI; (split; [exact HI|]).
  - by eexists [_].
  - by exists [].
Qed.

Lemma accounted_notify c st k :
  comp_exists c st →
  comp_exists c (log (EvNotify k (key_subs k st)) st) ∧
  accounted c (- wsum (wone c) (key_subs k st)) st (log (EvNotify k (key_subs k st)) st).
Proof.
  intros HI. split; [exact HI|]. eexists [_]. split; [done|].
  by rewrite balance_one, wsum_count.
Qed.

Lemma accounted_body c c0 st :
  comp_exists c st →
  comp_exists c (log (EvBody c0) st) ∧ accounted c (wone c c0) st (log (EvBody c0) st).
Proof.
  intros HI. split; [exact HI|]. eexists [_]. split; [done|].
  by rewrite balance_one.
Qed.

Lemma accounted_direct c c0 st :
  comp_exists c st →
  comp_exists c (log (EvDirect c0) st) ∧
  accounted c (- wone c c0) st (log (EvDirect c0) st).
Proof.
  intros HI. split; [exact HI|]. eexists [_]. split; [done|].
  by rewrite balance_one.
Qed.

Lemma accounted_create_effect c f st :
  comp_exists c st →
  let c0 := Runner (length (effects st)) in
  let st' := log (EvDirect c0) (upd_effects (λ l, l ++ [Effect f None]) st) in
  True ∧ comp_exists c st' ∧ accounted c (- wone c c0) st st'.
Proof.
  intros HI c0 st'. destruct (accounted_prim c _ _ (prim_alloc_effect f st) HI) as [HI1 HR1].
  destruct (accounted_direct c c0 _ HI1) as [HI2 HR2]. split_and!; [done|done|].
  change (- wone c c0)%Z with (0 + - wone c c0)%Z. by eapply accounted_trans.
Qed.

Lemma accounted_create_computed c f st :
  comp_exists c st →
  let c0 := Recompute (length (computeds st)) in
  let st' := log (EvDirect c0)
               (upd_computeds (λ l, l ++ [Computed f VUndef true None]) st) in
  True ∧ comp_exists c st' ∧ accounted c (- wone c c0) st st'.
Proof.
  intros HI c0 st'.
  destruct (accounted_prim c _ _ (prim_alloc_computed f st) HI) as [HI1 HR1].
  destruct (accounted_direct c c0 _ HI1) as [HI2 HR2]. split_and!; [done|done|].
  change (- wone c c0)%Z with (0 + - wone c c0)%Z. by eapply accounted_trans.
Qed.

Lemma accounted_exists c c0 st : comp_exists c st → comp_exists c0 st ∨ wone c c0 = 0%Z.
Proof.
  intros HI. unfold wone. destruct (decide (c0 = c)) as [->|]; [by left|by right].
Qed.

Theorem accounted_call code n c f args st r st' :
  comp_exists c st → call code n f args st = Some (r, st') →
  ∃ evs, trace st' = evs ++ trace st ∧
    Z.of_nat (body_count c evs)
    = (Z.of_nat (delivered c evs) + Z.of_nat (direct_count c evs)
       + wfunc (wone c) f)%Z.
Proof.
  intros HI Hc.
  assert (comp_exists c st' ∧ accounted c (wfunc (wone c) f) st st') as [_ (evs & Ht & Hb)].
  { eapply (sat_call code (comp_exists c) (accounted c) (λ _, True) (wone c));
      try eassumption;
      eauto using accounted_refl, accounted_trans, accounted_prim, accounted_cprim,
        accounted_notify, accounted_body, accounted_exists, accounted_create_effect,
        accounted_create_computed.
    - intros st0 c0 HI0 _. split; [done|]. by apply accounted_direct.
    - by destruct f. }
  exists evs. split; [done|]. unfold balance in Hb. lia.
Qed.

(** For an effect that exists, the call by name happened at its creation:
    from then on its body is reached once per listing in a delivery. *)
Definition effect_accounted (e : nat) (w : Z) (st st' : store) : Prop :=
  ∃ evs, trace st' = evs ++ trace st ∧
    (Z.of_nat (body_count (Runner e) evs)
     - Z.of_nat (delivered (Runner e) evs))%Z = w ∧
    direct_count (Runner e) evs = 0.

Lemma effect_accounted_refl e st : effect_accounted e 0 st st.
Proof. by exists []. Qed.

Lemma effect_accounted_trans e i j s1 s2 s3 :
  effect_accounted e i s1 s2 → effect_accounted e j s2 s3 →
  effect_accounted e (i + j) s1 s3.
Proof.
  intros (e1 & T1 & B1 & D1) (e2 & T2 & B2 & D2). exists (e2 ++ e1). split_and!.
  - by rewrite T2, T1, (assoc_L (++)).
  - rewrite body_count_app, delivered_app. lia.
  - rewrite direct_count_app. lia.
Qed.

(** One event that is not the call of [e] by name. *)
Lemma effect_accounted_log e ev st :
  ev ≠ EvDirect (Runner e) →
  effect_accounted e (balance (Runner e) [ev]) st (log ev st).
Proof.
  intros Hne. exists [ev].
  assert (direct_count (Runner e) [ev] = 0) as Hd.
  { rewrite direct_count_cons. by rewrite decide_False. }
  split_and!; [done| |done]. unfold balance. rewrite Hd. lia.
Qed.

Lemma effect_accounted_plain e st st' evs :
  trace st' = evs ++ trace st → Forall plain_event evs →
  effect_accounted e 0 st st'.
Proof.
  intros Ht Hp. exists evs.
  assert (direct_count (Runner e) evs = 0) as Hd.
  { clear Ht. induction Hp as [|ev evs Hev _ IH]; [done|].
    rewrite direct_count_cons, IH. rewrite decide_False; [done|]. by intros ->. }
  split_and!; [done| |done].
  apply (balance_plain (Runner e)) in Hp. unfold balance in Hp. lia.
Qed.

Lemma effect_accounted_prim e st st' :
  prim st st' → e < length (effects st) →
  e < length (effects st') ∧ effect_accounted e 0 st st'.
Proof.
  intros Hp HI. split.
  - by apply (comp_exists_grows (Runner e) st st'); [apply grows_prim|].
  - apply prim_events in Hp as (evs & Ht & Hpl). by eapply effect_accounted_plain.
Qed.

Lemma effect_accounted_cprim e c st st' :
  cprim c st st' → e < length (effects st) →
  e < length (effects st') ∧ effect_accounted e 0 st st'.
Proof.
  intros [args0 st1|st1] HI0; (split; [exact HI0|]).
  - by eapply (effect_accounted_plain e _ _ [_]); [|repeat constructor].
  - by apply (effect_accounted_plain e _ _ []).
Qed.

Lemma effect_accounted_notify e st k :
  e < length (effects st) →
  e < length (effects (log (EvNotify k (key_subs k st)) st)) ∧
  effect_accounted e (- wsum (wone (Runner e)) (key_subs k st)) st
    (log (EvNotify k (key_subs k st)) st).
Proof.
  intros HI0. split; [exact HI0|].
  rewrite wsum_count, <-(balance_one (Runner e) (EvNotify k (key_subs k st))).
  by apply effect_accounted_log.
Qed.

Lemma effect_accounted_body e c st :
  e < length (effects st) →
  e < length (effects (log (EvBody c) st)) ∧
  effect_accounted e (wone (Runner e) c) st (log (EvBody c) st).
Proof.
  intros HI0. split; [exact HI0|].
  rewrite <-(balance_one (Runner e) (EvBody c)). by apply effect_accounted_log.
Qed.

Lemma effect_accounted_create_effect e f st :
  e < length (effects st) →
  let c := Runner (length (effects st)) in
  let st' := log (EvDirect c) (upd_effects (λ l, l ++ [Effect f None]) st) in
  True ∧ e < length (effects st') ∧ effect_accounted e (- wone (Runner e) c) st st'.
Proof.
  intros HI0 c st1. split_and!; [done|simpl; rewrite length_app; lia|].
  destruct (effect_accounted_prim e _ _ (prim_alloc_effect f st) HI0) as [HI1 HR1].
  change (- wone (Runner e) c)%Z with (0 + - wone (Runner e) c)%Z.
  eapply effect_accounted_trans; [exact HR1|].
  rewrite <-(balance_one (Runner e) (EvDirect c)). apply effect_accounted_log.
  subst c. intros [= Heq]. lia.
Qed.

Lemma effect_accounted_create_computed e f st :
  e < length (effects st) →
  let c := Recompute (length (computeds st)) in
  let st' := log (EvDirect c)
               (upd_computeds (λ l, l ++ [Computed f VUndef true None]) st) in
  True ∧ e < length (effects st') ∧ effect_accounted e (- wone (Runner e) c) st st'.
Proof.
  intros HI0 c st1. split_and!; [done|done|].
  destruct (effect_accounted_prim e _ _ (prim_alloc_computed f st) HI0) as [HI1 HR1].
  change (- wone (Runner e) c)%Z with (0 + - wone (Runner e) c)%Z.
  eapply effect_accounted_trans; [exact HR1|].
  rewrite <-(balance_one (Runner e) (EvDirect c)). by apply effect_accounted_log.
Qed.

Lemma effect_accounted_getter e st c :
  e < length (effects st) → c < length (computeds st) →
  True ∧ e < length (effects (log (EvDirect (Recompute c)) st)) ∧
  effect_accounted e (- wone (Runner e) (Recompute c)) st
    (log (EvDirect (Recompute c)) st).
Proof.
  intros HI0 _. split_and!; [done|done|].
  rewrite <-(balance_one (Runner e) (EvDirect (Recompute c))).
  by apply effect_accounted_log.
Qed.

Lemma effect_accounted_exists e st c :
  e < length (effects st) → True → comp_exists c st ∨ wone (Runner e) c = 0%Z.
Proof.
  intros HI0 _. unfold wone. destruct (decide (c = Runner e)) as [->|]; auto.
Qed.

Lemma effect_accounted_call code n e f args st r st' :
  e < length (effects st) → call code n f args st = Some (r, st') →
  e < length (effects st') ∧ effect_accounted e (wfunc (wone (Runner e)) f) st st'.
Proof.
  intros HI Hc.
  eapply (sat_call code (λ st, e < length (effects st)) (effect_accounted e)
            (λ _, True) (wone (Runner e)));
    try eassumption;
    eauto using effect_accounted_refl, effect_accounted_trans, effect_accounted_prim,
      effect_accounted_cprim, effect_accounted_notify, effect_accounted_body,
      effect_accounted_create_effect, effect_accounted_create_computed,
      effect_accounted_getter, effect_accounted_exists.
  by destruct f.
Qed.


Lemma delivered_no_notify c evs : (∀ k l, EvNotify k l ∉ evs) → delivered c evs = 0.
Proof.
  induction evs as [|ev evs IH]; [done|]. intros Hno.
  assert (delivered c evs = 0) as Hrest.
  { apply IH. intros k l Hin. apply (Hno k l). by right. }
  destruct ev; simpl; try done. exfalso. eapply Hno. by left.
Qed.

Lemma count_in_cons c f l :
  count_in c (f :: l) = (if decide (f = Comp c) then 1 else 0) + count_in c l.
Proof. unfold count_in. rewrite filter_cons. by case_decide. Qed.

Lemma count_in_notin c l : Comp c ∉ l → count_in c l = 0.
Proof.
  induction l as [|f l IH]; [done|]. rewrite not_elem_of_cons. intros [Hne Hl].
  rewrite count_in_cons, IH by done. by rewrite decide_False.
Qed.

Lemma count_in_NoDup c l : NoDup l → Comp c ∈ l → count_in c l = 1.
Proof.
  induction 1 as [|f l Hf Hl IH]; [by intros ?%elem_of_nil|].
  rewrite count_in_cons. intros [<-|Hin]%elem_of_cons.
  - rewrite decide_True by done. by rewrite count_in_notin.
  - rewrite IH by done. rewrite decide_False; [done|]. by intros ->.
Qed.

(** A run cycle returns undefined: whatever the body or the cleanup throw
    is caught inside. *)
Lemma run_cleanup_ok code m cl report st r st' :
  run_cleanup (call code m) cl report st = Some (r, st') → r = Ok tt.
Proof.
  destruct cl as [f|]; simpl; [|by intros [= <- _]].
  unfold try_catch, bind.
  destruct (call code m (Pub f) [] st) as [[[v|e] st1]|]; [| |done].
  - by intros [= <- _].
  - unfold modify. by intros [= <- _].
Qed.

Lemma cycle_ok code n c st r st' : cycle code n c st = Some (r, st') → r = Ok VUndef.
Proof.
  destruct c as [e|c]; simpl.
  - unfold runner_cycle. unfold bind at 1, gets at 1. unfold bind at 1.
    destruct (run_cleanup _ _ _ _) as [[r1 st1]|] eqn:E1; [|done].
    apply run_cleanup_ok in E1 as ->.
    unfold bind at 1, modify at 1. unfold bind at 1, modify at 1.
    unfold bind at 1, try_finally, try_catch.
    match goal with |- context [bind ?m ?k ?s] => destruct (bind m k s) as [[[v|err] st2]|] end;
      [by intros [= <- _]| |done].
    unfold modify. by intros [= <- _].
  - unfold recompute_cycle. unfold bind at 1, gets at 1. unfold bind at 1.
    destruct (run_cleanup _ _ _ _) as [[r1 st1]|] eqn:E1; [|done].
    apply run_cleanup_ok in E1 as ->.
    unfold bind at 1, modify at 1. unfold bind at 1, modify at 1.
    unfold bind at 1, try_finally, try_catch.
    match goal with |- context [bind ?m ?k ?s] => destruct (bind m k s) as [[[v|err] st2]|] end;
      [by intros [= <- _]| |done].
    unfold modify. by intros [= <- _].
Qed.

Lemma call_comp_ok code n c args st r st' :
  call code n (Comp c) args st = Some (r, st') → r = Ok VUndef.
Proof.
  intros (m & -> & Hd)%call_Some. destruct c as [e|c]; simpl in Hd.
  - unfold runner, bind, gets in Hd. simpl in Hd.
    destruct (effects st !! e); [|by injection Hd as <-].
    by apply (cycle_ok code m (Runner e)) in Hd.
  - unfold recompute, bind, gets in Hd. simpl in Hd.
    destruct (computeds st !! c); [|by injection Hd as <-].
    by apply (cycle_ok code m (Recompute c)) in Hd.
Qed.

(** createEffect(fn), for a function: what it returns and records. *)
Lemma createEffect_cases code n f st r st' :
  createEffect (call code n) (VFun f) st = Some (r, st') →
  let e := length (effects st) in
  let st1 := log (EvDirect (Runner e)) (upd_effects (λ l, l ++ [Effect f None]) st) in
  r = Ok (VFun (FDisposer e)) ∧
  call code n (Comp (Runner e)) [] st1 = Some (Ok VUndef, st').
Proof.
  simpl. unfold bind at 1, alloc_effect. unfold bind at 1, modify at 1.
  unfold bind at 1.
  destruct (call code n _ _ _) as [[r1 st2]|] eqn:E; [|done].
  apply call_comp_ok in E as Hr. subst r1. by intros [= <- <-].
Qed.

(** The events of a write set(v) that delivers, split at the delivery. *)
Lemma effect_accounted_write code n e s v st r st' :
  wf st → e < length (effects st) → s < length (keys st) →
  is_function v = false → v ≠ key_value s st → subscribed (Runner e) s st →
  call code n (Pub (FSet s)) [v] st = Some (r, st') →
  ∃ evs, trace st' = evs ++ EvNotify s (key_subs s st)
                         :: EvEnter (Pub (FSet s)) [v] :: trace st ∧
    body_count (Runner e) evs = 1 + delivered (Runner e) evs.
Proof.
  intros [_ Hnd] He Hs Hv Hne Hsub Hc.
  destruct (set_delivers _ _ _ _ _ _ _ Hs Hv Hne Hc) as (evs & Ht & _ & _).
  exists evs. split; [done|].
  destruct (effect_accounted_call _ _ _ _ _ _ _ _ He Hc) as (_ & evs' & Ht' & Hb & _).
  assert (evs' = evs ++ [EvNotify s (key_subs s st); EvEnter (Pub (FSet s)) [v]]) as ->.
  { apply (app_inv_tail (trace st)). rewrite <-Ht', Ht. by rewrite <-(assoc_L (++)). }
  rewrite body_count_app, delivered_app in Hb. simpl in Hb.
  rewrite (count_in_NoDup (Runner e) (key_subs s st)) in Hb by (by auto).
  change (body_count (Runner e) [_; _]) with 0 in Hb. lia.
Qed.

(** C6: createEffect(fn) returns the disposer after having called the
    runner once by name: over the call the body is reached once, plus once
    per delivery that a write made to the effect in between, so exactly
    once when no write delivered in between. Afterwards, over any call the
    body is reached exactly as many times as deliveries listed the effect;
    a write that changes a signal to which the effect is subscribed lists
    it once, so that the body is reached once for that write, plus once for
    each delivery that a write nested in it makes to the effect. *)
Theorem effect_runs_once_per_delivery code n f st r st' :
  createEffect (call code n) (VFun f) st = Some (r, st') →
  let e := length (effects st) in
  r = Ok (VFun (FDisposer e)) ∧ e < length (effects st') ∧
  (∃ evs, trace st' = evs ++ trace st ∧
     body_count (Runner e) evs = 1 + delivered (Runner e) evs ∧
     ((∀ k l, EvNotify k l ∉ evs) → body_count (Runner e) evs = 1)) ∧
  (∀ st2 m g args r3 st3,
     e < length (effects st2) →
     call code m (Pub g) args st2 = Some (r3, st3) →
     ∃ evs, trace st3 = evs ++ trace st2 ∧
       body_count (Runner e) evs = delivered (Runner e) evs) ∧
  (∀ st2 m s v r3 st3,
     wf st2 → e < length (effects st2) → s < length (keys st2) →
     is_function v = false → v ≠ key_value s st2 → subscribed (Runner e) s st2 →
     call code m (Pub (FSet s)) [v] st2 = Some (r3, st3) →
     ∃ evs, trace st3 = evs ++ EvNotify s (key_subs s st2)
                            :: EvEnter (Pub (FSet s)) [v] :: trace st2 ∧
       body_count (Runner e) evs = 1 + delivered (Runner e) evs).
Proof.
  intros Hc e. apply createEffect_cases in Hc as [-> Hc]. fold e in Hc.
  set (st1 := log (EvDirect (Runner e)) _) in Hc.
  assert (e < length (effects st1)) as He1.
  { subst st1. simpl. rewrite length_app. simpl. lia. }
  destruct (effect_accounted_call _ _ _ _ _ _ _ _ He1 Hc) as (He' & evs & Ht & Hb & Hd).
  simpl in Hb. unfold wone in Hb. rewrite decide_True in Hb by done.
  split_and!; [done|done| | |].
  - exists (evs ++ [EvDirect (Runner e)]).
    assert (body_count (Runner e) (evs ++ [EvDirect (Runner e)])
            = 1 + delivered (Runner e) (evs ++ [EvDirect (Runner e)])) as Hcount.
    { rewrite body_count_app, delivered_app. simpl.
      change (body_count (Runner e) [_]) with 0. lia. }
    split_and!; [by rewrite Ht, <-(assoc_L (++))|done|].
    intros Hno. rewrite Hcount, delivered_no_notify; done.
  - intros st2 m g args r3 st3 He2 Hc2.
    destruct (effect_accounted_call _ _ _ _ _ _ _ _ He2 Hc2) as (_ & evs2 & Ht2 & Hb2 & _).
    exists evs2. split; [done|]. simpl in Hb2. lia.
  - intros st2 m s v r3 st3. apply effect_accounted_write.
Qed.

(** const [get, set] = createSignal(0); let seen = [];
    createEffect(() => seen.push(get())); set(1); set(2) *)
Definition seen_script : prog :=
  CreateSignal (VNum 0) (λ s,
    CreateEffect (VFun (FUser 0)) (λ _,
    js_set s (VNum 1) (js_set s (VNum 2) (Ret VUndef)))).

(** The scenario of C6: seen is [0, 1, 2] (the output is newest first). *)
Example seen_scenario :
  out (after seen_code 5 seen_script) = [VNum 2; VNum 1; VNum 0] ∧
  body_count (Runner 0) (trace (after seen_code 5 seen_script)) = 3.
Proof. split; by vm_compute. Qed.

Lemma effect_runs_once_per_delivery_witness :
  let st := after seen_code 5 one_signal in
  let st' := result_store (createEffect (call seen_code 5) (VFun (FUser 0)) st) in
  createEffect (call seen_code 5) (VFun (FUser 0)) st
    = Some (Ok (VFun (FDisposer 0)), st') ∧
  ∃ evs, trace st' = evs ++ trace st ∧
    body_count (Runner 0) evs = 1 + delivered (Runner 0) evs ∧
    ((∀ k l, EvNotify k l ∉ evs) → body_count (Runner 0) evs = 1).
Proof.
  intros st st'.
  assert (createEffect (call seen_code 5) (VFun (FUser 0)) st
          = Some (Ok (VFun (FDisposer 0)), st')) as Hc by (by vm_compute).
  split; [exact Hc|].
  destruct (effect_runs_once_per_delivery seen_code 5 (FUser 0) st _ st' Hc)
    as (_ & _ & Hev & _).
  exact Hev.
Defined.

(** * Computed values *)

Definition computed_dirty (c : nat) (st : store) : bool :=
  from_option m_dirty false (computeds st !! c).
Definition computed_cached (c : nat) (st : store) : value :=
  from_option m_cached VUndef (computeds st !! c).

(** The getter of a computed that is not dirty returns the cached value and
    records nothing but its own entry. *)
Lemma getter_clean code n c st :
  computed_dirty c st = false →
  call code (S n) (Pub (FGetter c)) [] st
  = Some (Ok (computed_cached c st), log (EvEnter (Pub (FGetter c)) []) st).
Proof.
  intros Hd. rewrite call_S. simpl. unfold getter, bind, gets.
  change (computeds (log ?e st)) with (computeds st).
  unfold computed_dirty in Hd. by rewrite Hd.
Qed.

Lemma trace_run_cleanup code n cl report st r st' :
  (∀ err st, prim st (report err st)) →
  run_cleanup (call code n) cl report st = Some (r, st') →
  ∃ evs, trace st' = evs ++ trace st.
Proof.
  intros Hrep Hc. apply frame_trace.
  eapply (holds_run_cleanup code (λ _, True) frame (λ _, True));
    eauto using frame_refl, frame_trans; try solve [frame_side].
Qed.

Lemma length_computeds_grows st st' :
  grows st st' → length (computeds st) ≤ length (computeds st').
Proof.
  intros [_ _ C _ _ _]. destruct (computeds st) as [|x l] eqn:E using rev_ind; [simpl; lia|].
  destruct (C (length l) x) as (x' & Hx' & _).
  - by rewrite lookup_app_r, Nat.sub_diag by lia.
  - apply lookup_lt_Some in Hx'. rewrite length_app. simpl. lia.
Qed.

(** A run cycle of a computed reaches the body, and ends with the computed
    clean unless the body threw, which is then reported. *)
Lemma recompute_outcome code n c st r st' :
  c < length (computeds st) →
  recompute_cycle (call code n) c st = Some (r, st') →
  ∃ evs, trace st' = evs ++ trace st ∧ EvBody (Recompute c) ∈ evs ∧
    (computed_dirty c st' = false ∨
     ∃ e, EvConsoleError [VStr "createComputed error"; e] ∈ evs).
Proof.
  intros Hc Hrun.
  assert (c < length (computeds st')) as Hc'.
  { eapply Nat.lt_le_trans; [exact Hc|]. apply length_computeds_grows.
    exact (grows_cycle code n (Recompute c) st r st' Hrun). }
  revert Hrun. unfold recompute_cycle. unfold bind at 1, gets at 1. unfold bind at 1.
  destruct (run_cleanup _ _ _ _) as [[r1 st1]|] eqn:E1; [|done].
  apply run_cleanup_ok in E1 as Hr1. subst r1.
  apply trace_run_cleanup in E1 as [ev1 Ht1]; [|intros; apply prim_id].
  unfold bind at 1, modify at 1. unfold bind at 1, modify at 1.
  unfold bind at 1, try_finally, try_catch.
  unfold bind at 1, gets at 1. unfold bind at 1, modify at 1. unfold bind at 1.
  match goal with |- context [call code n ?f ?a ?s] =>
    destruct (call code n f a s) as [[[v|err] st2]|] eqn:E2 end; [| |done].
  - apply trace_call in E2 as [ev2 Ht2].
    match type of Ht2 with context [EvEnter (Pub ?g) []] => set (fnx := g) in * end.
    unfold bind at 1.
    assert (∃ st3, (match v with
                    | VFun cl => modify (set_computed_cleanup c (Some cl))
                    | _ => modify (set_cached c v)
                    end) st2 = Some (Ok tt, st3) ∧ trace st3 = trace st2 ∧
                   length (computeds st3) = length (computeds st2)) as (st3 & -> & Ht3 & Hl3).
    { destruct v; eexists; (split; [reflexivity|]); simpl;
        by rewrite length_alter. }
    unfold modify. intros [= <- <-].
    exists (ev2 ++ EvEnter (Pub fnx) [] :: EvBody (Recompute c) :: ev1). split_and!.
    + simpl. rewrite Ht3, Ht2. simpl. rewrite Ht1.
      by rewrite <-(assoc_L (++)).
    + rewrite elem_of_app, !elem_of_cons. auto.
    + left. unfold computed_dirty. simpl in *. rewrite length_alter in Hc'.
      rewrite list_lookup_alter_eq.
      destruct (lookup_lt_is_Some_2 _ _ Hc') as [x ->]. done.
  - apply trace_call in E2 as [ev2 Ht2].
    match type of Ht2 with context [EvEnter (Pub ?g) []] => set (fnx := g) in * end.
    unfold modify. intros [= <- <-].
    exists (EvConsoleError [VStr "createComputed error"; err] :: ev2
            ++ EvEnter (Pub fnx) [] :: EvBody (Recompute c) :: ev1). split_and!.
    + simpl. rewrite Ht2. simpl. rewrite Ht1. by rewrite <-(assoc_L (++)).
    + rewrite elem_of_cons, elem_of_app, !elem_of_cons. auto.
    + right. exists err. by left.
Qed.

Lemma computeds_unsubscribe_all c st : computeds (unsubscribe_all c st) = computeds st.
Proof.
  unfold unsubscribe_all. simpl. destruct (deps st !! c) as [l|]; simpl; [|done].
  fold (unsub_loop c l (log (EvUnsub c) st)). by rewrite unsub_loop_keys.
Qed.

Lemma computed_dirty_lt c st : computed_dirty c st = true → c < length (computeds st).
Proof.
  unfold computed_dirty. destruct (computeds st !! c) eqn:E; [|done].
  intros _. by eapply lookup_lt_Some.
Qed.

(** The getter of a dirty computed runs a cycle and returns what is cached
    then. *)
Lemma getter_dirty code n c st r st1 :
  computed_dirty c st = true →
  call code n (Pub (FGetter c)) [] st = Some (r, st1) →
  r = Ok (computed_cached c st1) ∧
  ∃ evs, trace st1 = evs ++ trace st ∧ EvBody (Recompute c) ∈ evs ∧
    (computed_dirty c st1 = false ∨
     ∃ e, EvConsoleError [VStr "createComputed error"; e] ∈ evs).
Proof.
  intros Hd (m & -> & Hc)%call_Some. simpl in Hc.
  apply computed_dirty_lt in Hd as Hlt.
  unfold getter in Hc. unfold bind at 1, gets at 1 in Hc.
  change (computeds (log ?e st)) with (computeds st) in Hc.
  unfold computed_dirty in Hd. rewrite Hd in Hc.
  unfold bind at 1 in Hc. unfold bind at 1, modify at 1 in Hc.
  destruct (call code m (Comp (Recompute c)) [] _) as [[r1 st2]|] eqn:E; [|done].
  apply call_comp_ok in E as Hr. subst r1. unfold gets in Hc. injection Hc as <- <-.
  split; [done|].
  apply call_comp in E as (m' & -> & Hcyc); [|done].
  apply recompute_outcome in Hcyc as (evs & Ht & Hb & Hout).
  - exists (evs ++ [EvUnsub (Recompute c); EvEnter (Comp (Recompute c)) [];
                    EvDirect (Recompute c); EvEnter (Pub (FGetter c)) []]).
    split_and!.
    + rewrite Ht, trace_unsubscribe_all. by rewrite <-(assoc_L (++)).
    + apply elem_of_app. auto.
    + destruct Hout as [?|[e He]]; [by left|]. right. exists e.
      apply elem_of_app. auto.
  - by rewrite computeds_unsubscribe_all.
Qed.

Lemma computed_stays_clean st st' c :
  grows st st' → c < length (computeds st) →
  computed_dirty c st = false → computed_dirty c st' = false.
Proof.
  intros [_ _ C _ _ _] Hlt. unfold computed_dirty.
  destruct (lookup_lt_is_Some_2 _ _ Hlt) as [x Hx]. rewrite Hx. simpl.
  destruct (C _ _ Hx) as (x' & -> & _ & Hd). exact Hd.
Qed.

(** C3 (as amended): for a computed [c] that is clean (its function has
    returned normally once), the getter returns the cached value without
    running the function, however often it is called, and no call of any
    function makes [c] dirty again. The getter of a dirty computed runs the
    function and returns what is cached then; [c] is clean afterwards,
    so that the next call does not run the function, unless the function
    threw, which is reported. Over any call, the function of [c] runs as
    many times as [c] was listed in a delivery or called by name. *)
Theorem computed_caches code c st :
  c < length (computeds st) →
  (computed_dirty c st = false → ∀ n m,
     let st1 := log (EvEnter (Pub (FGetter c)) []) st in
     call code (S n) (Pub (FGetter c)) [] st = Some (Ok (computed_cached c st), st1) ∧
     call code (S m) (Pub (FGetter c)) [] st1
     = Some (Ok (computed_cached c st), log (EvEnter (Pub (FGetter c)) []) st1)) ∧
  (computed_dirty c st = true → ∀ n r st1,
     call code n (Pub (FGetter c)) [] st = Some (r, st1) →
     r = Ok (computed_cached c st1) ∧
     (∃ evs, trace st1 = evs ++ trace st ∧ EvBody (Recompute c) ∈ evs ∧
        (computed_dirty c st1 = false ∨
         ∃ e, EvConsoleError [VStr "createComputed error"; e] ∈ evs)) ∧
     (computed_dirty c st1 = false → ∀ m,
        call code (S m) (Pub (FGetter c)) [] st1
        = Some (Ok (computed_cached c st1), log (EvEnter (Pub (FGetter c)) []) st1))) ∧
  (∀ n f args r st',
     call code n f args st = Some (r, st') →
     (computed_dirty c st = false → computed_dirty c st' = false) ∧
     ∃ evs, trace st' = evs ++ trace st ∧
       Z.of_nat (body_count (Recompute c) evs)
       = (Z.of_nat (delivered (Recompute c) evs)
          + Z.of_nat (direct_count (Recompute c) evs)
          + wfunc (wone (Recompute c)) f)%Z).
Proof.
  intros Hlt. split_and!.
  - intros Hd n m st1. split; [by apply getter_clean|].
    by apply (getter_clean code m c st1).
  - intros Hd n r st1 Hc. destruct (getter_dirty _ _ _ _ _ _ Hd Hc) as [-> Hev].
    split_and!; [done|done|]. intros Hd1 m. by apply getter_clean.
  - intros n f args r st' Hc. split.
    + apply computed_stays_clean; [by eapply grows_call|done].
    + by apply (accounted_call code n (Recompute c) f args st r st').
Qed.

(** const [g, s] = createSignal(5); const comp = createComputed(() => g() * 2);
    out.push(comp()); s(7); out.push(comp()) *)
Definition double_code (n : nat) (args : list value) : prog :=
  match n with
  | 0 => js_get 0 (λ v, match v with VNum z => Ret (VNum (z * 2)) | _ => Ret VUndef end)
  | _ => Ret VUndef
  end.
Definition double_script : prog :=
  CreateSignal (VNum 5) (λ s,
    CreateComputed (VFun (FUser 0)) (λ comp,
    Call comp [] (λ a, Emit a
      (js_set s (VNum 7) (Call comp [] (λ b, Emit b (Ret VUndef))))))).

(** The scenario of C3: the getter returns 10, and 14 after set(7); the
    function ran twice in all, at creation and for the write. *)
Example double_scenario :
  out (after double_code 6 double_script) = [VNum 14; VNum 10] ∧
  body_count (Recompute 0) (trace (after double_code 6 double_script)) = 2.
Proof. split; by vm_compute. Qed.

Definition double_setup : prog :=
  CreateSignal (VNum 5) (λ s, CreateComputed (VFun (FUser 0)) (λ _, Ret VUndef)).

Lemma computed_caches_witness :
  let st := after double_code 6 double_setup in
  let st1 := log (EvEnter (Pub (FGetter 0)) []) st in
  0 < length (computeds st) ∧ computed_dirty 0 st = false ∧
  call double_code 3 (Pub (FGetter 0)) [] st = Some (Ok (VNum 10), st1) ∧
  call double_code 3 (Pub (FGetter 0)) [] st1
  = Some (Ok (VNum 10), log (EvEnter (Pub (FGetter 0)) []) st1).
Proof.
  intros st st1.
  assert (0 < length (computeds st)) as Hlt by (vm_compute; lia).
  assert (computed_dirty 0 st = false) as Hd by (by vm_compute).
  split_and!; [done|done|..];
    destruct (computed_caches double_code 0 st Hlt) as (Hclean & _ & _);
    destruct (Hclean Hd 2 2) as [H1 H2].
  - exact H1.
  - exact H2.
Defined.

(** A computed whose function throws: createComputed(() => { throw "bad" }) *)
Definition throwing_code (n : nat) (args : list value) : prog :=
  match n with
  | 0 => Throw (VStr "bad")
  | _ => Ret VUndef
  end.
Definition throwing_setup : prog := CreateComputed (VFun (FUser 0)) (λ _, Ret VUndef).

(** C3, as stated, fails for a computed whose function throws: the dirty
    flag is cleared only after the function has returned, so each of two
    getter calls in a row, with no write in between, runs the function. *)
Lemma computed_throwing_counterexample :
  let st := after throwing_code 6 throwing_setup in
  let st1 := result_store (call throwing_code 6 (Pub (FGetter 0)) [] st) in
  let st2 := result_store (call throwing_code 6 (Pub (FGetter 0)) [] st1) in
  call throwing_code 6 (Pub (FGetter 0)) [] st = Some (Ok VUndef, st1) ∧
  call throwing_code 6 (Pub (FGetter 0)) [] st1 = Some (Ok VUndef, st2) ∧
  body_count (Recompute 0) (new_events st st1) = 1 ∧
  body_count (Recompute 0) (new_events st1 st2) = 1 ∧
  body_count (Recompute 0) (new_events st st2) = 2 ∧
  delivered (Recompute 0) (new_events st st2) = 0.
Proof. cbv zeta. split_and!; by vm_compute. Qed.

(** * State objects *)



Lemma lookup_alter_from_option {A B} (g : A → A) (h : A → B) (d : B) (l : list A) i j :
  (∀ x, h (g x) = h x) →
  from_option h d (alter g i l !! j) = from_option h d (l !! j).
Proof.
  intros Hg. destruct (decide (i = j)) as [->|].
  - rewrite list_lookup_alter_eq. destruct (l !! j); simpl; auto.
  - by rewrite list_lookup_alter_ne.
Qed.

Lemma props_of_upd_target t' t f st : props_of t' (upd_target t f st) = props_of t' st.
Proof. unfold props_of, upd_target. simpl. by apply lookup_alter_from_option. Qed.



Lemma target_of_upd_target t f st :
  t < length (states st) → target_of t (upd_target t f st) = f (target_of t st).
Proof.
  intros Hlt. unfold target_of, upd_target. simpl. rewrite list_lookup_alter_eq.
  destruct (lookup_lt_is_Some_2 _ _ Hlt) as [x ->]. done.
Qed.







Lemma globals_of_upd_globals t' t f st :
  globals_of t' (upd_globals t f st) =
  if decide (t' = t) then
    match states st !! t with Some _ => f (globals_of t st) | None => [] end
  else globals_of t' st.
Proof.
  unfold globals_of, upd_globals. simpl. case_decide as E.
  - subst t'. rewrite list_lookup_alter_eq. by destruct (states st !! t).
  - by rewrite list_lookup_alter_ne.
Qed.

Lemma globals_of_nil t st : states st !! t = None → globals_of t st = [].
Proof. intros H. unfold globals_of. by rewrite H. Qed.







(** The keys of the property signals exist, and no two properties share
    one. *)
Definition props_wf (st : store) : Prop :=
  (∀ t p k, props_of t st !! p = Some k → k < length (keys st)) ∧
  (∀ t t' p p' k, props_of t st !! p = Some k → props_of t' st !! p' = Some k →
     t = t' ∧ p = p').

Lemma props_of_upd_props t' t f st :
  props_of t' (upd_props t f st) =
  if decide (t' = t) then
    match states st !! t with Some _ => f (props_of t st) | None => ∅ end
  else props_of t' st.
Proof.
  unfold props_of, upd_props. simpl. case_decide as E.
  - subst t'. rewrite list_lookup_alter_eq. by destruct (states st !! t).
  - by rewrite list_lookup_alter_ne.
Qed.

Lemma props_of_upd_globals t' t f st : props_of t' (upd_globals t f st) = props_of t' st.
Proof. unfold props_of, upd_globals. simpl. by apply lookup_alter_from_option. Qed.

Lemma props_wf_same st st' :
  (∀ t, props_of t st' = props_of t st) → length (keys st) ≤ length (keys st') →
  props_wf st → props_wf st'.
Proof.
  intros Hp Hk [H1 H2]. split.
  - intros t p k. rewrite Hp. intros Hx%H1. lia.
  - intros t t' p p' k. rewrite !Hp. apply H2.
Qed.

Lemma props_wf_empty : props_wf empty_store.
Proof. split; intros *; unfold props_of; simpl; by rewrite lookup_empty. Qed.

Lemma props_wf_prim st st' : prim st st' → props_wf st → props_wf st'.
Proof.
  destruct 1; try (by apply props_wf_same).
  - (* track *) apply props_wf_same; [|by rewrite length_keys_track].
    intros t. unfold _trackDependency. by case_decide.
  - (* set_value *) apply props_wf_same; [done|]. simpl. by rewrite length_alter.
  - (* subscribe *) apply props_wf_same; [done|]. simpl. by rewrite length_alter.
  - (* unsubscribe *) apply props_wf_same; [done|]. simpl. by rewrite length_alter.
  - (* unsubscribe_all *)
    apply props_wf_same; [|by rewrite length_keys_unsubscribe_all].
    intros t. unfold unsubscribe_all. simpl. destruct (deps st !! c) as [l|]; [|done].
    simpl. fold (unsub_loop c l (log (EvUnsub c) st)). by rewrite unsub_loop_keys.
  - (* alloc signal *) apply props_wf_same; [done|]. simpl. rewrite length_app. lia.
  - (* alloc prop *)
    intros [H1 H2].
    assert (∀ t' p' k, props_of t' st !! p' = Some k → k ≠ length (keys st)) as Hfresh.
    { intros t' p' k Hk%H1. lia. }
    split.
    + intros t' p' k. rewrite props_of_upd_props. simpl. rewrite length_app. simpl.
      change (props_of ?a (upd_keys _ st)) with (props_of a st).
      change (states (upd_keys _ st)) with (states st).
      case_decide; [|intros Hk%H1; lia]. subst t'.
      destruct (states st !! t); [|by rewrite lookup_empty].
      destruct (decide (p' = p)) as [->|].
      * rewrite lookup_insert_eq. intros [= <-]. lia.
      * rewrite lookup_insert_ne by done. intros Hk%H1. lia.
    + assert (∀ t' p' k,
        props_of t' (upd_props t (insert p (length (keys st)))
                       (upd_keys (λ l, l ++ [Key None []]) st)) !! p' = Some k →
        (t' = t ∧ p' = p ∧ k = length (keys st)) ∨ props_of t' st !! p' = Some k) as Hc.
      { intros t' p' k. rewrite props_of_upd_props.
        change (props_of ?a (upd_keys _ st)) with (props_of a st).
        change (states (upd_keys _ st)) with (states st).
        case_decide; [|by right]. subst t'.
        destruct (states st !! t); [|by rewrite lookup_empty].
        destruct (decide (p' = p)) as [->|].
        - rewrite lookup_insert_eq. intros [= <-]. by left.
        - rewrite lookup_insert_ne by done. by right. }
      intros t1 t2 p1 p2 k [(->&->&->)|Ha]%Hc [(->&->&Hk)|Hb]%Hc; try done.
      * by apply Hfresh in Hb.
      * subst k. by apply Hfresh in Ha.
      * eauto.
  - (* alloc state *)
    intros [H1 H2].
    assert (∀ t, props_of t (upd_states (λ l, l ++ [StateObj o ∅ []]) st) = props_of t st)
      as Hp.
    { intros t. unfold props_of. simpl. destruct (states st !! t) as [x|] eqn:E.
      - by rewrite (lookup_app_l_Some _ _ _ _ E).
      - apply lookup_ge_None in E. destruct (decide (t = length (states st))) as [->|].
        + by rewrite lookup_app_r, Nat.sub_diag by lia.
        + rewrite lookup_ge_None_2; [done|]. rewrite length_app. simpl. lia. }
    split.
    + intros t p k. rewrite Hp. apply H1.
    + intros t t' p p' k. rewrite !Hp. apply H2.
  - (* target *) apply props_wf_same; [|done]. intros. apply props_of_upd_target.
  - (* props delete *)
    intros [H1 H2]. split.
    + intros t' p' k. rewrite props_of_upd_props. case_decide; [|apply H1]. subst t'.
      destruct (states st !! t); [|by rewrite lookup_empty].
      intros [_ Hk]%lookup_delete_Some. by eapply H1.
    + intros t1 t2 p1 p2 k. rewrite !props_of_upd_props.
      destruct (decide (t1 = t)) as [->|], (decide (t2 = t)) as [->|];
        destruct (states st !! t) eqn:Es; rewrite ?lookup_empty; try done;
        rewrite ?lookup_delete_Some; intros; destruct_and?; eauto.
  - (* globals add *) apply props_wf_same; [|done]. intros. apply props_of_upd_globals.
  - (* globals delete *) apply props_wf_same; [|done]. intros. apply props_of_upd_globals.
Qed.

Lemma props_wf_cprim c st st' : cprim c st st' → props_wf st → props_wf st'.
Proof. destruct 1; by apply props_wf_same. Qed.

Lemma props_wf_log e st : props_wf st → props_wf (log e st).
Proof. by apply props_wf_same. Qed.

Lemma props_wf_run code n p st r st' :
  props_wf st → run code n p st = Some (r, st') → props_wf st'.
Proof.
  intros Hwf Hc.
  eapply (holds_run code props_wf (λ _ _, True) (λ _, True)); eauto;
    intros; (split; [|done]); eauto using props_wf_prim, props_wf_cprim, props_wf_log.
Qed.

Lemma props_wf_after code n p : props_wf (after code n p).
Proof.
  unfold after. destruct (run code n p empty_store) as [[r st]|] eqn:E.
  - eapply props_wf_run; [apply props_wf_empty|exact E].
  - apply props_wf_empty.
Qed.




(** Closure 0 is a global listener that records its three arguments;
    closure 1 reads state.b and closure 2 reads state.a, each recording
    what it has read. *)
Definition state_code (n : nat) (args : list value) : prog :=
  match n with
  | 0 => Emit (arg 0 args) (Emit (arg 1 args) (Emit (arg 2 args) (Ret VUndef)))
  | 1 => PropGet 0 "b" (λ v, Emit v (Ret VUndef))
  | 2 => PropGet 0 "a" (λ v, Emit v (Ret VUndef))
  | _ => Ret VUndef
  end.

(** The entries of function [f] among the events [evs]. *)
Definition is_enter (f : func) (ev : event) : bool :=
  match ev with EvEnter g _ => bool_decide (g = f) | _ => false end.
Definition entries (f : func) (evs : list event) : list event :=
  filter (λ ev, is_enter f ev = true) evs.

(** const state = $state({count: 0}); state.subscribe(listener);
    state.count = 1 *)
Definition count_script : prog :=
  NewState (Some {[ "count" := VNum 0 ]}) (λ t,
    PropGet t "subscribe" (λ sub,
    Call sub [VFun (FUser 0)] (λ _,
    PropSet t "count" (VNum 1) (Ret VUndef)))).

(** The scenario of C7: the listener is entered once, with
    ('count', 0, 1) (the output is newest first). *)
Example count_scenario :
  let st := after state_code 5 count_script in
  out st = [VNum 1; VNum 0; VStr "count"] ∧
  entries (Pub (FUser 0)) (trace st)
  = [EvEnter (Pub (FUser 0)) [VStr "count"; VNum 0; VNum 1]].
Proof. split; by vm_compute. Qed.

(** const state = $state({a: 0, b: 0}); state.subscribe(listener);
    createEffect(() => seen.push(state.b));
    createEffect(() => seen.push(state.a)) *)
Definition pair_setup : prog :=
  NewState (Some {[ "a" := VNum 0; "b" := VNum 0 ]}) (λ t,
    PropGet t "subscribe" (λ sub,
    Call sub [VFun (FUser 0)] (λ _,
    CreateEffect (VFun (FUser 1)) (λ _,
    CreateEffect (VFun (FUser 2)) (λ _, Ret VUndef))))).

(** After the setup, state.a = 1 runs the reader of a and the listener,
    and not the reader of b. *)
Example pair_scenario :
  let st := after state_code 6 pair_setup in
  let st' := result_store (run state_code 6 (PropSet 0 "a" (VNum 1) (Ret VUndef)) st) in
  new_events st st'
  = [EvEnter (Pub (FUser 0)) [VStr "a"; VNum 0; VNum 1];
     EvTrack (Runner 1) 1;
     EvEnter (Pub (FUser 2)) [];
     EvBody (Runner 1);
     EvUnsub (Runner 1);
     EvEnter (Comp (Runner 1)) [];
     EvNotify 1 [Comp (Runner 1)]].
Proof. by vm_compute. Qed.


(** * The stack of running computations

    EFFECT_STACK is pushed by runner and recompute only, and popped in
    their finally blocks: whatever a call does, and however it ends, it
    leaves the stack as it found it. *)
Definition balanced {A} (m : M A) : Prop :=
  ∀ st r st', m st = Some (r, st') → stack st' = stack st.

Lemma balanced_ret {A} (a : A) : balanced (ret a).
Proof. by intros st r st' [= <- <-]. Qed.

Lemma balanced_throw {A} e : balanced (@throw A e).
Proof. by intros st r st' [= <- <-]. Qed.

Lemma balanced_gets {A} (f : store → A) : balanced (gets f).
Proof. by intros st r st' [= <- <-]. Qed.

Lemma balanced_modify g : (∀ st, stack (g st) = stack st) → balanced (modify g).
Proof. intros Hg st r st' [= <- <-]. apply Hg. Qed.

Lemma balanced_bind {A B} (m : M A) (k : A → M B) :
  balanced m → (∀ a, balanced (k a)) → balanced (bind m k).
Proof.
  intros Hm Hk st r st'. unfold bind.
  destruct (m st) as [[[a|e] st1]|] eqn:E; [|intros [= <- <-]; eauto|done].
  intros Hk'. rewrite (Hk _ _ _ _ Hk'). eauto.
Qed.

Lemma balanced_try_catch {A} (m : M A) h :
  balanced m → (∀ e, balanced (h e)) → balanced (try_catch m h).
Proof.
  intros Hm Hh st r st'. unfold try_catch.
  destruct (m st) as [[[a|e] st1]|] eqn:E; [intros [= <- <-]; eauto| |done].
  intros Hk'. rewrite (Hh _ _ _ _ Hk'). eauto.
Qed.

(** EFFECT_STACK.push(c); try { body } finally { EFFECT_STACK.pop() } *)
Lemma balanced_scope {A B} c (body : M A) (k : M B) :
  balanced body → balanced k →
  balanced (modify (upd_stack (cons c)) ;;; try_finally body (upd_stack tail) ;;; k).
Proof.
  intros Hb Hk st r st'. unfold bind at 1, modify at 1. unfold bind at 1, try_finally.
  destruct (body _) as [[[a|e] st1]|] eqn:E; [|intros [= <- <-]|done].
  - intros Hk'. rewrite (Hk _ _ _ Hk'). simpl. by rewrite (Hb _ _ _ E).
  - simpl. by rewrite (Hb _ _ _ E).
Qed.

Section Balance.
Variable code : nat → list value → prog.
Variable callf : func → list value → M value.
Variable fuel : nat.
Hypothesis H_callf : ∀ f args, balanced (callf f args).

Local Ltac bal_step :=
  first
    [ solve [auto 2]
    | apply balanced_scope
    | apply balanced_bind; [|intros ?]
    | apply balanced_try_catch; [|intros ?]
    | apply balanced_ret | apply balanced_throw | apply balanced_gets
    | apply H_callf
    | apply balanced_modify; intros ?;
      first [done | apply stack_track | apply stack_unsubscribe_all]
    | match goal with
      | |- balanced (match ?x with _ => _ end) => destruct x
      | |- balanced (if ?x then _ else _) => destruct x
      end
    | by intros ? ? ? [= <- <-] ].
Local Ltac bal := repeat bal_step.

Lemma balanced_call_value v args : balanced (call_value callf v args).
Proof. unfold call_value. bal. Qed.

Lemma balanced_get s : balanced (get s).
Proof.
  unfold get. apply balanced_bind; [|intros; bal].
  apply balanced_modify. intros st. destruct (head (stack st)); [|done].
  apply stack_track.
Qed.

Lemma balanced_notify arr : balanced (notify callf arr).
Proof. induction arr as [|fn rest IH]; simpl; bal. Qed.

Lemma balanced_set s newVal : balanced (set callf s newVal).
Proof. pose proof balanced_notify. unfold set. bal. Qed.

Lemma balanced_subscribe s fn : balanced (subscribe s fn).
Proof. unfold subscribe. bal. Qed.

Lemma balanced_run_cleanup cl report :
  (∀ err st, stack (report err st) = stack st) →
  balanced (run_cleanup callf cl report).
Proof. intros Hrep. unfold run_cleanup. bal. Qed.

Lemma balanced_runner e : balanced (runner callf e).
Proof.
  pose proof (λ cl, balanced_run_cleanup cl (λ err, console_error [err])
                      (λ _ _, eq_refl)) as Hcl.
  unfold runner, runner_cycle. bal.
Qed.

Lemma balanced_disposer e : balanced (disposer callf e).
Proof.
  pose proof (λ cl, balanced_run_cleanup cl (λ err, console_error [err])
                      (λ _ _, eq_refl)) as Hcl.
  unfold disposer. bal.
Qed.

Lemma balanced_recompute c : balanced (recompute callf c).
Proof.
  pose proof (λ cl, balanced_run_cleanup cl (λ _, id) (λ _ _, eq_refl)) as Hcl.
  unfold recompute, recompute_cycle. bal.
Qed.

Lemma balanced_createEffect fn : balanced (createEffect callf fn).
Proof. unfold createEffect. bal. Qed.

Lemma balanced_createComputed fn : balanced (createComputed callf fn).
Proof. unfold createComputed. bal. Qed.

Lemma balanced_getter c : balanced (getter callf c).
Proof. unfold getter. bal. Qed.

Lemma balanced_ensure t p : balanced (_ensurePropSignalFor t p).
Proof. unfold _ensurePropSignalFor. bal. Qed.

Lemma balanced_notifyGlobal_from n t i args :
  balanced (notifyGlobal_from callf n t i args).
Proof.
  pose proof balanced_call_value.
  revert i. induction n as [|n IH]; intros i; simpl; [by intros ???|]. bal.
Qed.

Lemma balanced_notify_prop t p : balanced (notify_prop callf t p).
Proof. pose proof balanced_notify. unfold notify_prop. bal. Qed.

Lemma balanced_handler_get t p : balanced (handler_get t p).
Proof. pose proof balanced_ensure. unfold handler_get. bal. Qed.

Lemma balanced_handler_set t p v : balanced (handler_set callf fuel t p v).
Proof.
  pose proof balanced_notify_prop. pose proof balanced_notifyGlobal_from.
  unfold handler_set, notifyGlobal. bal.
Qed.

Lemma balanced_handler_deleteProperty t p :
  balanced (handler_deleteProperty callf fuel t p).
Proof.
  pose proof balanced_notify_prop. pose proof balanced_notifyGlobal_from.
  unfold handler_deleteProperty, notifyGlobal. bal.
Qed.

Lemma balanced_call_closure c args : balanced (call_closure c args).
Proof. unfold call_closure. bal. Qed.

Lemma balanced_exec p : balanced (exec callf fuel p).
Proof.
  pose proof balanced_call_value. pose proof balanced_createEffect.
  pose proof balanced_createComputed. pose proof balanced_handler_get.
  pose proof balanced_handler_set. pose proof balanced_handler_deleteProperty.
  induction p; simpl; bal; auto.
Qed.

Lemma balanced_dispatch f args : balanced (dispatch code callf fuel f args).
Proof.
  pose proof balanced_exec. pose proof balanced_get. pose proof balanced_set.
  pose proof balanced_subscribe. pose proof balanced_disposer.
  pose proof balanced_getter. pose proof balanced_call_closure.
  pose proof balanced_runner. pose proof balanced_recompute.
  unfold dispatch. bal; auto.
Qed.
End Balance.

Lemma balanced_call code n f args : balanced (call code n f args).
Proof.
  revert f args. induction n as [|n IH]; intros f args; simpl; [by intros ???|].
  unfold apply. apply balanced_bind; [by apply balanced_modify|intros _].
  by apply balanced_dispatch.
Qed.

Lemma balanced_run code n p : balanced (run code n p).
Proof. apply balanced_exec. intros. apply balanced_call. Qed.

(** A script that starts from the empty store ends with an empty stack. *)
Lemma stack_after code n p : stack (after code n p) = [].
Proof.
  unfold after. destruct (run code n p empty_store) as [[r st]|] eqn:E; [|done].
  by apply balanced_run in E.
Qed.

(** * Closures and copies handed out

    The closures the library allocates per call (the unsubscribe functions,
    state.subscribe, state.inspect) and the objects inspect returns are
    never overwritten. *)
Definition kept (st st' : store) : Prop :=
  (∃ l, closures st' = closures st ++ l) ∧ (∃ l, objs st' = objs st ++ l).

Lemma kept_refl st : kept st st.
Proof. split; exists []; by rewrite app_nil_r. Qed.

Lemma kept_trans a b c : kept a b → kept b c → kept a c.
Proof.
  intros [[l1 H1] [o1 G1]] [[l2 H2] [o2 G2]]. split.
  - exists (l1 ++ l2). by rewrite H2, H1, (assoc_L (++)).
  - exists (o1 ++ o2). by rewrite G2, G1, (assoc_L (++)).
Qed.

Lemma kept_same st st' : closures st' = closures st → objs st' = objs st → kept st st'.
Proof. intros H1 H2. split; exists []; by rewrite app_nil_r. Qed.

Lemma closures_unsubscribe_all c st : closures (unsubscribe_all c st) = closures st.
Proof.
  unfold unsubscribe_all. simpl. destruct (deps st !! c) as [l|]; simpl; [|done].
  fold (unsub_loop c l (log (EvUnsub c) st)). by rewrite unsub_loop_keys.
Qed.

Lemma objs_unsubscribe_all c st : objs (unsubscribe_all c st) = objs st.
Proof.
  unfold unsubscribe_all. simpl. destruct (deps st !! c) as [l|]; simpl; [|done].
  fold (unsub_loop c l (log (EvUnsub c) st)). by rewrite unsub_loop_keys.
Qed.

Lemma kept_prim st st' : prim st st' → kept st st'.
Proof.
  destruct 1; try (by apply kept_same).
  - apply kept_same; unfold _trackDependency; by case_decide.
  - apply kept_same; [apply closures_unsubscribe_all|apply objs_unsubscribe_all].
  - split; [by exists [c]|exists []; by rewrite app_nil_r].
  - split; [exists []; by rewrite app_nil_r|by exists [o]].
Qed.

Lemma kept_cprim c st st' : cprim c st st' → kept st st'.
Proof. destruct 1; by apply kept_same. Qed.

Lemma kept_call code n f args st r st' :
  call code n f args st = Some (r, st') → kept st st'.
Proof.
  intros Hc.
  eapply (holds_call code (λ _, True) kept (λ _, True));
    eauto using kept_refl, kept_trans;
    try (intros; split; [done|]; eauto using kept_prim, kept_cprim);
    try (by apply kept_same).
  by destruct f.
Qed.

Lemma kept_run code n p st r st' : run code n p st = Some (r, st') → kept st st'.
Proof.
  intros Hc.
  eapply (holds_run code (λ _, True) kept (λ _, True));
    eauto using kept_refl, kept_trans;
    try (intros; split; [done|]; eauto using kept_prim, kept_cprim);
    try (by apply kept_same).
Qed.

Lemma kept_later code st st' : later code st st' → kept st st'.
Proof.
  induction 1 as [st|st n f args r st1 st2 Hc _ IH|st n p r st1 st2 Hc _ IH].
  - apply kept_refl.
  - eapply kept_trans; [by eapply kept_call|exact IH].
  - eapply kept_trans; [by eapply kept_run|exact IH].
Qed.

Lemma kept_closure st st' u c : kept st st' → closures st !! u = Some c → closures st' !! u = Some c.
Proof. intros [[l ->] _] Hu. by apply lookup_app_l_Some. Qed.

Lemma kept_obj st st' o x : kept st st' → objs st !! o = Some x → objs st' !! o = Some x.
Proof. intros [_ [l ->]] Ho. by apply lookup_app_l_Some. Qed.

(** * Further properties of the library *)

Lemma key_value_upd_subs k k' f st : key_value k (upd_subs k' f st) = key_value k st.
Proof.
  unfold key_value, upd_subs. simpl. destruct (decide (k = k')) as [->|].
  - rewrite list_lookup_alter_eq. by destruct (keys st !! k').
  - by rewrite list_lookup_alter_ne.
Qed.

Lemma key_value_track k a k' st : key_value k (_trackDependency a k' st) = key_value k st.
Proof.
  unfold _trackDependency. case_decide; [|done].
  change (key_value k (upd_deps _ ?s)) with (key_value k s).
  by rewrite key_value_upd_subs.
Qed.

Lemma props_wf_call code n f args st r st' :
  props_wf st → call code n f args st = Some (r, st') → props_wf st'.
Proof.
  intros Hwf Hc.
  eapply (holds_call code props_wf (λ _ _, True) (λ _, True)); eauto;
    try (by destruct f);
    intros; (split; [|done]); eauto using props_wf_prim, props_wf_cprim, props_wf_log.
Qed.

(** An effect that reads signal 0 and throws when it reads 1:
    createEffect(() => { if (get() === 1) throw "boom" }) *)
Definition boom_code (n : nat) (args : list value) : prog :=
  match n with
  | 0 => js_get 0 (λ v, if decide (v = VNum 1) then Throw (VStr "boom") else Ret VUndef)
  | _ => Ret VUndef
  end.

(** X1: EFFECT_STACK (runner lines 75-83, recompute lines 126-139): every call
    of a library function or of a user function, whatever it does and
    whether it returns or throws, leaves the stack of running computations
    as it found it: the pop in the finally block undoes the push even when
    the body throws. *)
Theorem stack_restored code n f args st r st' :
  call code n f args st = Some (r, st') → stack st' = stack st.
Proof. apply balanced_call. Qed.

Lemma stack_restored_witness :
  let st := after boom_code 5 seen_setup in
  let st' := result_store (call boom_code 5 (Pub (FSet 0)) [VNum 1] st) in
  call boom_code 5 (Pub (FSet 0)) [VNum 1] st = Some (Ok (VNum 1), st') ∧
  stack st' = stack st.
Proof.
  intros st st'.
  assert (call boom_code 5 (Pub (FSet 0)) [VNum 1] st = Some (Ok (VNum 1), st')) as Hc
    by (by vm_compute).
  split; [exact Hc|]. exact (stack_restored boom_code 5 _ _ st _ st' Hc).
Defined.

(** X2: _trackDependency and the prevDeps blocks: the two registries stay
    consistent over every call. Afterwards a computation listed among the
    subscribers of a key has the key in its entry of EFFECT_DEPS, no
    subscriber set lists anything twice, and so the prevDeps block of any
    computation would leave it subscribed to nothing. *)
Theorem registry_stays_consistent code n f args st r st' :
  wf st → call code n f args st = Some (r, st') →
  (∀ c k, subscribed c k st' → k ∈ default [] (deps st' !! c)) ∧
  (∀ k, NoDup (key_subs k st')) ∧
  (∀ c k, ¬ subscribed c k (unsubscribe_all c st')).
Proof.
  intros Hwf Hc. assert (wf st') as Hwf' by (by eapply wf_call).
  split_and!; [apply Hwf'|apply Hwf'|]. intros c. by apply unsubscribe_all_clears.
Qed.

Lemma registry_stays_consistent_witness :
  let st := after seen_code 5 seen_setup in
  let st' := result_store (call seen_code 5 (Pub (FSet 0)) [VNum 1] st) in
  call seen_code 5 (Pub (FSet 0)) [VNum 1] st = Some (Ok (VNum 1), st') ∧
  (∀ c k, subscribed c k st' → k ∈ default [] (deps st' !! c)) ∧
  (∀ k, NoDup (key_subs k st')) ∧
  (∀ c k, ¬ subscribed c k (unsubscribe_all c st')).
Proof.
  intros st st'.
  assert (call seen_code 5 (Pub (FSet 0)) [VNum 1] st = Some (Ok (VNum 1), st')) as Hc
    by (by vm_compute).
  split; [exact Hc|].
  exact (registry_stays_consistent seen_code 5 _ _ st _ st'
           (wf_after seen_code 5 seen_setup) Hc).
Defined.

(** X3: _ensurePropSignalFor: over every call, the signal of a property is a
    key that exists, and no two properties, of the same state object or of
    two of them, share a signal. *)
Theorem property_signals_distinct code n f args st r st' :
  props_wf st → call code n f args st = Some (r, st') →
  (∀ t p k, props_of t st' !! p = Some k → k < length (keys st')) ∧
  (∀ t t' p p' k, props_of t st' !! p = Some k → props_of t' st' !! p' = Some k →
     t = t' ∧ p = p').
Proof. intros Hwf Hc. by eapply props_wf_call. Qed.

Lemma property_signals_distinct_witness :
  let st := after state_code 6 pair_setup in
  let st' := result_store (call state_code 6 (Comp (Runner 0)) [] st) in
  call state_code 6 (Comp (Runner 0)) [] st = Some (Ok VUndef, st') ∧
  (∀ t p k, props_of t st' !! p = Some k → k < length (keys st')) ∧
  (∀ t t' p p' k, props_of t st' !! p = Some k → props_of t' st' !! p' = Some k →
     t = t' ∧ p = p').
Proof.
  intros st st'.
  assert (call state_code 6 (Comp (Runner 0)) [] st = Some (Ok VUndef, st')) as Hc
    by (by vm_compute).
  split; [exact Hc|].
  exact (property_signals_distinct state_code 6 _ _ st _ st'
           (props_wf_after state_code 6 pair_setup) Hc).
Defined.

(** X4: get (lines 19-25), for a signal of the registry: it returns the current
    value, whatever the fuel, and changes no value. Called while a
    computation [a] is running, it makes [a] a subscriber of the signal,
    listed once however often [a] reads it, records the signal among the
    dependencies of [a], and touches no other subscription; called outside
    any computation, it subscribes nobody. *)
Theorem get_tracks_reader code n s st :
  wf st → s < length (keys st) →
  ∃ st', call code (S n) (Pub (FGet s)) [] st = Some (Ok (key_value s st), st') ∧
    (∀ k, key_value k st' = key_value k st) ∧
    match head (stack st) with
    | Some a =>
        subscribed a s st' ∧ count_in a (key_subs s st') = 1 ∧
        s ∈ default [] (deps st' !! a) ∧
        (∀ k, k ≠ s → key_subs k st' = key_subs k st) ∧
        (∀ g, g ≠ Comp a → g ∈ key_subs s st' ↔ g ∈ key_subs s st)
    | None => (∀ k, key_subs k st' = key_subs k st) ∧ deps st' = deps st
    end.
Proof.
  intros Hwf Hs. rewrite call_S. simpl. unfold get, bind, modify, gets.
  set (st0 := log (EvEnter (Pub (FGet s)) []) st).
  change (head (stack st0)) with (head (stack st)).
  assert (wf st0) as Hwf0 by (by apply wf_log).
  destruct (head (stack st)) as [a|] eqn:Ea.
  - exists (_trackDependency a s st0).
    assert (wf (_trackDependency a s st0)) as [_ Hnd].
    { eapply wf_prim; [|exact Hwf0]. by constructor. }
    assert (subscribed a s (_trackDependency a s st0)) as Hsub.
    { unfold subscribed. rewrite key_subs_track, decide_True by done.
      apply elem_of_set_add. by left. }
    split_and!.
    + by rewrite key_value_track.
    + intros k. by rewrite key_value_track.
    + done.
    + by apply count_in_NoDup.
    + rewrite deps_track, decide_True by done. rewrite lookup_insert_eq. simpl.
      apply elem_of_set_add. by left.
    + intros k Hk. rewrite key_subs_track, decide_False; [done|]. by intros [].
    + intros g Hg. rewrite key_subs_track, decide_True by done.
      rewrite elem_of_set_add. change (key_subs s st0) with (key_subs s st). tauto.
  - exists st0. done.
Qed.

Lemma get_tracks_reader_witness :
  let st := after seen_code 5 seen_setup in
  let st2 := upd_stack (cons (Runner 0)) (unsubscribe_all (Runner 0) st) in
  (∃ st', call seen_code 1 (Pub (FGet 0)) [] st = Some (Ok (key_value 0 st), st') ∧
     (∀ k, key_subs k st' = key_subs k st) ∧ deps st' = deps st) ∧
  (∃ st', call seen_code 1 (Pub (FGet 0)) [] st2 = Some (Ok (key_value 0 st2), st') ∧
     subscribed (Runner 0) 0 st' ∧ count_in (Runner 0) (key_subs 0 st') = 1).
Proof.
  intros st st2. split.
  - destruct (get_tracks_reader seen_code 0 0 st) as (st' & Hc & _ & Hrest).
    + apply wf_after.
    + vm_compute. lia.
    + exists st'. split; [exact Hc|]. exact Hrest.
  - destruct (get_tracks_reader seen_code 0 0 st2) as (st' & Hc & _ & Hs & Hn & _).
    + apply (wf_cprim (Runner 0) (unsubscribe_all (Runner 0) st)); [constructor|].
      apply (wf_prim st); [constructor|]. apply wf_after.
    + vm_compute. lia.
    + exists st'. split; [exact Hc|]. split; [exact Hs|exact Hn].
Defined.

(** X5: set and get (lines 19-46): whatever set is given, a value or an
    updater, and whatever its subscribers do, the value it returns is the
    current value when it returns: a get right after it returns the same. *)
Theorem set_returns_current code n m s x st v st' :
  call code n (Pub (FSet s)) [x] st = Some (Ok v, st') →
  key_value s st' = v ∧
  ∃ st'', call code (S m) (Pub (FGet s)) [] st' = Some (Ok v, st'').
Proof.
  intros (n' & -> & Hd)%call_Some. simpl in Hd.
  assert (key_value s st' = v) as Hv.
  { apply set_cases in Hd as [(e & He & _)|(st1 & _ & [(_ & Hr & Hst)|(_ & Hr & _)])];
      congruence. }
  split; [done|]. rewrite call_S. simpl. unfold get, bind, modify, gets.
  eexists. f_equal. f_equal. f_equal. rewrite <-Hv.
  destruct (head _); [|done]. by rewrite key_value_track.
Qed.

Lemma set_returns_current_witness :
  let st := after writeback_code 5 incr_setup in
  let st' := result_store (call writeback_code 9 (Pub (FSet 0)) [VNum 1] st) in
  call writeback_code 9 (Pub (FSet 0)) [VNum 1] st = Some (Ok (VNum 0), st') ∧
  key_value 0 st' = VNum 0 ∧
  ∃ st'', call writeback_code 1 (Pub (FGet 0)) [] st' = Some (Ok (VNum 0), st'').
Proof.
  intros st st'.
  assert (call writeback_code 9 (Pub (FSet 0)) [VNum 1] st = Some (Ok (VNum 0), st'))
    as Hc by (by vm_compute).
  split; [exact Hc|].
  exact (set_returns_current writeback_code 9 0 0 (VNum 1) st (VNum 0) st' Hc).
Defined.

Lemma call_closure_at code n u c args st :
  closures st !! u = Some c →
  call code (S n) (Pub (FClosure u)) args st
  = call_closure c args (log (EvEnter (Pub (FClosure u)) args) st).
Proof.
  intros Hu. rewrite call_S. simpl. unfold bind at 1, gets.
  change (closures (log ?e st)) with (closures st). by rewrite Hu.
Qed.

(** X6: subscribe (lines 47-52): for a function, subscribe(fn) adds fn to the
    subscribers of the signal unless it is there already, and returns an
    unsubscribe function; whenever that one is called later, it removes fn,
    leaves the other subscribers alone and returns whether fn was still
    subscribed. For anything else, subscribe changes no subscription and
    returns a function that does nothing. *)
Theorem subscribe_then_unsubscribe code n s fn st :
  wf st → s < length (keys st) →
  let u := length (closures st) in
  ∃ st1,
    call code (S n) (Pub (FSubscribe s)) [fn] st = Some (Ok (VFun (FClosure u)), st1) ∧
    match fn with
    | VFun f =>
        (∀ g, g ∈ key_subs s st1 ↔ g = Pub f ∨ g ∈ key_subs s st) ∧
        (Pub f ∈ key_subs s st → key_subs s st1 = key_subs s st) ∧
        NoDup (key_subs s st1) ∧
        ∀ st2 m, later code st1 st2 →
          ∃ st3,
            call code (S m) (Pub (FClosure u)) [] st2
            = Some (Ok (VBool (bool_decide (Pub f ∈ key_subs s st2))), st3) ∧
            (Pub f ∉ key_subs s st3) ∧
            (∀ g, g ≠ Pub f → g ∈ key_subs s st3 ↔ g ∈ key_subs s st2)
    | _ =>
        (∀ k, key_subs k st1 = key_subs k st) ∧
        ∀ st2 m, later code st1 st2 →
          call code (S m) (Pub (FClosure u)) [] st2
          = Some (Ok VUndef, log (EvEnter (Pub (FClosure u)) []) st2)
    end.
Proof.
  intros [_ Hnd] Hs u.
  set (st0 := log (EvEnter (Pub (FSubscribe s)) [fn]) st).
  assert (call code (S n) (Pub (FSubscribe s)) [fn] st = subscribe s fn st0) as ->
    by (by rewrite call_S).
  assert (∀ c st1, closures st1 = closures st ++ [c] →
          ∀ st2, later code st1 st2 → closures st2 !! u = Some c) as Hkept.
  { intros c st1 Hcl st2 Hl. eapply kept_closure; [by eapply kept_later|].
    rewrite Hcl. by rewrite lookup_app_r, Nat.sub_diag by done. }
  destruct fn as [| |b|z|x|f|o|];
    try (eexists; split; [reflexivity|]; split; [done|]; intros st2 m Hl;
         by rewrite (call_closure_at _ _ _ CNoop)
           by (eapply Hkept; [|exact Hl]; reflexivity)).
  eexists. split; [reflexivity|].
  set (st1 := upd_closures _ _).
  assert (key_subs s st1 = set_add (Pub f) (key_subs s st)) as Hsubs.
  { subst st1. change (key_subs s (upd_closures _ ?x)) with (key_subs s x).
    rewrite key_subs_upd_subs, decide_True by done.
    change (keys st0) with (keys st).
    by destruct (lookup_lt_is_Some_2 _ _ Hs) as [x ->]. }
  split_and!.
  - intros g. by rewrite Hsubs, elem_of_set_add.
  - intros Hin. rewrite Hsubs. unfold set_add. by rewrite decide_True.
  - rewrite Hsubs. by apply NoDup_set_add.
  - intros st2 m Hl.
    rewrite (call_closure_at _ _ _ (CSigUnsub s f))
      by (eapply Hkept; [|exact Hl]; reflexivity).
    simpl. unfold bind, gets, modify. eexists. split; [reflexivity|].
    set (st2' := log _ st2).
    assert (∀ g, g ∈ key_subs s (upd_subs s (set_delete (Pub f)) st2')
                 ↔ g ≠ Pub f ∧ g ∈ key_subs s st2) as Hdel.
    { intros g. rewrite key_subs_upd_subs, decide_True by done.
      change (keys st2') with (keys st2).
      change (key_subs s st2') with (key_subs s st2).
      destruct (keys st2 !! s) as [x|] eqn:E.
      - apply elem_of_set_delete.
      - rewrite (key_subs_nil s st2) by (by apply lookup_ge_None).
        rewrite !elem_of_nil. tauto. }
    split.
    + rewrite Hdel. tauto.
    + intros g Hg. rewrite Hdel. tauto.
Qed.

Lemma subscribe_then_unsubscribe_witness :
  let st := after incr_code 5 one_signal in
  ∃ st1,
    call incr_code 1 (Pub (FSubscribe 0)) [VFun (FUser 1)] st
    = Some (Ok (VFun (FClosure 0)), st1) ∧
    Pub (FUser 1) ∈ key_subs 0 st1 ∧
    ∃ st3,
      call incr_code 1 (Pub (FClosure 0)) [] st1
      = Some (Ok (VBool (bool_decide (Pub (FUser 1) ∈ key_subs 0 st1))), st3) ∧
      (Pub (FUser 1) ∉ key_subs 0 st3).
Proof.
  intros st.
  destruct (subscribe_then_unsubscribe incr_code 0 0 (VFun (FUser 1)) st)
    as (st1 & Hc & Hin & _ & _ & Hun).
  - apply wf_after.
  - vm_compute. lia.
  - exists st1. split; [exact Hc|]. split; [apply Hin; by left|].
    destruct (Hun st1 0 (later_refl _ _)) as (st3 & Hc3 & Hnot & _).
    exists st3. split; [exact Hc3|exact Hnot].
Defined.

(** ** State objects: writes that change nothing, and deletions *)







(** const state = $state({a: 0}); createEffect(() => seen.push(state.a)) *)
Definition orphan_setup : prog :=
  NewState (Some {[ "a" := VNum 0 ]}) (λ t,
    CreateEffect (VFun (FUser 2)) (λ _, Ret VUndef)).










(** After the setup above: delete state.a re-runs the effect, and the
    write state.a = 5 that follows does not. *)
Example orphan_scenario :
  let st := after state_code 6
              (NewState (Some {[ "a" := VNum 0 ]}) (λ t,
                 CreateEffect (VFun (FUser 2)) (λ _,
                 PropDelete t "a" (PropSet t "a" (VNum 5) (Ret VUndef))))) in
  out st = [VUndef; VNum 0] ∧ body_count (Runner 0) (trace st) = 2 ∧
  read_prop 0 "a" st = VNum 5 ∧ key_subs 0 st = [Comp (Runner 0)] ∧
  props_of 0 st !! "a" = None.
Proof. split_and!; by vm_compute. Qed.


(** ** State objects: global listeners *)

Lemma elem_of_globals_delete fn l g :
  Some g ∈ globals_delete fn l ↔ g ≠ fn ∧ Some g ∈ l.
Proof.
  unfold globals_delete. rewrite list_elem_of_fmap. split.
  - intros (y & Hy & Hin). case_decide; [done|]. subst y.
    split; [congruence|done].
  - intros [Hne Hin]. exists (Some g). split; [|done].
    rewrite decide_False; [done|congruence].
Qed.

Lemma lookup_globals_delete fn l j g :
  g ≠ fn → globals_delete fn l !! j = Some (Some g) ↔ l !! j = Some (Some g).
Proof.
  intros Hne. unfold globals_delete. rewrite list_lookup_fmap.
  destruct (l !! j) as [y|]; simpl; [|done]. case_decide; subst; split; congruence.
Qed.

(** X10: state.subscribe (lines 175-178): state.subscribe(fn) registers fn as a
    global listener of the state object, whatever fn is (there is no test
    that it is a function), once however often it is subscribed, and
    tracks nothing; it returns an unsubscribe function. Whenever that one
    is called later, fn is no longer registered afterwards, every other
    listener keeps its place in the order of iteration, and the result
    says whether fn was still registered. *)
Theorem listener_subscribe_unsubscribe code n t fn st :
  t < length (states st) →
  let u := length (closures st) in
  ∃ st1,
    run code (S n) (PropGet t "subscribe" (λ sub, Call sub [fn] Ret)) st
    = Some (Ok (VFun (FClosure (S u))), st1) ∧
    globals_of t st1 = globals_add fn (globals_of t st) ∧
    Some fn ∈ globals_of t st1 ∧
    (Some fn ∈ globals_of t st → globals_of t st1 = globals_of t st) ∧
    keys st1 = keys st ∧ deps st1 = deps st ∧
    ∀ st2 m, later code st1 st2 →
      ∃ st3,
        call code (S m) (Pub (FClosure (S u))) [] st2
        = Some (Ok (VBool (bool_decide (Some fn ∈ globals_of t st2))), st3) ∧
        (Some fn ∉ globals_of t st3) ∧
        (∀ j g, g ≠ fn →
           globals_of t st3 !! j = Some (Some g) ↔ globals_of t st2 !! j = Some (Some g)).
Proof.
  intros Ht u. eexists. split.
  { unfold run. simpl. unfold bind at 1, handler_get. simpl.
    change (apply code (call code n) n ?f ?a) with (call code (S n) f a).
    unfold bind at 1.
    rewrite (call_closure_at _ _ _ (CStateSubscribe t))
      by (simpl; by rewrite lookup_app_r, Nat.sub_diag by done).
    simpl. rewrite length_app. simpl. rewrite Nat.add_1_r. reflexivity. }
  set (st1 := upd_closures _ _).
  assert (globals_of t st1 = globals_add fn (globals_of t st)) as Hg.
  { subst st1. change (globals_of t (upd_closures _ ?x)) with (globals_of t x).
    rewrite globals_of_upd_globals, decide_True by done. simpl.
    by destruct (lookup_lt_is_Some_2 _ _ Ht) as [x ->]. }
  split_and!; [done| | |done|done|].
  - rewrite Hg. unfold globals_add. case_decide; [done|].
    apply elem_of_app. right. by left.
  - intros Hin. rewrite Hg. unfold globals_add. by rewrite decide_True.
  - intros st2 m Hl.
    assert (closures st2 !! S u = Some (CStateUnsub t fn)) as Hu.
    { eapply kept_closure; [by eapply kept_later|]. subst st1. simpl.
      rewrite lookup_app_r by (rewrite length_app; simpl; lia).
      rewrite length_app. simpl.
      by replace (S u - (length (closures st) + 1)) with 0 by (unfold u; lia). }
    rewrite (call_closure_at _ _ _ _ _ _ Hu). simpl.
    unfold bind, gets, modify. eexists. split; [reflexivity|].
    set (st2' := log _ st2).
    assert (globals_of t (upd_globals t (globals_delete fn) st2')
            = globals_delete fn (globals_of t st2)) as Hdel.
    { rewrite globals_of_upd_globals, decide_True by done.
      change (states st2') with (states st2).
      change (globals_of t st2') with (globals_of t st2).
      destruct (states st2 !! t) eqn:E; [done|]. by rewrite globals_of_nil. }
    rewrite Hdel. split.
    + rewrite elem_of_globals_delete. tauto.
    + intros j g Hne. by apply lookup_globals_delete.
Qed.

Lemma listener_subscribe_unsubscribe_witness :
  let st := after state_code 6 orphan_setup in
  ∃ st1,
    run state_code 1 (PropGet 0 "subscribe" (λ sub, Call sub [VFun (FUser 0)] Ret)) st
    = Some (Ok (VFun (FClosure 1)), st1) ∧
    Some (VFun (FUser 0)) ∈ globals_of 0 st1 ∧
    ∃ st3,
      call state_code 1 (Pub (FClosure 1)) [] st1
      = Some (Ok (VBool (bool_decide (Some (VFun (FUser 0)) ∈ globals_of 0 st1))), st3) ∧
      (Some (VFun (FUser 0)) ∉ globals_of 0 st3).
Proof.
  intros st.
  destruct (listener_subscribe_unsubscribe state_code 0 0 (VFun (FUser 0)) st)
    as (st1 & Hc & _ & Hin & _ & _ & _ & Hun).
  - vm_compute. lia.
  - exists st1. split; [exact Hc|]. split; [exact Hin|].
    destruct (Hun st1 0 (later_refl _ _)) as (st3 & Hc3 & Hnot & _).
    exists st3. split; [exact Hc3|exact Hnot].
Defined.






(** ** State objects: inspect and tracked reads *)

(** X12: state.inspect (line 179): state.inspect() returns a new object that
    holds the backing record as it is at the call; nothing is tracked by
    it, even while a computation is running, and no later call changes the
    copy. *)
Theorem inspect_copies code n t st :
  let o := length (objs st) in
  ∃ st1,
    run code (S n) (PropGet t "inspect" (λ f, Call f [] Ret)) st
    = Some (Ok (VObj o), st1) ∧
    objs st1 !! o = Some (target_of t st) ∧
    keys st1 = keys st ∧ deps st1 = deps st ∧ states st1 = states st ∧
    ∀ st2, later code st1 st2 → objs st2 !! o = Some (target_of t st).
Proof.
  intros o. eexists. split.
  { unfold run. simpl. unfold bind at 1, handler_get. simpl.
    change (apply code (call code n) n ?f ?a) with (call code (S n) f a).
    unfold bind at 1.
    rewrite (call_closure_at _ _ _ (CInspect t))
      by (simpl; by rewrite lookup_app_r, Nat.sub_diag by done).
    simpl. reflexivity. }
  set (st1 := upd_objs _ _).
  assert (objs st1 !! o = Some (target_of t st)) as Ho.
  { subst st1. simpl. by rewrite lookup_app_r, Nat.sub_diag by done. }
  split_and!; try done.
  intros st2 Hl. eapply kept_obj; [by eapply kept_later|exact Ho].
Qed.




(** ** What a run of an effect or of a computed does with its cleanup and
    with the result of its function *)

Lemma grows_run_cleanup code n cl st r st' :
  run_cleanup (call code n) cl (λ err, console_error [err]) st = Some (r, st') →
  grows st st'.
Proof.
  intros Hc.
  eapply (holds_run_cleanup code (λ _, True) grows (λ _, True));
    eauto using grows_refl, grows_trans; try solve [grows_side].
  intros. constructor.
Qed.

Lemma length_effects_grows st st' :
  grows st st' → length (effects st) ≤ length (effects st').
Proof.
  intros [_ E _ _ _ _]. destruct (effects st) as [|x l] eqn:Ee using rev_ind; [simpl; lia|].
  destruct (E (length l) x) as (x' & Hx' & _).
  - by rewrite lookup_app_r, Nat.sub_diag by lia.
  - apply lookup_lt_Some in Hx'. rewrite length_app. simpl. lia.
Qed.

(** runner, from the cleanup on. *)
Lemma runner_cycle_cases code n e st r st' :
  runner_cycle (call code n) e st = Some (r, st') →
  ∃ st_a rb st_c,
    run_cleanup (call code n) (effects st !! e ≫= e_cleanup)
      (λ err, console_error [err]) st = Some (Ok tt, st_a) ∧
    let st_p := upd_stack (cons (Runner e)) (set_effect_cleanup e None st_a) in
    let fn := from_option e_fn (FUser 0) (effects st_p !! e) in
    call code n (Pub fn) [] (log (EvBody (Runner e)) st_p) = Some (rb, st_c) ∧
    r = Ok VUndef ∧
    st' = upd_stack tail
            match rb with
            | Ok (VFun c) => set_effect_cleanup e (Some c) st_c
            | Ok _ => st_c
            | Exn err => console_error [VStr "createEffect error"; err] st_c
            end.
Proof.
  unfold runner_cycle. unfold bind at 1, gets at 1. unfold bind at 1.
  destruct (run_cleanup _ _ _ _) as [[r1 st_a]|] eqn:E1; [|done].
  apply run_cleanup_ok in E1 as Hr1. subst r1.
  unfold bind at 1, modify at 1. unfold bind at 1, modify at 1.
  unfold bind at 1, try_finally, try_catch.
  unfold bind at 1, gets at 1. unfold bind at 1, modify at 1. unfold bind at 1.
  match goal with |- context [call code n ?f ?a ?s] =>
    destruct (call code n f a s) as [[[v|err] st_c]|] eqn:E2 end; [| |done].
  - intros Hr. exists st_a, (Ok v), st_c. split; [done|]. split; [exact E2|].
    destruct v; unfold modify, ret in Hr; by injection Hr as <- <-.
  - unfold modify. intros [= <- <-]. exists st_a, (Exn err), st_c. eauto.
Qed.

(** X14: runner (lines 58-84), for an effect that exists. A run first drops the
    subscriptions, then calls the cleanup that the previous run left, if
    there is one, and clears it; only then, with the runner on top of the
    stack, it calls the function of the effect. A function that the call
    returns becomes the cleanup for the next run or for the disposer;
    anything else it returns is ignored; what it throws is passed to
    console.error after the text "createEffect error". The runner itself
    returns undefined in all three cases. *)
Theorem effect_rerun_protocol code n e st r st' :
  e < length (effects st) →
  call code n (Comp (Runner e)) [] st = Some (r, st') →
  r = Ok VUndef ∧
  ∃ m fn st_b rb st_c ev1,
    n = S m ∧ e_fn <$> effects st !! e = Some fn ∧
    trace st_b = EvBody (Runner e) :: ev1 ++ EvUnsub (Runner e)
                   :: EvEnter (Comp (Runner e)) [] :: trace st ∧
    match effects st !! e ≫= e_cleanup with
    | Some f => EvEnter (Pub f) [] ∈ ev1
    | None => ev1 = []
    end ∧
    effects st_b !! e ≫= e_cleanup = None ∧
    head (stack st_b) = Some (Runner e) ∧
    call code m (Pub fn) [] st_b = Some (rb, st_c) ∧
    match rb with
    | Ok (VFun c) =>
        st' = upd_stack tail (set_effect_cleanup e (Some c) st_c) ∧
        effects st' !! e ≫= e_cleanup = Some c
    | Ok _ => st' = upd_stack tail st_c
    | Exn err =>
        st' = upd_stack tail (console_error [VStr "createEffect error"; err] st_c)
    end.
Proof.
  intros He Hc.
  destruct (call_comp code n (Runner e) [] st r st' He Hc) as (m & -> & Hcy).
  simpl in Hcy. set (st0 := unsubscribe_all _ _) in Hcy.
  destruct (runner_cycle_cases _ _ _ _ _ _ Hcy) as (st_a & rb & st_c & Hcl & Hbody & -> & Hst).
  split; [done|].
  assert (effects st0 = effects st) as He0 by (unfold st0; by rewrite effects_unsubscribe_all).
  rewrite He0 in Hcl.
  destruct (lookup_lt_is_Some_2 _ _ He) as [x Hx].
  apply grows_run_cleanup in Hcl as Hgr.
  destruct (grows_effects _ _ Hgr e x) as (xa & Hxa & Hfn); [by rewrite He0|].
  set (st_p := upd_stack (cons (Runner e)) (set_effect_cleanup e None st_a)) in *.
  assert (effects st_p !! e = Some (Effect (e_fn xa) None)) as Hp.
  { unfold st_p. simpl. by rewrite list_lookup_alter_eq, Hxa. }
  rewrite Hp in Hbody. simpl in Hbody. rewrite Hfn in Hbody.
  assert (∃ ev1, trace st_a = ev1 ++ trace st0 ∧
            match effects st !! e ≫= e_cleanup with
            | Some f => EvEnter (Pub f) [] ∈ ev1
            | None => ev1 = []
            end) as (ev1 & Ht1 & Hev1).
  { apply run_cleanup_cases in Hcl as [_ Hcl].
    destruct (effects st !! e ≫= e_cleanup) as [f|]; [done|].
    exists []. by rewrite Hcl. }
  exists m, (e_fn x), (log (EvBody (Runner e)) st_p), rb, st_c, ev1.
  split_and!; try done.
  - by rewrite Hx.
  - simpl. rewrite Ht1. unfold st0. by rewrite trace_unsubscribe_all.
  - change (effects (log _ st_p)) with (effects st_p). by rewrite Hp.
  - destruct rb as [v|err]; [|done]. destruct v; try done. split; [done|].
    rewrite Hst. simpl. rewrite list_lookup_alter_eq.
    apply grows_call in Hbody.
    destruct (grows_effects _ _ Hbody e (Effect (e_fn xa) None)) as (xc & -> & _);
      [exact Hp|done].
Qed.

(** An effect that returns a cleanup:
    createEffect(() => { get(); return () => seen.push("cleanup") }) *)
Definition cleanup_code (n : nat) (args : list value) : prog :=
  match n with
  | 0 => js_get 0 (λ _, Ret (VFun (FUser 1)))
  | 1 => Emit (VStr "cleanup") (Ret VUndef)
  | _ => Ret VUndef
  end.

Lemma effect_rerun_protocol_witness :
  let st := after cleanup_code 5 seen_setup in
  let st' := result_store (call cleanup_code 5 (Comp (Runner 0)) [] st) in
  0 < length (effects st) ∧
  call cleanup_code 5 (Comp (Runner 0)) [] st = Some (Ok VUndef, st') ∧
  ∃ st_b ev1,
    trace st_b = EvBody (Runner 0) :: ev1 ++ EvUnsub (Runner 0)
                   :: EvEnter (Comp (Runner 0)) [] :: trace st ∧
    EvEnter (Pub (FUser 1)) [] ∈ ev1 ∧
    effects st_b !! 0 ≫= e_cleanup = None.
Proof.
  intros st st'.
  assert (0 < length (effects st)) as He by (vm_compute; lia).
  assert (call cleanup_code 5 (Comp (Runner 0)) [] st = Some (Ok VUndef, st')) as Hc
    by (by vm_compute).
  split; [exact He|]. split; [exact Hc|].
  destruct (effect_rerun_protocol cleanup_code 5 0 st _ st' He Hc)
    as (_ & m & fn & st_b & rb & st_c & ev1 & _ & _ & Ht & Hev & Hcl & _).
  assert (effects st !! 0 ≫= e_cleanup = Some (FUser 1)) as Ecl by (by vm_compute).
  rewrite Ecl in Hev.
  exists st_b, ev1. split; [exact Ht|]. split; [exact Hev|exact Hcl].
Defined.

(** X15: The disposer (lines 86-103) clears the cleanup after calling it, so
    the cleanup of a run is called once only: a second call of the
    disposer, right after the first, calls no user function at all and
    records nothing but its own entry and the (empty) prevDeps block. *)
Theorem dispose_twice code n m e st r st1 :
  call code n (Pub (FDisposer e)) [] st = Some (r, st1) →
  let st2 := set_effect_cleanup e None
               (unsubscribe_all (Runner e) (log (EvEnter (Pub (FDisposer e)) []) st1)) in
  effects st1 !! e ≫= e_cleanup = None ∧
  call code (S m) (Pub (FDisposer e)) [] st1 = Some (Ok VUndef, st2) ∧
  trace st2 = EvUnsub (Runner e) :: EvEnter (Pub (FDisposer e)) [] :: trace st1.
Proof.
  intros (n' & -> & Hd)%call_Some st2. simpl in Hd.
  apply disposer_cases in Hd as (st' & _ & _ & ->).
  assert (effects (set_effect_cleanup e None st') !! e ≫= e_cleanup = None) as Hcl.
  { simpl. rewrite list_lookup_alter_eq. by destruct (effects st' !! e). }
  split; [done|]. split.
  - rewrite call_S. simpl. unfold disposer.
    unfold bind at 1, modify at 1. unfold bind at 1, gets at 1.
    rewrite effects_unsubscribe_all.
    change (effects (log ?ev ?s)) with (effects s). by rewrite Hcl.
  - unfold st2. simpl. by rewrite trace_unsubscribe_all.
Qed.

Lemma dispose_twice_witness :
  let st := after cleanup_code 5 seen_setup in
  let st1 := result_store (call cleanup_code 5 (Pub (FDisposer 0)) [] st) in
  call cleanup_code 5 (Pub (FDisposer 0)) [] st = Some (Ok VUndef, st1) ∧
  out st1 = [VStr "cleanup"] ∧
  ∃ st2, call cleanup_code 1 (Pub (FDisposer 0)) [] st1 = Some (Ok VUndef, st2) ∧
    trace st2 = EvUnsub (Runner 0) :: EvEnter (Pub (FDisposer 0)) [] :: trace st1.
Proof.
  intros st st1.
  assert (call cleanup_code 5 (Pub (FDisposer 0)) [] st = Some (Ok VUndef, st1)) as Hc
    by (by vm_compute).
  split; [exact Hc|]. split; [by vm_compute|].
  destruct (dispose_twice cleanup_code 5 0 0 st _ st1 Hc) as (_ & Hc2 & Ht).
  eexists. split; [exact Hc2|exact Ht].
Defined.

(** recompute, from the cleanup on. *)
Lemma recompute_cycle_cases code n c st r st' :
  recompute_cycle (call code n) c st = Some (r, st') →
  ∃ st_a rb st_c,
    run_cleanup (call code n) (computeds st !! c ≫= m_cleanup) (λ _, id) st
      = Some (Ok tt, st_a) ∧
    let st_p := upd_stack (cons (Recompute c)) (set_computed_cleanup c None st_a) in
    let fn := from_option m_fn (FUser 0) (computeds st_p !! c) in
    call code n (Pub fn) [] (log (EvBody (Recompute c)) st_p) = Some (rb, st_c) ∧
    r = Ok VUndef ∧
    st' = upd_stack tail
            match rb with
            | Ok (VFun cl) => clear_dirty c (set_computed_cleanup c (Some cl) st_c)
            | Ok v => clear_dirty c (set_cached c v st_c)
            | Exn err => console_error [VStr "createComputed error"; err] st_c
            end.
Proof.
  unfold recompute_cycle. unfold bind at 1, gets at 1. unfold bind at 1.
  destruct (run_cleanup _ _ _ _) as [[r1 st_a]|] eqn:E1; [|done].
  apply run_cleanup_ok in E1 as Hr1. subst r1.
  unfold bind at 1, modify at 1. unfold bind at 1, modify at 1.
  unfold bind at 1, try_finally, try_catch.
  unfold bind at 1, gets at 1. unfold bind at 1, modify at 1. unfold bind at 1.
  match goal with |- context [call code n ?f ?a ?s] =>
    destruct (call code n f a s) as [[[v|err] st_c]|] eqn:E2 end; [| |done].
  - intros Hr. exists st_a, (Ok v), st_c. split; [done|]. split; [exact E2|].
    destruct v; unfold bind, modify in Hr; by injection Hr as <- <-.
  - unfold modify. intros [= <- <-]. exists st_a, (Exn err), st_c. eauto.
Qed.

(** X16: recompute (lines 110-140), for a computed that exists. A run calls the
    function of the computed with recompute on top of the stack, and
    always returns undefined. A result that is not a function becomes the
    cached value. A result that is a function is not cached: it is kept as
    the cleanup, the cached value stays what it was, and the computed is
    clean all the same, so that its getter keeps returning the old value.
    When the function throws, the error is passed to console.error after
    the text "createComputed error", and neither the cached value nor the
    dirty flag changes. *)
Theorem computed_result_protocol code n c st r st' :
  c < length (computeds st) →
  call code n (Comp (Recompute c)) [] st = Some (r, st') →
  r = Ok VUndef ∧
  ∃ m fn st_b rb st_c,
    n = S m ∧ m_fn <$> computeds st !! c = Some fn ∧
    head (stack st_b) = Some (Recompute c) ∧
    call code m (Pub fn) [] st_b = Some (rb, st_c) ∧
    match rb with
    | Ok (VFun cl) =>
        computed_cached c st' = computed_cached c st_c ∧
        computed_dirty c st' = false ∧
        computeds st' !! c ≫= m_cleanup = Some cl
    | Ok v => computed_cached c st' = v ∧ computed_dirty c st' = false
    | Exn err =>
        computed_cached c st' = computed_cached c st_c ∧
        computed_dirty c st' = computed_dirty c st_c ∧
        trace st' = EvConsoleError [VStr "createComputed error"; err] :: trace st_c
    end.
Proof.
  intros He Hc.
  destruct (call_comp code n (Recompute c) [] st r st' He Hc) as (m & -> & Hcy).
  simpl in Hcy. set (st0 := unsubscribe_all _ _) in Hcy.
  destruct (recompute_cycle_cases _ _ _ _ _ _ Hcy)
    as (st_a & rb & st_c & Hcl & Hbody & -> & Hst).
  split; [done|].
  assert (computeds st0 = computeds st) as He0
    by (unfold st0; by rewrite computeds_unsubscribe_all).
  destruct (lookup_lt_is_Some_2 _ _ He) as [x Hx].
  assert (grows st0 st_a) as Hgr.
  { eapply (holds_run_cleanup code (λ _, True) grows (λ _, True));
      eauto using grows_refl, grows_trans; try solve [grows_side].
    intros. apply prim_id. }
  destruct (grows_computeds _ _ Hgr c x) as (xa & Hxa & Hfn & _); [by rewrite He0|].
  set (st_p := upd_stack (cons (Recompute c)) (set_computed_cleanup c None st_a)) in *.
  assert (computeds st_p !! c = Some (Computed (m_fn xa) (m_cached xa) (m_dirty xa) None))
    as Hp.
  { unfold st_p. simpl. by rewrite list_lookup_alter_eq, Hxa. }
  rewrite Hp in Hbody. simpl in Hbody. rewrite Hfn in Hbody.
  exists m, (m_fn x), (log (EvBody (Recompute c)) st_p), rb, st_c.
  split_and!; try done; [by rewrite Hx|].
  apply grows_call in Hbody as Hgc.
  destruct (grows_computeds _ _ Hgc c _ Hp) as (xc & Hxc & _).
  unfold computed_cached, computed_dirty. rewrite Hst.
  destruct rb as [v|err]; [|done].
  destruct v; simpl; rewrite !list_lookup_alter_eq, Hxc; done.
Qed.

(** A computed whose function returns a function:
    const c = createComputed(() => () => 1); c() *)
Definition thunk_code (n : nat) (args : list value) : prog :=
  match n with
  | 0 => Ret (VFun (FUser 1))
  | _ => Ret (VNum 1)
  end.

(** The getter of such a computed returns undefined, and does not run the
    function again. *)
Example thunk_scenario :
  let st := after thunk_code 5
              (CreateComputed (VFun (FUser 0)) (λ g, Call g [] (λ v, Emit v (Ret VUndef)))) in
  out st = [VUndef] ∧ body_count (Recompute 0) (trace st) = 1 ∧
  computeds st !! 0 ≫= m_cleanup = Some (FUser 1).
Proof. split_and!; by vm_compute. Qed.

Lemma computed_result_protocol_witness :
  let st := after thunk_code 5 (CreateComputed (VFun (FUser 0)) (λ _, Ret VUndef)) in
  let st' := result_store (call thunk_code 5 (Comp (Recompute 0)) [] st) in
  0 < length (computeds st) ∧
  call thunk_code 5 (Comp (Recompute 0)) [] st = Some (Ok VUndef, st') ∧
  ∃ st_b rb st_c,
    head (stack st_b) = Some (Recompute 0) ∧
    call thunk_code 4 (Pub (FUser 0)) [] st_b = Some (rb, st_c).
Proof.
  intros st st'.
  assert (0 < length (computeds st)) as He by (vm_compute; lia).
  assert (call thunk_code 5 (Comp (Recompute 0)) [] st = Some (Ok VUndef, st')) as Hc
    by (by vm_compute).
  split; [exact He|]. split; [exact Hc|].
  destruct (computed_result_protocol thunk_code 5 0 st _ st' He Hc)
    as (_ & m & fn & st_b & rb & st_c & Hm & Hfn & Hs & Hb & _).
  injection Hm as <-.
  assert (m_fn <$> computeds st !! 0 = Some (FUser 0)) as Ef by (by vm_compute).
  rewrite Ef in Hfn. injection Hfn as <-.
  exists st_b, rb, st_c. split; [exact Hs|exact Hb].
Defined.



(** ** The order of a delivery *)

Lemma delivery_order code n arr st outs st' :
  delivery code n arr st outs st' →
  ∃ evs, trace st' = evs ++ trace st ∧
    ((λ f, EvEnter f []) <$> arr) `sublist_of` reverse evs.
Proof.
  induction 1 as [st|fn rest st v st1 outs st' Hc _ IH|fn rest st e st1 outs st' Hc _ IH].
  - exists []. split; [done|]. simpl. constructor.
  - destruct IH as (ev2 & Ht2 & Hsub). apply trace_call in Hc as [ev1 Ht1].
    exists (ev2 ++ ev1 ++ [EvEnter fn []]). split.
    + rewrite Ht2, Ht1. by rewrite <-!(assoc_L (++)).
    + rewrite !reverse_app. simpl. apply sublist_skip.
      by apply sublist_inserts_l.
  - destruct IH as (ev2 & Ht2 & Hsub). apply trace_call in Hc as [ev1 Ht1].
    exists (ev2 ++ ev1 ++ [EvEnter fn []]). split.
    + rewrite Ht2. simpl. rewrite Ht1. by rewrite <-!(assoc_L (++)).
    + rewrite !reverse_app. simpl. apply sublist_skip.
      by apply sublist_inserts_l.
Qed.

(** X17: set (lines 35-44) and subscribe: a write that changes the value calls
    the subscribers in the order in which they were first subscribed:
    their entries follow one another in that order among the events of the
    write, and a function subscribed now comes after all those already
    there. *)
Theorem set_notifies_in_order code n s v st r st' :
  s < length (keys st) → is_function v = false → v ≠ key_value s st →
  call code n (Pub (FSet s)) [v] st = Some (r, st') →
  (∃ evs, trace st' = evs ++ trace st ∧
     ((λ f, EvEnter f []) <$> key_subs s st) `sublist_of` reverse evs) ∧
  ∀ f m, Pub f ∉ key_subs s st →
    ∃ r1 st1, call code (S m) (Pub (FSubscribe s)) [VFun f] st = Some (r1, st1) ∧
      key_subs s st1 = key_subs s st ++ [Pub f].
Proof.
  intros Hs Hv Hne Hc. split.
  - destruct (set_delivery _ _ _ _ _ _ _ Hs Hv Hne Hc) as (_ & m & outs & -> & Hd).
    apply delivery_order in Hd as (evs & Ht & Hsub).
    exists (evs ++ [EvNotify s (key_subs s st); EvEnter (Pub (FSet s)) [v]]). split.
    + rewrite Ht. unfold delivering. simpl. rewrite key_subs_set_value.
      by rewrite <-(assoc_L (++)).
    + rewrite reverse_app. by apply sublist_inserts_l.
  - intros f m Hf. rewrite call_S. simpl. unfold bind, modify, alloc_closure.
    eexists _, _. split; [reflexivity|].
    change (key_subs s (upd_closures _ ?x)) with (key_subs s x).
    rewrite key_subs_upd_subs, decide_True by done.
    change (keys (log ?ev st)) with (keys st).
    destruct (lookup_lt_is_Some_2 _ _ Hs) as [x ->].
    change (key_subs s (log ?ev st)) with (key_subs s st).
    unfold set_add. by rewrite decide_False.
Qed.

(** createSignal(0) with three subscribers, in this order *)
Definition three_setup : prog :=
  CreateSignal (VNum 0) (λ s,
    Call (VFun (FSubscribe s)) [VFun (FUser 2)] (λ _,
    Call (VFun (FSubscribe s)) [VFun (FUser 0)] (λ _,
    Call (VFun (FSubscribe s)) [VFun (FUser 1)] (λ _, Ret VUndef)))).

Lemma set_notifies_in_order_witness :
  let st := after isolation_code 5 three_setup in
  let st' := result_store (call isolation_code 5 (Pub (FSet 0)) [VNum 1] st) in
  0 < length (keys st) ∧ is_function (VNum 1) = false ∧ VNum 1 ≠ key_value 0 st ∧
  call isolation_code 5 (Pub (FSet 0)) [VNum 1] st = Some (Ok (VNum 1), st') ∧
  ∃ evs, trace st' = evs ++ trace st ∧
    [EvEnter (Pub (FUser 2)) []; EvEnter (Pub (FUser 0)) []; EvEnter (Pub (FUser 1)) []]
      `sublist_of` reverse evs.
Proof.
  intros st st'.
  assert (0 < length (keys st)) as Hs by (vm_compute; lia).
  assert (VNum 1 ≠ key_value 0 st) as Hne by (by vm_compute).
  assert (call isolation_code 5 (Pub (FSet 0)) [VNum 1] st = Some (Ok (VNum 1), st'))
    as Hc by (by vm_compute).
  split_and!; [exact Hs|reflexivity|exact Hne|exact Hc|].
  destruct (set_notifies_in_order isolation_code 5 0 (VNum 1) st _ st' Hs eq_refl Hne Hc)
    as [(evs & Ht & Hsub) _].
  assert (key_subs 0 st = [Pub (FUser 2); Pub (FUser 0); Pub (FUser 1)]) as Es
    by (by vm_compute).
  rewrite Es in Hsub. exists evs. split; [exact Ht|exact Hsub].
Defined.

(** X18: handler.get (lines 175-179): subscribe and inspect are answered
    before the backing record is looked at. When the record holds a value
    under one of these two names, a read through the state object never
    shows it: it returns a function that the read itself has just made (a
    new one at each read), leaves the record as it is and tracks nothing. *)
Theorem reserved_names_shadow t p v st :
  p = "subscribe" ∨ p = "inspect" → t < length (states st) →
  let st1 := upd_target t (insert p v) st in
  let u := length (closures st) in
  read_prop t p st1 = v ∧
  ∃ st2 st3,
    handler_get t p st1 = Some (Ok (VFun (FClosure u)), st2) ∧
    handler_get t p st2 = Some (Ok (VFun (FClosure (S u))), st3) ∧
    (is_Some (closures st2 !! u)) ∧
    read_prop t p st3 = v ∧ keys st3 = keys st ∧ deps st3 = deps st ∧
    (∀ t', props_of t' st3 = props_of t' st).
Proof.
  intros Hp Ht st1 u.
  assert (read_prop t p st1 = v) as Hv.
  { unfold read_prop, st1. rewrite target_of_upd_target by done.
    by rewrite lookup_insert_eq. }
  split; [exact Hv|].
  destruct Hp as [-> | ->]; unfold handler_get; simpl; unfold alloc_closure;
    eexists _, _; (split; [reflexivity|]); simpl;
    (split; [by rewrite length_app, Nat.add_1_r|]);
    (split_and!; try done;
      [by rewrite lookup_app_r, Nat.sub_diag by done
      |intros t'; apply props_of_upd_target]).
Qed.

Lemma reserved_names_shadow_witness :
  let st := after state_code 6 orphan_setup in
  let st1 := upd_target 0 (insert "inspect" (VNum 7)) st in
  0 < length (states st) ∧ read_prop 0 "inspect" st1 = VNum 7 ∧
  ∃ st2, handler_get 0 "inspect" st1 = Some (Ok (VFun (FClosure 0)), st2).
Proof.
  intros st st1.
  assert (0 < length (states st)) as Ht by (vm_compute; lia).
  destruct (reserved_names_shadow 0 "inspect" (VNum 7) st (or_intror eq_refl) Ht)
    as (Hv & st2 & st3 & Hg & _).
  split; [exact Ht|]. split; [exact Hv|]. exists st2. exact Hg.
Defined.
